(** * XiSort: an external sorter for IEEE-754 doubles

    A shallow embedding of [src/core.py] (key codec, xoshiro256** generator,
    metric transform, chunk writer, chunk reader, k-way merge, tail emitter
    and the [XiSort] orchestrator) together with the properties its
    specification states about it.

    Conventions.
    - A float64 array element is its 64-bit pattern, a [Z] in [0, 2^64)
      ([ndarray.view(np.uint64)], [tobytes]).  IEEE-754 comparison and
      arithmetic on such patterns go through [decode] into the Standard
      Library's [spec_float] (binary64: [prec = 53], [emax = 1024]).
    - NumPy [uint64] arithmetic is integer arithmetic on [Z]; the sentinels
      [SENT + i] are the integers the specification names.  Where a Python
      integer meets a [np.uint64] the rules of NumPy 2 apply: the integer is
      converted to [uint64], and [OverflowError] is raised when it does not
      fit.
    - Python exceptions are values of [exn]; a generator run is a function
      from the sorter state and the input list to the yielded values, the
      way the run ended and the state of the scratch directory. *)

From Stdlib Require Import ZArith List Bool Lia Permutation Sorted.
From Stdlib Require Import Floats.SpecFloat.
From Stdlib Require Ascii String Decimal DecimalString DecimalN.
Import ListNotations.
Open Scope Z_scope.

(* ================================================================== *)
(** * Part I: the program *)
(* ================================================================== *)

(** ** IEEE-754 binary64 bit patterns *)

Module IEEE.

Definition double := Z.

Definition prec : Z := 53.
Definition emax : Z := 1024.

Definition u64 (b : Z) : Prop := 0 <= b < 2 ^ 64.

(** [np.signbit]: bit 63. *)
Definition signbit (b : double) : bool := Z.testbit b 63.

(** Biased exponent field (bits 52..62) and fraction field (bits 0..51). *)
Definition expo (b : double) : Z := Z.land (Z.shiftr b 52) 0x7FF.
Definition frac (b : double) : Z := Z.land b 0xFFFFFFFFFFFFF.

(** The value a pattern denotes.  A normal number with exponent field [e]
    and fraction [f] is [(2^52 + f) * 2^(e - 1075)]; a subnormal one is
    [f * 2^(-1074)]. *)
Definition decode (b : double) : spec_float :=
  let s := signbit b in
  if expo b =? 0x7FF then
    if frac b =? 0 then S754_infinity s else S754_nan
  else if expo b =? 0 then
    match frac b with
    | Zpos m => S754_finite s m (-1074)
    | _ => S754_zero s
    end
  else
    match frac b + 2 ^ 52 with
    | Zpos m => S754_finite s m (expo b - 1075)
    | _ => S754_nan
    end.

(** The pattern of a value; the quiet NaN for [S754_nan]. *)
Definition encode (f : spec_float) : double :=
  let sgn (s : bool) := if s then 2 ^ 63 else 0 in
  match f with
  | S754_zero s => sgn s
  | S754_infinity s => sgn s + 0x7FF0000000000000
  | S754_nan => 0x7FF8000000000000
  | S754_finite s m e => sgn s + (e + 1074) * 2 ^ 52 + Zpos m
  end.

Definition isnan (b : double) : bool :=
  match decode b with S754_nan => true | _ => false end.
Definition isinf (b : double) : bool :=
  match decode b with S754_infinity _ => true | _ => false end.
Definition isposinf (b : double) : bool :=
  match decode b with S754_infinity false => true | _ => false end.
Definition isneginf (b : double) : bool :=
  match decode b with S754_infinity true => true | _ => false end.
Definition isfinite (b : double) : bool := negb (isnan b || isinf b).

(** IEEE comparisons [==], [<], [<=] on patterns. *)
Definition feq (a b : double) : bool := SFeqb (decode a) (decode b).
Definition flt (a b : double) : bool := SFltb (decode a) (decode b).
Definition fle (a b : double) : bool := SFleb (decode a) (decode b).

(** Arithmetic on spec_float values, binary64 instances. *)
Definition fadd := SFadd prec emax.
Definition fsub := SFsub prec emax.
Definition fmul := SFmul prec emax.
Definition fdiv := SFdiv prec emax.

(** [ndarray.astype(np.float64)] of an unsigned integer: round to nearest,
    ties to even. *)
Definition of_u64 (n : Z) : spec_float := binary_normalize prec emax n 0 false.

(** Some doubles. *)
Definition pos_zero : double := 0.
Definition neg_zero : double := 0x8000000000000000.
Definition one      : double := 0x3FF0000000000000.
Definition two      : double := 0x4000000000000000.
Definition neg_one  : double := 0xBFF0000000000000.
Definition pos_inf  : double := 0x7FF0000000000000.
Definition neg_inf  : double := 0xFFF0000000000000.
Definition qnan     : double := 0x7FF8000000000000.

End IEEE.
Import IEEE.

(** ** Key codec ([ieee_key]) *)

Definition MASK : Z := 0x8000000000000000.
Definition SENT : Z := 0xFFFFFFFFFFFFFFF8.
Definition K_NEGINF : Z := SENT + 0.
Definition K_POSINF : Z := SENT + 1.
Definition K_NEG0   : Z := SENT + 2.
Definition K_POS0   : Z := SENT + 3.
Definition K_NAN    : Z := SENT + 4.

(** [~bits] on a [uint64]. *)
Definition lnot64 (b : Z) : Z := Z.land (Z.lnot b) 0xFFFFFFFFFFFFFFFF.

(** One element of [ieee_key]: the masked assignments of the source, in
    their order (a later assignment overrides an earlier one). *)
Definition ieee_key1 (a : double) : Z :=
  let bits := a in
  let neg := negb (Z.land bits MASK =? 0) in
  let key := if neg then lnot64 bits else Z.lor bits MASK in
  let key := if isneginf a then K_NEGINF else key in
  let key := if isposinf a then K_POSINF else key in
  let z := feq a pos_zero in
  let key := if z && signbit a then K_NEG0 else key in
  let key := if z && negb (signbit a) then K_POS0 else key in
  let key := if isnan a then K_NAN else key in
  key.

Definition ieee_key (a : list double) : list Z := map ieee_key1 a.

(** The five sentinel keys. *)
Definition sentinels : list Z := [K_NEGINF; K_POSINF; K_NEG0; K_POS0; K_NAN].

(** ** Python exceptions *)

Inductive exn :=
| ValueError_epsilon       (* "ε too large (π·ε must be < 1)" *)
| ValueError_seed          (* "deterministic=True requires explicit seed" *)
| ValueError_int_nan       (* int(nan) *)
| OverflowError_int_inf    (* int(inf) *)
| MemoryError_quota        (* "ΞSort scratch quota exceeded" *)
| OverflowError_seq        (* "sequence counter exhausted" *)
| IOError_integrity        (* "Integrity check failed (tag mismatch)" *)
| FileNotFoundError        (* open() in a directory that is gone *)
| OverflowError_uint64     (* "Python integer ... out of bounds for uint64" *)
| ValueError_buffer        (* "buffer is smaller than requested size" *)
| BufferError_exports.     (* "cannot close exported pointers exist" *)

(** The configuration errors of the constructor. *)
Definition is_config_error (e : exn) : bool :=
  match e with
  | ValueError_epsilon | ValueError_seed => true
  | _ => false
  end.

(** ** The deterministic generator [_R] (xoshiro256** with vector helpers) *)

Module Rng.

Definition M64 : Z := 0xFFFFFFFFFFFFFFFF.

Definition _rotl (x k : Z) : Z :=
  Z.lor (Z.land (Z.shiftl x k) M64) (Z.shiftr x (64 - k)).

Definition sm64 (x : Z) : Z :=
  let x := Z.land (x + 0x9E3779B97F4A7C15) M64 in
  let x := Z.land (Z.lxor x (Z.shiftr x 30) * 0xBF58476D1CE4E5B9) M64 in
  let x := Z.land (Z.lxor x (Z.shiftr x 27) * 0x94D049BB133111EB) M64 in
  Z.lxor x (Z.shiftr x 31).

(** [self.s]: four words. *)
Record state := mk { s0 : Z; s1 : Z; s2 : Z; s3 : Z }.

Definition init (seed : Z) : state :=
  mk (sm64 (seed + 0)) (sm64 (seed + 1)) (sm64 (seed + 2)) (sm64 (seed + 3)).

Definition _next (st : state) : Z * state :=
  let '(mk s0 s1 s2 s3) := st in
  let res := Z.land (_rotl (s1 * 5) 7 * 9) M64 in
  let t := Z.land (Z.shiftl s1 17) M64 in
  let s2 := Z.lxor s2 s0 in
  let s3 := Z.lxor s3 s1 in
  let s1 := Z.lxor s1 s2 in
  let s0 := Z.lxor s0 s3 in
  let s2 := Z.lxor s2 t in
  let s3 := _rotl s3 45 in
  (res, mk s0 s1 s2 s3).

(** [2**-53] as a double. *)
Definition two_m53 : spec_float := S754_finite false (2 ^ 52) (-105).

(** [rand(n)]: [n] successive draws, each shifted right by 11, converted to
    float64 and scaled by [2**-53]. *)
Fixpoint rand (n : nat) (st : state) : list spec_float * state :=
  match n with
  | O => ([], st)
  | S n' =>
      let (raw, st1) := _next st in
      let (rest, st2) := rand n' st1 in
      (fmul (of_u64 (Z.shiftr raw 11)) two_m53 :: rest, st2)
  end.

(** The rejection loop [while True: r = self._next(); if r < limit: ...]
    of [shuffle], where [lim] is a Python integer; [None] when [fuel] draws
    were all rejected. *)
Fixpoint draw_below (fuel : nat) (lim : Z) (st : state) : option (Z * state) :=
  match fuel with
  | O => None
  | S fuel' =>
      let limit := (2 ^ 64 / lim) * lim in
      let (r, st') := _next st in
      if r <? limit then Some (r mod lim, st') else draw_below fuel' lim st'
  end.

(** [randint(high, size=1)].  Here [lim = np.uint64(high)], and the loop
    starts with [limit = ((1 << 64) // lim) * lim]: the left operand of the
    division is the Python integer [2^64], which NumPy converts to the type
    of [lim]; [2^64] is not a 64-bit value and the conversion raises
    [OverflowError].  (So does [np.uint64(high)] for a [high] that is
    negative or not below [2^64].)  The call raises before it draws: the
    state of the generator is the one it was given. *)
Definition randint (high : Z) (st : state) : state * (exn + Z) :=
  (st, inl OverflowError_uint64).

(** [a[i], a[j] = a[j], a[i]]. *)
Fixpoint list_set {A} (l : list A) (i : nat) (x : A) : list A :=
  match l, i with
  | [], _ => []
  | _ :: l', O => x :: l'
  | y :: l', S i' => y :: list_set l' i' x
  end.

Definition swap (a : list Z) (i j : nat) : list Z :=
  list_set (list_set a i (nth j a 0)) j (nth i a 0).

(** [shuffle(a)]: Fisher-Yates, [i] from [len(a) - 1] down to [1]. *)
Fixpoint shuffle_from (fuel : nat) (i : nat) (a : list Z) (st : state)
  : option (list Z * state) :=
  match i with
  | O => Some (a, st)
  | S i' =>
      match draw_below fuel (Z.of_nat i + 1) st with
      | None => None
      | Some (j, st') => shuffle_from fuel i' (swap a i (Z.to_nat j)) st'
      end
  end.

Definition shuffle (fuel : nat) (a : list Z) (st : state) : option (list Z * state) :=
  shuffle_from fuel (length a - 1) a st.

End Rng.

(** ** Sort records *)

Inductive Mode := STRICT | CURVED.
Inductive TieBreak := VALUE | INDEX | RANDOM | SHUFFLE.

(** The two record schemas differ in the type of [tie]. *)
Inductive dtype := REC_I | REC_F.

Inductive tieval :=
| TieI (u : Z)            (* "<u8" in REC_I *)
| TieF (f : spec_float).  (* float64 in REC_F *)

Record rec := mkrec { val : double; key : Z; tie : tieval; seq : Z }.

(** [==] and [<] on the tie field. *)
Definition tie_eqb (a b : tieval) : bool :=
  match a, b with
  | TieI x, TieI y => x =? y
  | TieF x, TieF y => SFeqb x y
  | _, _ => false
  end.

Definition tie_ltb (a b : tieval) : bool :=
  match a, b with
  | TieI x, TieI y => x <? y
  | TieF x, TieF y => SFltb x y
  | _, _ => false
  end.

(** [(a.key, a.tie, a.seq) < (b.key, b.tie, b.seq)]: the first component
    that differs decides.  It is the comparison of
    [rec.sort(order=("key", "tie", "seq"))] and of the merge key. *)
Definition rec_ltb (a b : rec) : bool :=
  if key a =? key b then
    if tie_eqb (tie a) (tie b) then seq a <? seq b
    else tie_ltb (tie a) (tie b)
  else key a <? key b.

(** [a <= b]: not [b < a]. *)
Definition rec_leb (a b : rec) : bool := negb (rec_ltb b a).

(** [rec.sort(order=...)]: the sorted arrangement of the records. *)
Fixpoint insert_rec (x : rec) (l : list rec) : list rec :=
  match l with
  | [] => [x]
  | y :: l' => if rec_ltb x y then x :: l else y :: insert_rec x l'
  end.

Fixpoint np_sort (l : list rec) : list rec :=
  match l with
  | [] => []
  | x :: l' => insert_rec x (np_sort l')
  end.

(** ** k-way merge ([heapq.merge]) *)

(** What a chunk reader does when iterated: it yields its records, then
    stops, or raises when its integrity check fails. *)
Definition stream := (list rec * option exn)%type.

(** Filling the heap: [next()] on every reader in turn. *)
Fixpoint first_error (ss : list stream) : option exn :=
  match ss with
  | [] => None
  | ([], Some e) :: _ => Some e
  | _ :: ss' => first_error ss'
  end.

(** The least head among the readers, the earliest reader winning a draw,
    and the readers with that one advanced. *)
Fixpoint pick (ss : list stream) : option (rec * list stream) :=
  match ss with
  | [] => None
  | ([], e) :: ss' =>
      match pick ss' with
      | None => None
      | Some (m, rest) => Some (m, ([], e) :: rest)
      end
  | (x :: xs, e) :: ss' =>
      match pick ss' with
      | None => Some (x, (xs, e) :: ss')
      | Some (m, rest) =>
          if rec_ltb m x then Some (m, (x :: xs, e) :: rest)
          else Some (x, (xs, e) :: ss')
      end
  end.

Fixpoint merge_loop (n : nat) (ss : list stream) : list rec * option exn :=
  match n with
  | O => ([], None)
  | S n' =>
      match pick ss with
      | None => ([], None)
      | Some (m, rest) =>
          match first_error rest with
          | Some e => ([m], Some e)
          | None => let (out, e) := merge_loop n' rest in (m :: out, e)
          end
      end
  end.

(** The records [heapq.merge] yields, and the exception that ends it when
    a reader raises. *)
Definition heapq_merge (ss : list stream) : list rec * option exn :=
  match first_error ss with
  | Some e => ([], Some e)
  | None => merge_loop (length (concat (map fst ss))) ss
  end.

Definition is_some {A} (o : option A) : bool :=
  match o with Some _ => true | None => false end.

(** ** Library functions the program calls *)

(** The scratch files of a working directory: [c_%012d], [tail.tmp] and
    [tail.fin]. *)
Inductive fname := Chunk (i : Z) | TailTmp | TailFin.

Definition fname_eqb (a b : fname) : bool :=
  match a, b with
  | Chunk i, Chunk j => i =? j
  | TailTmp, TailTmp => true
  | TailFin, TailFin => true
  | _, _ => false
  end.

Fixpoint dedup (l : list fname) : list fname :=
  match l with
  | [] => []
  | p :: l' => if existsb (fname_eqb p) l' then dedup l' else p :: dedup l'
  end.

(** What lies outside the repository: NumPy's cosine, the 16-byte BLAKE3
    digest (two 64-bit words, of a sequence of 64-bit words), and the order
    in which a Python [set] of paths is iterated. *)
Record Lib := mkLib {
  np_cos : spec_float -> spec_float;
  blake3_16 : list Z -> Z * Z;
  set_order : list fname -> list fname
}.

(** A [set] iterates over its distinct members, each once. *)
Definition Lib_ok (L : Lib) : Prop :=
  forall l, Permutation (set_order L l) (dedup l).

(** ** Metric transform ([XiSort._metric]) *)

Definition np_pi : spec_float := S754_finite false 0x1921FB54442D18 (-51).
(** [np.finfo(np.float64).tiny], [2**-1022]. *)
Definition tiny : spec_float := S754_finite false (2 ^ 52) (-1074).
Definition sf_zero : spec_float := S754_zero false.
Definition sf_one : spec_float := S754_finite false (2 ^ 52) (-52).

(** [a.min()] and [a.max()] of a non-empty array without NaN. *)
Definition np_min (a : list spec_float) : spec_float :=
  match a with
  | [] => S754_nan
  | x :: r => fold_left (fun m y => if SFltb y m then y else m) r x
  end.

Definition np_max (a : list spec_float) : spec_float :=
  match a with
  | [] => S754_nan
  | x :: r => fold_left (fun m y => if SFltb m y then y else m) r x
  end.

(** The CURVED branch, on float64 values. *)
Definition curved (L : Lib) (eps : spec_float) (a : list spec_float) : list spec_float :=
  let lo := np_min a in
  let hi := np_max a in
  let span := fsub hi lo in
  let norm := if SFleb span tiny then map (fun _ => sf_zero) a
              else map (fun x => fdiv (fsub x lo) span) a in
  map (fun n => fadd n (fmul eps (np_cos L (fmul np_pi n)))) norm.

Definition _metric (L : Lib) (mode : Mode) (eps : spec_float) (a : list double)
  : list double :=
  match mode with
  | STRICT => a
  | CURVED => map encode (curved L eps (map decode a))
  end.

(** ** The sorter object *)

Module Config.
(** The keyword arguments of [XiSort.__init__] ([tmpdir] only places the
    working directory). *)
Record t := mk {
  mode : Mode;
  epsilon : spec_float;
  tie_break : TieBreak;
  seed : option Z;
  require_deterministic : bool;
  nan_shuffle : bool;
  max_gb : spec_float;
  integrity : bool;
  soft_verify : bool
}.
End Config.

Module XiSort.
(** [__slots__], without the path [wd] and the input buffer [buf]. *)
Record t := mk {
  mode : Mode;
  tie : TieBreak;
  rng : Rng.state;
  det : bool;
  nan : bool;
  max : Z;
  disk : Z;
  idx : Z;
  gseq : Z;
  integrity : bool;
  soft : bool;
  _maxseq : Z;
  eps : spec_float;
  dtype : dtype
}.

Definition set_rng (s : t) (r : Rng.state) : t :=
  mk (mode s) (tie s) r (det s) (nan s) (max s) (disk s) (idx s) (gseq s)
     (integrity s) (soft s) (_maxseq s) (eps s) (dtype s).
Definition set_disk (s : t) (d : Z) : t :=
  mk (mode s) (tie s) (rng s) (det s) (nan s) (max s) d (idx s) (gseq s)
     (integrity s) (soft s) (_maxseq s) (eps s) (dtype s).
Definition set_idx (s : t) (i : Z) : t :=
  mk (mode s) (tie s) (rng s) (det s) (nan s) (max s) (disk s) i (gseq s)
     (integrity s) (soft s) (_maxseq s) (eps s) (dtype s).
Definition set_gseq (s : t) (g : Z) : t :=
  mk (mode s) (tie s) (rng s) (det s) (nan s) (max s) (disk s) (idx s) g
     (integrity s) (soft s) (_maxseq s) (eps s) (dtype s).
End XiSort.

(** [int(x)] of a float: truncation toward zero. *)
Definition py_int (f : spec_float) : exn + Z :=
  match f with
  | S754_nan => inl ValueError_int_nan
  | S754_infinity _ => inl OverflowError_int_inf
  | S754_zero _ => inr 0
  | S754_finite s m e =>
      let a := if 0 <=? e then Zpos m * 2 ^ e else Zpos m / 2 ^ (- e) in
      inr (if s then - a else a)
  end.

(** [1024**3] as a float. *)
Definition gib : spec_float := S754_finite false (2 ^ 52) (-22).

(** What the constructor does to the file system. *)
Inductive fs_event := Mkdtemp.

(** [XiSort.__init__].  [auto] is the value of [_auto_seed()]. *)
Definition XiSort_init (auto : Z) (c : Config.t) : list fs_event * (exn + XiSort.t) :=
  if SFleb sf_one (fmul (Config.epsilon c) np_pi) then ([], inl ValueError_epsilon)
  else if Config.require_deterministic c && negb (is_some (Config.seed c))
  then ([], inl ValueError_seed)
  else
    let seed := match Config.seed c with Some s => s | None => auto end in
    match py_int (fmul (Config.max_gb c) gib) with
    | inl e => ([], inl e)
    | inr mx =>
        ([Mkdtemp],
         inr (XiSort.mk (Config.mode c) (Config.tie_break c) (Rng.init seed)
                (Config.require_deterministic c) (Config.nan_shuffle c)
                mx 0 0 0
                (Config.integrity c) (Config.soft_verify c)
                (2 ^ 64 - 1) (Config.epsilon c)
                (match Config.tie_break c with VALUE => REC_I | _ => REC_F end)))
    end.

(** ** The working directory *)

(** A chunk file is its records and its 16-byte tag; a tail file is a
    sequence of 64-bit words (raw doubles, then the two words of its tag). *)
Record World := mkWorld {
  wd_exists : bool;
  chunk_files : list (Z * (list rec * (Z * Z)));
  tail_tmp_file : option (list Z);
  tail_fin_file : option (list Z)
}.

Fixpoint chunk_lookup (i : Z) (l : list (Z * (list rec * (Z * Z))))
  : option (list rec * (Z * Z)) :=
  match l with
  | [] => None
  | (j, c) :: l' => if i =? j then Some c else chunk_lookup i l'
  end.

Definition chunk_remove (i : Z) (l : list (Z * (list rec * (Z * Z)))) :=
  filter (fun p => negb (i =? fst p)) l.

Definition chunk_size_bytes (c : list rec * (Z * Z)) : Z :=
  32 * Z.of_nat (length (fst c)) + 16.

Definition words_size_bytes (ws : list Z) : Z := 8 * Z.of_nat (length ws).

Definition opt_size (o : option (list Z)) : Z :=
  match o with Some ws => words_size_bytes ws | None => 0 end.

Definition chunk_bytes (l : list (Z * (list rec * (Z * Z)))) : Z :=
  fold_right (fun p acc => chunk_size_bytes (snd p) + acc) 0 l.

(** Total bytes of the scratch files in the directory. *)
Definition fs_bytes (w : World) : Z :=
  chunk_bytes (chunk_files w) + opt_size (tail_tmp_file w) + opt_size (tail_fin_file w).

(** [os.path.exists], [os.path.getsize], [os.remove], [os.listdir]. *)
Definition fs_exists (w : World) (p : fname) : bool :=
  match p with
  | Chunk i => is_some (chunk_lookup i (chunk_files w))
  | TailTmp => is_some (tail_tmp_file w)
  | TailFin => is_some (tail_fin_file w)
  end.

Definition fs_getsize (w : World) (p : fname) : Z :=
  match p with
  | Chunk i => match chunk_lookup i (chunk_files w) with
               | Some c => chunk_size_bytes c
               | None => 0
               end
  | TailTmp => opt_size (tail_tmp_file w)
  | TailFin => opt_size (tail_fin_file w)
  end.

Definition fs_remove (w : World) (p : fname) : World :=
  match p with
  | Chunk i => mkWorld (wd_exists w) (chunk_remove i (chunk_files w))
                 (tail_tmp_file w) (tail_fin_file w)
  | TailTmp => mkWorld (wd_exists w) (chunk_files w) None (tail_fin_file w)
  | TailFin => mkWorld (wd_exists w) (chunk_files w) (tail_tmp_file w) None
  end.

Definition fs_empty (w : World) : bool :=
  match chunk_files w, tail_tmp_file w, tail_fin_file w with
  | [], None, None => true
  | _, _, _ => false
  end.

(** A directory [mkdtemp] has just made. *)
Definition fresh_world : World := mkWorld true [] None None.

(** ** The state of a run and its monad *)

(** The sorter object, the directory, the locals of the generator
    ([chunks] by index, [tail_tmp], [tail_fin], the words fed to [h_tail]) and what
    an observer sees: the values yielded so far ([out]), the records pulled
    from the merge ([emitted]) and the scratch bytes on disk after every
    write, append and removal ([log], latest first). *)
Record St := mkSt {
  self : XiSort.t;
  world : World;
  chunks : list Z;
  tail_tmp : option fname;
  tail_fin : option fname;
  h_tail : list Z;
  out : list double;
  emitted : list rec;
  log : list Z
}.

Definition set_self (st : St) (s : XiSort.t) : St :=
  mkSt s (world st) (chunks st) (tail_tmp st) (tail_fin st) (h_tail st)
       (out st) (emitted st) (log st).
(** A change of the directory is observed. *)
Definition set_world (st : St) (w : World) : St :=
  mkSt (self st) w (chunks st) (tail_tmp st) (tail_fin st) (h_tail st)
       (out st) (emitted st) (fs_bytes w :: log st).
Definition set_chunks (st : St) (c : list Z) : St :=
  mkSt (self st) (world st) c (tail_tmp st) (tail_fin st) (h_tail st)
       (out st) (emitted st) (log st).
Definition set_tail_tmp (st : St) (p : option fname) : St :=
  mkSt (self st) (world st) (chunks st) p (tail_fin st) (h_tail st)
       (out st) (emitted st) (log st).
Definition set_tail_fin (st : St) (p : option fname) : St :=
  mkSt (self st) (world st) (chunks st) (tail_tmp st) p (h_tail st)
       (out st) (emitted st) (log st).
Definition set_h_tail (st : St) (h : list Z) : St :=
  mkSt (self st) (world st) (chunks st) (tail_tmp st) (tail_fin st) h
       (out st) (emitted st) (log st).
Definition yield_vals (st : St) (vs : list double) : St :=
  mkSt (self st) (world st) (chunks st) (tail_tmp st) (tail_fin st) (h_tail st)
       (out st ++ vs) (emitted st) (log st).
Definition yield_recs (st : St) (rs : list rec) : St :=
  mkSt (self st) (world st) (chunks st) (tail_tmp st) (tail_fin st) (h_tail st)
       (out st ++ map val rs) (emitted st ++ rs) (log st).

(** A computation stops with a Python exception, or (in this model only)
    because a rejection loop of the generator used up its fuel. *)
Inductive abort := Exn (e : exn) | OutOfFuel.

Definition M (A : Type) : Type := St -> St * (abort + A).

Definition ret {A} (a : A) : M A := fun st => (st, inr a).
Definition raise {A} (e : exn) : M A := fun st => (st, inl (Exn e)).
Definition bind {A B} (m : M A) (k : A -> M B) : M B :=
  fun st => match m st with
            | (st', inl a) => (st', inl a)
            | (st', inr x) => k x st'
            end.
Definition get : M St := fun st => (st, inr st).
Definition modify (f : St -> St) : M unit := fun st => (f st, inr tt).

Notation "x <- c1 ;; c2" := (bind c1 (fun x => c2))
  (at level 61, c1 at next level, right associativity).
Notation "c1 ;;; c2" := (bind c1 (fun _ => c2))
  (at level 61, right associativity).

Fixpoint forM_ {A} (l : list A) (f : A -> M unit) : M unit :=
  match l with
  | [] => ret tt
  | x :: l' => f x ;;; forM_ l' f
  end.

(** Running a generator step of [_R] that may run out of fuel. *)
Definition with_rng {A} (f : Rng.state -> option (A * Rng.state)) : M A :=
  fun st =>
    match f (XiSort.rng (self st)) with
    | None => (st, inl OutOfFuel)
    | Some (a, r) => (set_self st (XiSort.set_rng (self st) r), inr a)
    end.

(** [XiSort._budget]. *)
Definition _budget (delta : Z) : M unit :=
  fun st =>
    let d := Z.max (XiSort.disk (self st) + delta) 0 in
    let st' := set_self st (XiSort.set_disk (self st) d) in
    if d >? XiSort.max (self st) then (st', inl (Exn MemoryError_quota))
    else (st', inr tt).

(** [open(tail_tmp, "ab", 0).write(words)]: create or append. *)
Definition append_tail_tmp (ws : list Z) : M unit :=
  fun st =>
    let w := world st in
    if negb (wd_exists w) then (st, inl (Exn FileNotFoundError))
    else
      let old := match tail_tmp_file w with Some x => x | None => [] end in
      (set_world st (mkWorld true (chunk_files w) (Some (old ++ ws)) (tail_fin_file w)),
       inr tt).

(** [open(fname, "wb", 0)], the record bytes, then the tag. *)
Definition write_chunk_file (i : Z) (recs : list rec) (tag : Z * Z) : M unit :=
  fun st =>
    let w := world st in
    if negb (wd_exists w) then (st, inl (Exn FileNotFoundError))
    else
      (set_world st (mkWorld true ((i, (recs, tag)) :: chunk_remove i (chunk_files w))
                       (tail_tmp_file w) (tail_fin_file w)),
       inr tt).

(** [os.rename(tail_tmp, tail_fin)]. *)
Definition rename_tail : M unit :=
  fun st =>
    let w := world st in
    match tail_tmp_file w with
    | None => (st, inl (Exn FileNotFoundError))
    | Some ws =>
        (set_world st (mkWorld (wd_exists w) (chunk_files w) None (Some ws)), inr tt)
    end.

(** ** Chunk writer *)

Definition nonfinite (x : double) : bool := isnan x || isinf x.

(** The 64-bit words of a record, as [tobytes] lays them out. *)
Definition tie_word (t : tieval) : Z :=
  match t with TieI u => u | TieF f => encode f end.
Definition rec_words (r : rec) : list Z := [val r; key r; tie_word (tie r); seq r].

(** [np.arange(n, dtype=np.uint64) + gseq] stored in a float64 field. *)
Fixpoint index_ties (n : nat) (s : Z) : list tieval :=
  match n with
  | O => []
  | S n' => TieF (of_u64 s) :: index_ties n' (s + 1)
  end.

(** [rec["val"], rec["key"], rec["tie"], rec["seq"] = finite, key, tie, seq]
    with [seq = arange(n) + gseq]. *)
Fixpoint zip_recs (vs : list double) (ks : list Z) (ts : list tieval) (s : Z)
  : list rec :=
  match vs, ks, ts with
  | v :: vs', k :: ks', t :: ts' => mkrec v k t s :: zip_recs vs' ks' ts' (s + 1)
  | _, _, _ => []
  end.

Definition make_ties (tb : TieBreak) (gseq : Z) (keys : list Z) : M (list tieval) :=
  match tb with
  | VALUE => ret (map TieI keys)
  | INDEX => ret (index_ties (length keys) gseq)
  | RANDOM | SHUFFLE =>
      rs <- with_rng (fun r => Some (Rng.rand (length keys) r)) ;;
      ret (map TieF rs)
  end.

(** The non-finite values of a chunk go to the tail file. *)
Definition write_tail (fuel : nat) (nonfin : list double) : M unit :=
  modify (fun st => set_tail_tmp st
                      (match tail_tmp st with Some p => Some p | None => Some TailTmp end)) ;;;
  st <- get ;;
  tail <- (if XiSort.nan (self st) then with_rng (Rng.shuffle fuel nonfin)
           else ret nonfin) ;;
  modify (fun st => set_h_tail st (h_tail st ++ tail)) ;;;
  append_tail_tmp tail ;;;
  _budget (8 * Z.of_nat (length tail)).

(** The finite values of a chunk become a sorted, tagged chunk file. *)
Definition write_chunk (L : Lib) (finite : list double) : M unit :=
  st <- get ;;
  let s := self st in
  let n := Z.of_nat (length finite) in
  if XiSort.gseq s + n >? XiSort._maxseq s then raise OverflowError_seq
  else
    let keys := ieee_key (_metric L (XiSort.mode s) (XiSort.eps s) finite) in
    ties <- make_ties (XiSort.tie s) (XiSort.gseq s) keys ;;
    modify (fun st => set_self st (XiSort.set_gseq (self st) (XiSort.gseq (self st) + n))) ;;;
    let recs := np_sort (zip_recs finite keys ties (XiSort.gseq s)) in
    let i := XiSort.idx s in
    write_chunk_file i recs (blake3_16 L (concat (map rec_words recs))) ;;;
    st <- get ;;
    _budget (fs_getsize (world st) (Chunk i)) ;;;
    modify (fun st => set_chunks st (chunks st ++ [i])) ;;;
    modify (fun st => set_self st (XiSort.set_idx (self st) (XiSort.idx (self st) + 1))).

(** One pass of the chunk loop on the buffer [arr] (never empty). *)
Definition process_chunk (L : Lib) (fuel : nat) (arr : list double) : M unit :=
  let finite := filter (fun x => negb (nonfinite x)) arr in
  (if existsb nonfinite arr then write_tail fuel (filter nonfinite arr) else ret tt) ;;;
  match finite with
  | [] => ret tt
  | _ => write_chunk L finite
  end.

(** Filling the buffer: [chunk_size] values at a time from the input, a
    shorter last chunk when the input ends ([buf] is the buffer so far). *)
Fixpoint read_chunks (cs : nat) (it buf : list double) : list (list double) :=
  match it with
  | [] => match buf with [] => [] | _ => [buf] end
  | x :: it' =>
      let buf' := buf ++ [x] in
      if (length buf' =? cs)%nat then buf' :: read_chunks cs it' []
      else read_chunks cs it' buf'
  end.

(** Sealing the tail: the tag, the rename, the charge for the tag. *)
Definition seal_tail (L : Lib) : M unit :=
  st <- get ;;
  match tail_tmp st with
  | None => ret tt
  | Some _ =>
      let tag := blake3_16 L (h_tail st) in
      append_tail_tmp [fst tag; snd tag] ;;;
      modify (fun st => set_tail_fin st (Some TailFin)) ;;;
      rename_tail ;;;
      _budget 16
  end.

(** ** Chunk reader and merge phase *)

Definition tag_eqb (a b : Z * Z) : bool := (fst a =? fst b) && (snd a =? snd b).

(** [_reader]: the records of the chunk in file order; the tag is compared
    once the payload has been read. *)
Definition _reader (L : Lib) (integrity soft : bool) (w : World) (i : Z) : stream :=
  match chunk_lookup i (chunk_files w) with
  | None => ([], None)
  | Some (recs, tag) =>
      let computed := blake3_16 L (concat (map rec_words recs)) in
      (recs,
       if integrity && negb (tag_eqb computed tag) && negb soft
       then Some IOError_integrity else None)
  end.

Definition merge_phase (L : Lib) : M unit :=
  st <- get ;;
  let s := self st in
  let readers := map (_reader L (XiSort.integrity s) (XiSort.soft s) (world st))
                     (chunks st) in
  let (recs, err) := heapq_merge readers in
  modify (fun st => yield_recs st recs) ;;;
  match err with
  | Some e => raise e
  | None => ret tt
  end.

(** ** Tail emitter ([_tail_emit]) *)

Definition cap_elements : Z := 64 * 1024 * 1024 / 8.
Definition small_tail_bytes : Z := 512 * 1024 * 1024.

(** [np.frombuffer(buf, dtype=np.float64, count=count)] for a positive
    [count]: the first [count] doubles of the buffer, and [ValueError] when
    the buffer holds fewer. *)
Definition np_frombuffer (buf : list Z) (count : Z) : exn + list Z :=
  if words_size_bytes buf <? count * 8 then inl ValueError_buffer
  else inr (firstn (Z.to_nat count) buf).

(** [mmap.close()]: refused with [BufferError] while an array made by
    [np.frombuffer] still refers to the map. *)
Definition mmap_close (exported : bool) : M unit :=
  if exported then raise BufferError_exports else ret tt.

(** The inner loop over what is left of a window once the reservoir is
    full; an exception of [randint] ends it. *)
Fixpoint res_items (items buf : list Z) (processed : Z) (r : Rng.state)
  : Rng.state * (exn + (list Z * Z)) :=
  match items with
  | [] => (r, inr (buf, processed))
  | x :: items' =>
      match Rng.randint (cap_elements + processed + 1) r with
      | (r', inl e) => (r', inl e)
      | (r', inr m) =>
          let buf' := if m <? cap_elements then Rng.list_set buf (Z.to_nat m) x
                      else buf in
          res_items items' buf' (processed + 1) r'
      end
  end.

(** One window: top up the reservoir, then sample the rest.  [buf] is the
    filled part [buf[:fill]] of the reservoir. *)
Definition res_chunk (chunk buf : list Z) (processed : Z) (r : Rng.state)
  : Rng.state * (exn + (list Z * Z)) :=
  let fill := Z.of_nat (length buf) in
  let take := if fill <? cap_elements
              then Z.min (cap_elements - fill) (Z.of_nat (length chunk)) else 0 in
  res_items (skipn (Z.to_nat take) chunk)
            (buf ++ firstn (Z.to_nat take) chunk) processed r.

Fixpoint res_chunks (view : list Z) (cse : Z) (n : nat) (i : Z)
    (buf : list Z) (processed : Z) (r : Rng.state)
  : Rng.state * (exn + (list Z * Z)) :=
  match n with
  | O => (r, inr (buf, processed))
  | S n' =>
      let chunk := firstn (Z.to_nat cse) (skipn (Z.to_nat (i * cse)) view) in
      match res_chunk chunk buf processed r with
      | (r', inl e) => (r', inl e)
      | (r', inr (buf', processed')) =>
          res_chunks view cse n' (i + 1) buf' processed' r'
      end
  end.

(** The [try] block of the branch for a large tail, from
    [chunk_size_elements = min(view.size, 1_048_576)] on: the filled part of
    the reservoir, or the exception that ended the loop. *)
Definition reservoir (view : list Z) (r : Rng.state) : Rng.state * (exn + list Z) :=
  let size := Z.of_nat (length view) in
  let cse := Z.min size 1048576 in
  if cse =? 0 then (r, inr [])
  else
    let num_chunks := (size + cse - 1) / cse in
    match res_chunks view cse (Z.to_nat num_chunks) 0 [] 0 r with
    | (r', inl e) => (r', inl e)
    | (r', inr (buf, _)) => (r', inr buf)
    end.

(** The reservoir run on the sorter's generator.  Its exception is not
    raised: [except Exception] catches it. *)
Definition run_reservoir (view : list Z) : M (exn + list Z) :=
  fun st =>
    let (r, res) := reservoir view (XiSort.rng (self st)) in
    (set_self st (XiSort.set_rng (self st) r), inr res).

(** [rng.shuffle(arr); yield from arr] for an array that is not empty. *)
Definition shuffle_and_yield (fuel : nat) (arr : list Z) : M unit :=
  match arr with
  | [] => ret tt
  | _ =>
      arr' <- with_rng (Rng.shuffle fuel arr) ;;
      modify (fun st => yield_vals st arr')
  end.

(** [_tail_emit(tail_fin, self.rng)].  Both branches map the first
    [payload_size] bytes of the file.

    Up to 512 MiB of payload, the number of elements is taken from
    [mm.size()], which is the length of the file (payload and tag), not of
    the map: [np.frombuffer] is asked for more than the map holds and raises
    [ValueError], which [except Exception] turns into a warning and a
    [return].

    Above 512 MiB, [view = np.frombuffer(data_map, ...)] is made with the
    number of elements of the map, and it is still alive when the [finally]
    block calls [data_map.close()], whether the [try] block ended normally
    or through [except Exception]: the close raises [BufferError], before
    the reservoir is shuffled and yielded. *)
Definition _tail_emit (fuel : nat) : M unit :=
  st <- get ;;
  match tail_fin_file (world st) with
  | None => ret tt
  | Some ws =>
      let size := words_size_bytes ws in
      if size <=? 16 then ret tt
      else
        let payload_size := size - 16 in
        let mapped := firstn (Z.to_nat (payload_size / 8)) ws in
        if payload_size <=? small_tail_bytes then
          let current_payload_size := size in
          let num_elements := current_payload_size / 8 in
          if 0 <? num_elements then
            match np_frombuffer mapped num_elements with
            | inl _ => mmap_close false
            | inr arr_to_yield =>
                shuffle_and_yield fuel arr_to_yield ;;;
                mmap_close false
            end
          else mmap_close false
        else
          let view_elements := payload_size / 8 in
          match np_frombuffer mapped view_elements with
          | inl _ => mmap_close false
          | inr view =>
              res <- run_reservoir view ;;
              mmap_close true ;;;
              match res with
              | inl _ => ret tt
              | inr buf => shuffle_and_yield fuel buf
              end
          end
  end.

(** ** The streaming operation ([XiSort.stream_sort]) *)

Definition remove_path (p : fname) : M unit :=
  st <- get ;;
  if fs_exists (world st) p then
    let size := fs_getsize (world st) p in
    modify (fun st => set_world st (fs_remove (world st) p)) ;;;
    _budget (- size)
  else ret tt.

Definition rmdir_if_empty : M unit :=
  modify (fun st =>
            let w := world st in
            if wd_exists w && fs_empty w
            then set_world st (mkWorld false (chunk_files w) (tail_tmp_file w)
                                 (tail_fin_file w))
            else st).

(** The [finally] block. *)
Definition cleanup (L : Lib) : M unit :=
  st <- get ;;
  let w := world st in
  let fin := match tail_fin st with
             | Some p => if fs_exists w p then [p] else []
             | None => []
             end in
  let tmp := match tail_tmp st with
             | Some p =>
                 if fs_exists w p then
                   match tail_fin st with
                   | None => [p]
                   | Some q => if fname_eqb p q then [] else [p]
                   end
                 else []
             | None => []
             end in
  let paths_to_remove := map Chunk (chunks st) ++ fin ++ tmp in
  forM_ (set_order L paths_to_remove) remove_path ;;;
  rmdir_if_empty.

(** The [try] block. *)
Definition stream_sort_body (L : Lib) (fuel : nat) (itr : list double)
    (chunk_size : Z) : M unit :=
  (if chunk_size <=? 0 then ret tt
   else forM_ (read_chunks (Z.to_nat chunk_size) itr []) (process_chunk L fuel)) ;;;
  seal_tail L ;;;
  merge_phase L ;;;
  st <- get ;;
  match tail_fin st with
  | Some _ => _tail_emit fuel
  | None => ret tt
  end.

(** How a run of the generator ends when the consumer pulls every value. *)
Inductive outcome :=
| Finished
| Raised (e : exn)            (* from the [try] block, after the cleanup *)
| RaisedInCleanup (e : exn)   (* from the [finally] block *)
| Diverged.                   (* a rejection loop outlived the fuel *)

Definition stream_sort (L : Lib) (fuel : nat) (s : XiSort.t) (w : World)
    (itr : list double) (chunk_size : Z) : St * outcome :=
  let st0 := mkSt s w [] None None [] [] [] [] in
  match stream_sort_body L fuel itr chunk_size st0 with
  | (st1, inl OutOfFuel) => (st1, Diverged)
  | (st1, r) =>
      match cleanup L st1 with
      | (st2, inl (Exn e)) => (st2, RaisedInCleanup e)
      | (st2, inl OutOfFuel) => (st2, Diverged)
      | (st2, inr _) =>
          (st2, match r with inl (Exn e) => Raised e | _ => Finished end)
      end
  end.

(** The default [chunk_size]. *)
Definition default_chunk_size : Z := 2 ^ 18.

(** ** Concrete instances used in the examples *)

(** [0.01], the default [epsilon]. *)
Definition eps_default : spec_float := S754_finite false 0x147AE147AE147B (-59).

(** [XiSort()] with every keyword argument at its default. *)
Definition default_config : Config.t :=
  Config.mk STRICT eps_default VALUE None false false sf_one true false.

(** A library for the examples: the cosine is pinned where the examples
    evaluate it ([cos(+-0) = 1]), the digest is constant, and a set is
    iterated in list order. *)
Definition demo_lib : Lib :=
  mkLib (fun x => match x with S754_zero _ => sf_one | _ => S754_nan end)
        (fun _ => (0, 0))
        dedup.

(** The same with sets iterated in the opposite order. *)
Definition demo_lib_rev : Lib :=
  mkLib (np_cos demo_lib) (blake3_16 demo_lib) (fun l => rev (dedup l)).

(** The sorter a configuration builds ([auto] seeds it when no seed is
    given); a sorter with quota 0 stands in when the constructor raises. *)
Definition sorter_of (auto : Z) (c : Config.t) : XiSort.t :=
  match snd (XiSort_init auto c) with
  | inr s => s
  | inl _ => XiSort.mk STRICT VALUE (Rng.init 0) false false 0 0 0 0
               true false (2 ^ 64 - 1) sf_zero REC_I
  end.

(** [XiSort(seed=1, require_deterministic=True, max_gb=60 / 2**30)]: a
    quota of 60 bytes. *)
Definition gb_60_bytes : spec_float := S754_finite false 0x1E000000000000 (-77).
Definition config_60_bytes : Config.t :=
  Config.mk STRICT eps_default VALUE (Some 1) true false gb_60_bytes true false.

(** [XiSort(max_gb=0.0)]. *)
Definition config_no_quota : Config.t :=
  Config.mk STRICT eps_default VALUE None false false sf_zero true false.

(** ** Vocabulary of the properties *)

(** [(a.key, a.tie, a.seq) <= (b.key, b.tie, b.seq)], lexicographically. *)
Definition rec_lex_le (a b : rec) : Prop :=
  key a < key b
  \/ (key a = key b
      /\ (tie_ltb (tie a) (tie b) = true
          \/ (tie_eqb (tie a) (tie b) = true /\ seq a <= seq b))).

(** The ties a sorter with tie-break [tb] writes: integers under VALUE,
    floats other than NaN otherwise. *)
Definition tie_wf (tb : TieBreak) (t : tieval) : Prop :=
  match tb, t with
  | VALUE, TieI _ => True
  | VALUE, TieF _ => False
  | _, TieI _ => False
  | _, TieF f => f <> S754_nan
  end.

(** IEEE comparison of values other than NaN is the lexicographic order of
    these integer triples. *)
Definition sf_rank (f : spec_float) : Z * Z * Z :=
  match f with
  | S754_nan => (3, 0, 0)
  | S754_infinity true => (-2, 0, 0)
  | S754_infinity false => (2, 0, 0)
  | S754_zero _ => (0, 0, 0)
  | S754_finite true m e => (-1, - e, - Zpos m)
  | S754_finite false m e => (1, e, Zpos m)
  end.

Definition tie_rank (t : tieval) : Z * Z * Z :=
  match t with
  | TieI u => (0, u, 0)
  | TieF f => sf_rank f
  end.

Definition lex3_lt (a b : Z * Z * Z) : Prop :=
  let '(a1, a2, a3) := a in
  let '(b1, b2, b3) := b in
  a1 < b1 \/ (a1 = b1 /\ (a2 < b2 \/ (a2 = b2 /\ a3 < b3))).

(** The order of records through the ranks of their fields. *)
Definition rk_lt (a b : rec) : Prop :=
  key a < key b
  \/ (key a = key b
      /\ (lex3_lt (tie_rank (tie a)) (tie_rank (tie b))
          \/ (tie_rank (tie a) = tie_rank (tie b) /\ seq a < seq b))).

Definition rk_le (a b : rec) : Prop :=
  key a < key b
  \/ (key a = key b
      /\ (lex3_lt (tie_rank (tie a)) (tie_rank (tie b))
          \/ (tie_rank (tie a) = tie_rank (tie b) /\ seq a <= seq b))).

(** The records of chunk [i] as a reader finds them. *)
Definition chunk_recs (w : World) (i : Z) : list rec :=
  match chunk_lookup i (chunk_files w) with
  | Some (recs, _) => recs
  | None => []
  end.

(** The words of [tail.tmp]. *)
Definition tail_words (w : World) : list Z :=
  match tail_tmp_file w with Some ws => ws | None => [] end.

(** A record with a tie of the sorter's schema; readers whose records are
    sorted and of that schema. *)
Definition wf_rec (tb : TieBreak) (r : rec) : Prop := tie_wf tb (tie r).

Definition sorted_wf (tb : TieBreak) (l : list rec) : Prop :=
  StronglySorted rk_le l /\ Forall (wf_rec tb) l.

Definition streams_ok (tb : TieBreak) (ss : list stream) : Prop :=
  Forall (fun s => sorted_wf tb (fst s)) ss.

(** The chunk files written so far: their indices are below [idx] and
    each holds sorted records of the sorter's schema. *)
Definition chunks_inv (tb : TieBreak) (st : St) : Prop :=
  XiSort.tie (self st) = tb
  /\ Forall (fun i => i < XiSort.idx (self st)) (chunks st)
  /\ Forall (fun i => sorted_wf tb (chunk_recs (world st) i)) (chunks st).

(** The chunk loop after the input [processed]: every finite value is the
    [val] of one record of one chunk, every other value is one word of
    [tail.tmp], and nothing has been yielded. *)
Definition loop_inv (tb : TieBreak) (processed : list double) (st : St) : Prop :=
  chunks_inv tb st
  /\ Permutation (map val (concat (map (chunk_recs (world st)) (chunks st))))
                 (filter (fun x => negb (nonfinite x)) processed)
  /\ Permutation (tail_words (world st)) (filter nonfinite processed)
  /\ (tail_tmp st = None -> filter nonfinite processed = [])
  /\ tail_fin st = None /\ out st = [] /\ emitted st = [].

(** A property of the state that a computation keeps, however it ends. *)
Definition preserves {A} (P : St -> Prop) (m : M A) : Prop :=
  forall st st' r, m st = (st', r) -> P st -> P st'.

(** Properties that do not look at the sorter object, or at the directory,
    or at the locals. *)
Definition ignores_self (P : St -> Prop) : Prop :=
  forall st s, P st -> P (set_self st s).
Definition ignores_world (P : St -> Prop) : Prop :=
  forall st w, P st -> P (set_world st w).
Definition ignores_locals (P : St -> Prop) : Prop :=
  forall st, P st ->
    (forall c, P (set_chunks st c)) /\ (forall p, P (set_tail_tmp st p))
    /\ (forall p, P (set_tail_fin st p)) /\ (forall h, P (set_h_tail st h)).

(** The budget at the points where it has been checked: the sorter's
    counter covers the bytes on disk, it is within the quota [mx], and so
    was every observation of the directory so far. *)
Definition budget_inv (mx : Z) (st : St) : Prop :=
  XiSort.max (self st) = mx
  /\ fs_bytes (world st) <= XiSort.disk (self st) <= mx
  /\ Forall (fun b => b <= mx) (log st).

(** A computation that keeps the budget unless it raises the quota error. *)
Definition quota_safe {A} (mx : Z) (m : M A) : Prop :=
  forall st st' r, m st = (st', r) -> budget_inv mx st ->
    r = inl (Exn MemoryError_quota) \/ budget_inv mx st'.

(** Every chunk file of the run carries the digest of its own payload. *)
Definition tags_ok (L : Lib) (st : St) : Prop :=
  Forall (fun i => match chunk_lookup i (chunk_files (world st)) with
                   | Some (recs, tag) => tag = blake3_16 L (concat (map rec_words recs))
                   | None => True
                   end) (chunks st).

(** Room for [b] more bytes of scratch and [q] more sequence numbers in an
    existing working directory; [c] says that no non-finite value has been
    met, so that there is no tail file. *)
Definition room (L : Lib) (b q : Z) (c : bool) (st : St) : Prop :=
  wd_exists (world st) = true
  /\ 0 <= XiSort.disk (self st)
  /\ XiSort.disk (self st) + b <= XiSort.max (self st)
  /\ XiSort.gseq (self st) + q <= XiSort._maxseq (self st)
  /\ tags_ok L st
  /\ (c = true -> tail_tmp st = None /\ tail_fin st = None).

(** The scratch bytes a run may need for the values [l]: a word of the tail
    for each non-finite value, a record and at most one chunk tag for each
    finite value. *)
Definition count_finite (l : list double) : Z :=
  Z.of_nat (length (filter (fun x => negb (nonfinite x)) l)).

Definition scratch_need (l : list double) : Z :=
  8 * Z.of_nat (length (filter nonfinite l)) + 48 * count_finite l.

(** From [P], the computation raises no exception; it runs out of fuel only
    if [F]; and when it returns [a], [Q a] holds of the state. *)
Definition runs {A} (P : St -> Prop) (m : M A) (F : Prop) (Q : A -> St -> Prop) : Prop :=
  forall st st' r, m st = (st', r) -> P st ->
    match r with
    | inl (Exn _) => False
    | inl OutOfFuel => F
    | inr a => Q a st'
    end.

(** The magnitude of a pattern: its low 63 bits. *)
Definition mag (b : Z) : Z := expo b * 2 ^ 52 + frac b.

(** Finite and not a zero, on the fields. *)
Definition finite_nonzero (b : double) : Prop :=
  isfinite b = true /\ feq b pos_zero = false.

(** A generator state of four 64-bit words. *)
Definition rng_wf (st : Rng.state) : Prop :=
  u64 (Rng.s0 st) /\ u64 (Rng.s1 st) /\ u64 (Rng.s2 st) /\ u64 (Rng.s3 st).

(** A record as the chunk writer builds it in STRICT mode: its key is the
    key of its value, a finite 64-bit pattern. *)
Definition rec_ok (r : rec) : Prop :=
  key r = ieee_key1 (val r) /\ u64 (val r) /\ nonfinite (val r) = false.

(** In STRICT mode, every record on disk and every record pulled from the
    merge is such a record. *)
Definition strict_inv (st : St) : Prop :=
  XiSort.mode (self st) = STRICT
  /\ Forall (fun f => Forall rec_ok (fst (snd f))) (chunk_files (world st))
  /\ Forall rec_ok (emitted st).

(** A computation that changes neither the mode, nor a chunk file, nor the
    records pulled from the merge. *)
Definition frames {A} (m : M A) : Prop :=
  forall st st' r, m st = (st', r) ->
    XiSort.mode (self st') = XiSort.mode (self st)
    /\ chunk_files (world st') = chunk_files (world st)
    /\ emitted st' = emitted st.

(** The order of the finite values in STRICT mode: [a] may come before [b]
    when both are non-zero and [a <= b], or [b] is a zero and [a] is not, or
    both are zeros and [a] is not [+0.0] before [-0.0]. *)
Definition value_order (a b : double) : Prop :=
  if feq a pos_zero
  then feq b pos_zero = true /\ (signbit a = false -> signbit b = false)
  else feq b pos_zero = true \/ fle a b = true.


(** From [P], the computation returns in [Q]; when it stops with an error,
    that is the quota error or the state is in [E]. *)
Definition ends {A} (P : St -> Prop) (m : M A) (Q E : St -> Prop) : Prop :=
  forall st st' r, m st = (st', r) -> P st ->
    match r with
    | inr _ => Q st'
    | inl a => a = Exn MemoryError_quota \/ E st'
    end.


(** The payload of [tail.fin] (the file without its 16-byte tag) exceeds
    512 MiB. *)
Definition tail_payload_large (w : World) : bool :=
  match tail_fin_file w with
  | Some ws => small_tail_bytes <? words_size_bytes ws - 16
  | None => false
  end.


(** With [nan_shuffle] off, the computation does not stop in a rejection
    loop, and it leaves the flag off. *)
Definition steady {A} (m : M A) : Prop :=
  forall st st' r, m st = (st', r) -> XiSort.nan (self st) = false ->
    r <> inl OutOfFuel /\ XiSort.nan (self st') = false.

(** ** Chunk file names ([_det_name]) *)

Section DetName.
Import Ascii String Decimal.
Local Open Scope string_scope.

(** [k] zeros in front of a decimal number. *)
Fixpoint pad_zeros (k : nat) (d : uint) : uint :=
  match k with
  | O => d
  | S k' => D0 (pad_zeros k' d)
  end.

(** The base name [f"c_{i:012d}"]: the decimal digits of [i], padded with
    zeros to a width of 12, the sign of a negative [i] counting for one. *)
Definition _det_name (i : Z) : string :=
  let d := N.to_uint (Z.abs_N i) in
  if (i <? 0)%Z
  then "c_-" ++ DecimalString.NilEmpty.string_of_uint (pad_zeros (11 - nb_digits d) d)
  else "c_" ++ DecimalString.NilEmpty.string_of_uint (pad_zeros (12 - nb_digits d) d).

End DetName.

(** The state [st] with [ws] as the content of [tail.fin]. *)
Definition with_tail_fin (st : St) (ws : list Z) : St :=
  mkSt (self st)
       (mkWorld (wd_exists (world st)) (chunk_files (world st))
                (tail_tmp_file (world st)) (Some ws))
       (chunks st) (tail_tmp st) (tail_fin st) (h_tail st)
       (out st) (emitted st) (log st).

(* ================================================================== *)
(** * Part II: properties *)
(* ================================================================== *)

(** ** Bit-level facts *)

Lemma signbit_ge (b : Z) : u64 b -> signbit b = (2 ^ 63 <=? b).
Proof.
  unfold u64, signbit. intros Hb.
  rewrite Z.testbit_odd, Z.shiftr_div_pow2 by lia.
  destruct (Z.leb_spec (2 ^ 63) b) as [H|H].
  - assert (b / 2 ^ 63 = 1) as ->; [|reflexivity].
    symmetry. apply Z.div_unique with (r := b - 2 ^ 63); lia.
  - rewrite Z.div_small by lia. reflexivity.
Qed.

Lemma expo_div (b : Z) : expo b = (b / 2 ^ 52) mod 2 ^ 11.
Proof.
  unfold expo. change 0x7FF with (Z.ones 11).
  rewrite Z.land_ones, Z.shiftr_div_pow2 by lia. reflexivity.
Qed.

Lemma frac_mod (b : Z) : frac b = b mod 2 ^ 52.
Proof.
  unfold frac. change 0xFFFFFFFFFFFFF with (Z.ones 52).
  rewrite Z.land_ones by lia. reflexivity.
Qed.

Lemma land_MASK (b : Z) : u64 b -> Z.land b MASK = if 2 ^ 63 <=? b then 2 ^ 63 else 0.
Proof.
  intros Hb. rewrite <- (signbit_ge b Hb). unfold signbit, MASK.
  change 0x8000000000000000 with (2 ^ 63).
  apply Z.bits_inj'. intros n Hn.
  rewrite Z.land_spec, Z.pow2_bits_eqb by lia.
  destruct (Z.eqb_spec 63 n) as [<-|Hne].
  - destruct (Z.testbit b 63) eqn:E.
    + rewrite Z.pow2_bits_true by lia. reflexivity.
    + rewrite Z.bits_0. reflexivity.
  - rewrite andb_false_r.
    destruct (Z.testbit b 63).
    + rewrite Z.pow2_bits_false by lia. reflexivity.
    + rewrite Z.bits_0. reflexivity.
Qed.

Lemma lor_MASK (b : Z) : 0 <= b < 2 ^ 63 -> Z.lor b MASK = b + 2 ^ 63.
Proof.
  intros Hb.
  assert (Hl : Z.land b MASK = 0).
  { rewrite land_MASK by (unfold u64; lia).
    destruct (Z.leb_spec (2 ^ 63) b); [lia | reflexivity]. }
  rewrite <- Z.lxor_lor by exact Hl.
  rewrite <- Z.add_nocarry_lxor by exact Hl. reflexivity.
Qed.

Lemma lnot64_sub (b : Z) : u64 b -> lnot64 b = 2 ^ 64 - 1 - b.
Proof.
  unfold u64, lnot64. intros Hb.
  change 0xFFFFFFFFFFFFFFFF with (Z.ones 64).
  rewrite Z.land_ones by lia. unfold Z.lnot.
  symmetry. apply Z.mod_unique with (q := -1); lia.
Qed.

(** A pattern splits into sign, exponent field and fraction field. *)
Lemma fields (b : Z) :
  u64 b ->
  b = (if signbit b then 2 ^ 63 else 0) + expo b * 2 ^ 52 + frac b
  /\ 0 <= expo b < 2 ^ 11 /\ 0 <= frac b < 2 ^ 52.
Proof.
  intros Hb. rewrite (signbit_ge b Hb), expo_div, frac_mod.
  unfold u64 in Hb.
  pose proof (Z.div_mod b (2 ^ 52) ltac:(lia)) as H1.
  pose proof (Z.mod_pos_bound b (2 ^ 52) ltac:(lia)) as H2.
  assert (Hq : 0 <= b / 2 ^ 52 < 2 ^ 12).
  { split; [apply Z.div_pos; lia | apply Z.div_lt_upper_bound; lia]. }
  set (q := b / 2 ^ 52) in *.
  pose proof (Z.div_mod q (2 ^ 11) ltac:(lia)) as H3.
  pose proof (Z.mod_pos_bound q (2 ^ 11) ltac:(lia)) as H4.
  assert (Hs : 0 <= q / 2 ^ 11 < 2).
  { split; [apply Z.div_pos; lia | apply Z.div_lt_upper_bound; lia]. }
  destruct (Z.leb_spec (2 ^ 63) b); lia.
Qed.

Lemma decode_cases (b : Z) :
  u64 b ->
  (expo b = 0x7FF /\ ((frac b = 0 /\ decode b = S754_infinity (signbit b)) \/
                      (frac b <> 0 /\ decode b = S754_nan)))
  \/ (expo b = 0 /\ frac b = 0 /\ decode b = S754_zero (signbit b))
  \/ (expo b <> 0x7FF /\ 0 < mag b /\
      exists m, decode b = S754_finite (signbit b) m
                             (if expo b =? 0 then -1074 else expo b - 1075)
                /\ Zpos m = (if expo b =? 0 then frac b else frac b + 2 ^ 52)).
Proof.
  intros Hb. destruct (fields b Hb) as (_ & He & Hf).
  unfold decode, mag.
  destruct (Z.eqb_spec (expo b) 0x7FF) as [E|E].
  - left. split; [exact E|].
    destruct (Z.eqb_spec (frac b) 0); [left | right]; auto.
  - right. destruct (Z.eqb_spec (expo b) 0) as [E0|E0].
    + destruct (frac b) as [|m|m] eqn:F.
      * left. auto.
      * right. split; [exact E|]. split; [lia|]. exists m. auto.
      * lia.
    + right. split; [exact E|]. split; [lia|].
      destruct (frac b + 2 ^ 52) as [|m|m] eqn:F; try lia.
      exists m. auto.
Qed.

Lemma finite_nonzero_fields (b : Z) :
  u64 b -> finite_nonzero b ->
  expo b <> 0x7FF /\ 0 < mag b /\
  exists m, decode b = S754_finite (signbit b) m
                         (if expo b =? 0 then -1074 else expo b - 1075)
            /\ Zpos m = (if expo b =? 0 then frac b else frac b + 2 ^ 52).
Proof.
  intros Hb [Hfin Hnz].
  destruct (decode_cases b Hb) as [(_ & [(_ & D)|(_ & D)])|[(_ & _ & D)|H]];
    [exfalso .. | exact H];
    unfold isfinite, isnan, isinf, feq in *; rewrite D in *;
    discriminate.
Qed.

(** On finite non-zero patterns the codec is the classic order-preserving
    map: complement for negatives, set the top bit for positives. *)
Lemma ieee_key1_finite_nonzero (b : Z) :
  u64 b -> finite_nonzero b ->
  ieee_key1 b = if signbit b then 2 ^ 64 - 1 - b else b + 2 ^ 63.
Proof.
  intros Hb Hfn.
  destruct (finite_nonzero_fields b Hb Hfn) as (_ & _ & m & D & _).
  destruct Hfn as [_ Hnz].
  unfold ieee_key1, isneginf, isposinf, isnan. rewrite D, Hnz. cbn [andb].
  rewrite (land_MASK b Hb), (signbit_ge b Hb).
  destruct (Z.leb_spec (2 ^ 63) b) as [H|H].
  - change (2 ^ 63 =? 0) with false. cbn [negb].
    apply lnot64_sub; exact Hb.
  - change (0 =? 0) with true. cbn [negb].
    apply lor_MASK. unfold u64 in Hb. lia.
Qed.

(** Comparing canonical (exponent, mantissa) pairs is comparing magnitudes. *)
Lemma compare_mag (a b : Z) (ma mb : positive) :
  u64 a -> u64 b -> expo a <> 0x7FF -> expo b <> 0x7FF ->
  Zpos ma = (if expo a =? 0 then frac a else frac a + 2 ^ 52) ->
  Zpos mb = (if expo b =? 0 then frac b else frac b + 2 ^ 52) ->
  match (if expo a =? 0 then -1074 else expo a - 1075)
        ?= (if expo b =? 0 then -1074 else expo b - 1075) with
  | Lt => Lt
  | Gt => Gt
  | Eq => Pos.compare_cont Eq ma mb
  end = (mag a ?= mag b).
Proof.
  intros Ha Hb Ea Eb Hma Hmb.
  destruct (fields a Ha) as (_ & Hea & Hfa).
  destruct (fields b Hb) as (_ & Heb & Hfb).
  change (Pos.compare_cont Eq ma mb) with (Zpos ma ?= Zpos mb).
  rewrite Hma, Hmb. unfold mag.
  destruct (Z.eqb_spec (expo a) 0) as [A0|A0], (Z.eqb_spec (expo b) 0) as [B0|B0];
    repeat match goal with
           | |- context [?x ?= ?y] => destruct (Z.compare_spec x y)
           end; try reflexivity; try lia.
Qed.

Lemma pattern_sign_mag (b : Z) :
  u64 b -> b = (if signbit b then 2 ^ 63 else 0) + mag b /\ 0 <= mag b < 2 ^ 63.
Proof.
  intros Hb. destruct (fields b Hb) as (E & He & Hf). unfold mag. lia.
Qed.

Lemma finite_mag_bound (b : Z) : u64 b -> expo b <> 0x7FF -> mag b < 0x7FF * 2 ^ 52.
Proof.
  intros Hb E. destruct (fields b Hb) as (_ & He & Hf). unfold mag. lia.
Qed.

(** The IEEE comparison of two finite non-zero patterns, on sign and
    magnitude. *)
Lemma SFcompare_finite_nonzero (a b : Z) :
  u64 a -> u64 b -> finite_nonzero a -> finite_nonzero b ->
  SFcompare (decode a) (decode b)
  = Some (match signbit a, signbit b with
          | true, false => Lt
          | false, true => Gt
          | false, false => mag a ?= mag b
          | true, true => CompOpp (mag a ?= mag b)
          end).
Proof.
  intros Ha Hb Fa Fb.
  destruct (finite_nonzero_fields a Ha Fa) as (Ea & _ & ma & Da & Hma).
  destruct (finite_nonzero_fields b Hb Fb) as (Eb & _ & mb & Db & Hmb).
  rewrite Da, Db. unfold SFcompare.
  rewrite <- (compare_mag a b ma mb Ha Hb Ea Eb Hma Hmb).
  destruct (signbit a), (signbit b); try reflexivity.
  destruct (_ ?= _); reflexivity.
Qed.

(** ** Properties of the key codec *)

(** C3 (as amended): on finite non-zero doubles the codec is strictly
    monotone in both directions: [a < b] in IEEE numeric order exactly when
    [encode a < encode b].  The two zeros are excluded: they are sent to
    sentinel keys above every other finite key. *)
Theorem ieee_key_monotone_finite_nonzero (a b : double) :
  u64 a -> u64 b -> finite_nonzero a -> finite_nonzero b ->
  (flt a b = true <-> ieee_key1 a < ieee_key1 b).
Proof.
  intros Ha Hb Fa Fb. unfold flt, SFltb.
  rewrite (SFcompare_finite_nonzero a b Ha Hb Fa Fb).
  rewrite (ieee_key1_finite_nonzero a Ha Fa), (ieee_key1_finite_nonzero b Hb Fb).
  destruct (pattern_sign_mag a Ha) as [Pa Ma], (pattern_sign_mag b Hb) as [Pb Mb].
  destruct (signbit a), (signbit b);
    try destruct (Z.compare_spec (mag a) (mag b)); cbn [CompOpp];
    split; intros Hlt; try discriminate Hlt; try reflexivity; lia.
Qed.

Lemma ieee_key_monotone_witness :
  (flt one two = true <-> ieee_key1 one < ieee_key1 two).
Proof.
  apply (ieee_key_monotone_finite_nonzero one two).
  - unfold u64, one. lia.
  - unfold u64, two. lia.
  - split; reflexivity.
  - split; reflexivity.
Defined.

(** C3 as stated fails at a zero: [+0.0 < 1.0], yet the key of [+0.0] is
    the sentinel [K_POS0], above the key of [1.0]. *)
Lemma ieee_key_zero_not_monotone :
  isfinite pos_zero = true /\ isfinite one = true /\
  flt pos_zero one = true /\ (ieee_key1 pos_zero <? ieee_key1 one) = false.
Proof. repeat split; vm_compute; reflexivity. Qed.

(** C5: [-0.0] and [+0.0] are encoded as [K_NEG0 < K_POS0]; both are above
    the key of every finite value other than the zeros themselves, and the
    key of a finite non-zero [x] lies in [[0, SENT)], so it is none of the
    five sentinel keys. *)
Theorem ieee_key_zeros_above_finite_range (x : double) :
  u64 x -> finite_nonzero x ->
  ieee_key1 neg_zero = K_NEG0 /\ ieee_key1 pos_zero = K_POS0 /\
  K_NEG0 < K_POS0 /\
  ieee_key1 x < K_NEG0 /\ ieee_key1 x < K_POS0 /\
  0 <= ieee_key1 x < SENT /\ ~ In (ieee_key1 x) sentinels.
Proof.
  intros Hx Fx.
  destruct (finite_nonzero_fields x Hx Fx) as (Ex & Hpos & _).
  pose proof (finite_mag_bound x Hx Ex) as Hm.
  destruct (pattern_sign_mag x Hx) as [Px Mx].
  rewrite (ieee_key1_finite_nonzero x Hx Fx).
  assert (R : 0 <= (if signbit x then 2 ^ 64 - 1 - x else x + 2 ^ 63) < SENT).
  { unfold SENT. destruct (signbit x); lia. }
  repeat split; try reflexivity; try (unfold K_NEG0, K_POS0; lia).
  unfold sentinels, K_NEGINF, K_POSINF, K_NEG0, K_POS0, K_NAN.
  cbn [In]. lia.
Qed.

Lemma ieee_key_zeros_witness :
  ieee_key1 neg_zero = K_NEG0 /\ ieee_key1 pos_zero = K_POS0 /\
  K_NEG0 < K_POS0 /\
  ieee_key1 one < K_NEG0 /\ ieee_key1 one < K_POS0 /\
  0 <= ieee_key1 one < SENT /\ ~ In (ieee_key1 one) sentinels.
Proof.
  apply (ieee_key_zeros_above_finite_range one).
  - unfold u64, one. lia.
  - split; reflexivity.
Defined.

(** ** The constructor *)

(** C7: the constructor raises a configuration error exactly when
    [epsilon * pi >= 1] or determinism is required without a seed; and when
    it raises, it has not touched the file system (no working directory was
    made). *)
Theorem init_config_error_iff (auto : Z) (c : Config.t) :
  ((exists e, snd (XiSort_init auto c) = inl e /\ is_config_error e = true)
   <-> (SFleb sf_one (fmul (Config.epsilon c) np_pi) = true
        \/ (Config.require_deterministic c = true /\ Config.seed c = None)))
  /\ (forall e, snd (XiSort_init auto c) = inl e -> fst (XiSort_init auto c) = []).
Proof.
  unfold XiSort_init.
  destruct (SFleb sf_one (fmul (Config.epsilon c) np_pi)) eqn:E.
  { split; [split|]; cbn [fst snd].
    - intros _. left. reflexivity.
    - intros _. exists ValueError_epsilon. split; reflexivity.
    - reflexivity. }
  destruct (Config.require_deterministic c) eqn:D, (Config.seed c) as [sd|] eqn:S;
    cbn [andb negb is_some fst snd].
  2: { split; [split|].
       - intros _. right. split; reflexivity.
       - intros _. exists ValueError_seed. split; reflexivity.
       - reflexivity. }
  all: destruct (py_int (fmul (Config.max_gb c) gib)) as [e|mx] eqn:P;
    cbn [fst snd]; (split; [split|]).
  all: try (intros [H|[H1 H2]]; congruence).
  all: try (intros; first [reflexivity | congruence]).
  all: intros (e' & He & Hc); inversion He; subst;
    unfold py_int in P; destruct (fmul (Config.max_gb c) gib);
    inversion P; subst; cbn in Hc; discriminate Hc.
Qed.

(** ** The metric transform *)

(** C6 (as amended): in CURVED mode the transform returns
    [n + eps * cos(pi * n)] in both cases; when [span <= tiny] the
    normalised array [n] is all zeros, so every position holds
    [0 + eps * cos(pi * 0)] (which is [eps], not zero); otherwise
    [n = (a - lo) / span]. *)
Theorem metric_curved_cases (L : Lib) (eps : spec_float) (a : list double) :
  let lo := np_min (map decode a) in
  let span := fsub (np_max (map decode a)) lo in
  _metric L CURVED eps a =
  if SFleb span tiny
  then repeat (encode (fadd sf_zero (fmul eps (np_cos L (fmul np_pi sf_zero)))))
              (length a)
  else map (fun x => let n := fdiv (fsub (decode x) lo) span in
                     encode (fadd n (fmul eps (np_cos L (fmul np_pi n))))) a.
Proof.
  intros lo span. unfold _metric, curved. fold lo. fold span.
  destruct (SFleb span tiny).
  - rewrite !map_map. clear. induction a as [|x a IH]; cbn [map length repeat].
    + reflexivity.
    + rewrite IH. reflexivity.
  - rewrite !map_map. reflexivity.
Qed.

(** C6 as stated fails: on [[1.0, 1.0]] the span is [0 <= tiny], and the
    transform returns [[0.01, 0.01]] for [eps = 0.01], not zeros. *)
Lemma metric_curved_degenerate_not_zero :
  SFleb (fsub (np_max (map decode [one; one])) (np_min (map decode [one; one]))) tiny
  = true
  /\ _metric demo_lib CURVED eps_default [one; one]
     = [encode eps_default; encode eps_default]
  /\ encode eps_default <> pos_zero.
Proof.
  split; [|split].
  - vm_compute. reflexivity.
  - vm_compute. reflexivity.
  - vm_compute. discriminate.
Qed.

(** ** Runs on concrete inputs *)

(** C1 fails on the code: with the default sorter, the input [[1.0, 0.0]]
    comes out as [[1.0, 0.0]]: the zero follows the larger value, because
    zeros are keyed by sentinels above every finite key. *)
Lemma stream_sort_zero_after_positive :
  let r := stream_sort demo_lib 0 (sorter_of 0 default_config) fresh_world
             [one; pos_zero] default_chunk_size in
  snd r = Finished /\ out (fst r) = [one; pos_zero]
  /\ isfinite one = true /\ isfinite pos_zero = true
  /\ flt pos_zero one = true /\ fle one pos_zero = false.
Proof. vm_compute. repeat split; reflexivity. Qed.

(** C9 fails on the code: with a quota of 60 bytes, chunk size 2 and input
    [[1.0, nan, 2.0, 2.0]], the second chunk file exceeds the quota; the
    [finally] block then removes a file, charges the budget with its
    negative size, and [_budget] raises again, out of the cleanup.  The
    file that broke the quota, the tail file and the directory stay behind.
    The order in which the set of paths is visited does not matter. *)
Lemma stream_sort_cleanup_raises :
  let s := sorter_of 0 config_60_bytes in
  let r1 := stream_sort demo_lib 0 s fresh_world [one; qnan; two; two] 2 in
  let r2 := stream_sort demo_lib_rev 0 s fresh_world [one; qnan; two; two] 2 in
  XiSort.max s = 60
  /\ snd r1 = RaisedInCleanup MemoryError_quota
  /\ snd r2 = RaisedInCleanup MemoryError_quota
  /\ wd_exists (world (fst r1)) = true /\ wd_exists (world (fst r2)) = true
  /\ fs_exists (world (fst r1)) (Chunk 1) = true
  /\ fs_exists (world (fst r1)) TailTmp = true
  /\ fs_exists (world (fst r2)) (Chunk 1) = true
  /\ fs_exists (world (fst r2)) (Chunk 0) = true.
Proof. vm_compute. repeat split; reflexivity. Qed.

(** C8 as stated fails: with a quota of 0 bytes the first chunk file (48
    bytes) is written before the budget is charged; the bytes are on disk
    when [MemoryError] is raised (and the file stays: it was not yet in
    [chunks]). *)
Lemma stream_sort_quota_exceeded_on_disk :
  let s := sorter_of 0 config_no_quota in
  let r := stream_sort demo_lib 0 s fresh_world [one] default_chunk_size in
  XiSort.max s = 0 /\ snd r = Raised MemoryError_quota
  /\ log (fst r) = [48] /\ fs_bytes (world (fst r)) = 48.
Proof. vm_compute. repeat split; reflexivity. Qed.

(** ** The order on records *)

Ltac rank_side H :=
  first [ reflexivity | discriminate H | lia | congruence
        | solve [inversion H; lia] | solve [exfalso; lia] ].

Ltac rank_case :=
  eexists; (split; [reflexivity|]); cbv beta iota zeta;
  split; split; (let Hx := fresh "Hx" in intros Hx; rank_side Hx).

Lemma SFcompare_rank (f g : spec_float) :
  f <> S754_nan -> g <> S754_nan ->
  exists c, SFcompare f g = Some c
            /\ (c = Lt <-> lex3_lt (sf_rank f) (sf_rank g))
            /\ (c = Eq <-> sf_rank f = sf_rank g).
Proof.
  intros Hf Hg.
  destruct f as [sf| sf | | sf mf ef], g as [sg | sg | | sg mg eg];
    try congruence; unfold SFcompare, sf_rank, lex3_lt.
  1-8: try destruct sf; try destruct sg; rank_case.
  change (Pos.compare_cont Eq mf mg) with (Zpos mf ?= Zpos mg).
  destruct sf, sg;
    destruct (Z.compare_spec ef eg); destruct (Z.compare_spec (Zpos mf) (Zpos mg));
    cbn [CompOpp]; rank_case.
Qed.

Lemma tie_ltb_rank (tb : TieBreak) (a b : tieval) :
  tie_wf tb a -> tie_wf tb b ->
  (tie_ltb a b = true <-> lex3_lt (tie_rank a) (tie_rank b))
  /\ (tie_eqb a b = true <-> tie_rank a = tie_rank b).
Proof.
  intros Ha Hb.
  destruct a as [x|f], b as [y|g]; try (destruct tb; contradiction).
  - cbn. rewrite Z.ltb_lt, Z.eqb_eq. split; split; intros H; try lia.
    + congruence.
    + inversion H; reflexivity.
  - assert (Hf : f <> S754_nan) by (destruct tb; try contradiction; exact Ha).
    assert (Hg : g <> S754_nan) by (destruct tb; try contradiction; exact Hb).
    destruct (SFcompare_rank f g Hf Hg) as (c & Hc & Hlt & Heq).
    cbn [tie_ltb tie_eqb tie_rank]. unfold SFltb, SFeqb. rewrite Hc.
    rewrite <- Hlt, <- Heq.
    destruct c; split; split; intros H; congruence.
Qed.

Lemma rec_ltb_rk (tb : TieBreak) (a b : rec) :
  tie_wf tb (tie a) -> tie_wf tb (tie b) ->
  (rec_ltb a b = true <-> rk_lt a b).
Proof.
  intros Ha Hb. destruct (tie_ltb_rank tb _ _ Ha Hb) as [Hlt Heq].
  unfold rec_ltb, rk_lt.
  destruct (Z.eqb_spec (key a) (key b)) as [K|K].
  - destruct (tie_eqb (tie a) (tie b)) eqn:E.
    + assert (Hr : tie_rank (tie a) = tie_rank (tie b)) by (apply Heq; reflexivity).
      rewrite Z.ltb_lt. split.
      * intros H. right. split; [exact K|]. right. split; [exact Hr | exact H].
      * intros [H|[_ [H|[_ H]]]]; try lia.
        rewrite Hr in H. unfold lex3_lt in H.
        destruct (tie_rank (tie b)) as [[? ?] ?]. lia.
    + rewrite Hlt. split.
      * intros H. right. split; [exact K|]. left. exact H.
      * intros [H|[_ [H|[H _]]]]; try lia; try exact H.
        apply Heq in H. congruence.
  - rewrite Z.ltb_lt. split.
    + intros H. left. exact H.
    + intros [H|[H _]]; [exact H | contradiction].
Qed.

Lemma rec_lex_le_rk (tb : TieBreak) (a b : rec) :
  tie_wf tb (tie a) -> tie_wf tb (tie b) ->
  (rec_lex_le a b <-> rk_le a b).
Proof.
  intros Ha Hb. destruct (tie_ltb_rank tb _ _ Ha Hb) as [Hlt Heq].
  unfold rec_lex_le, rk_le. rewrite Hlt, Heq. reflexivity.
Qed.

Lemma rk_le_trans (a b c : rec) : rk_le a b -> rk_le b c -> rk_le a c.
Proof.
  unfold rk_le, lex3_lt.
  destruct (tie_rank (tie a)) as [[a1 a2] a3], (tie_rank (tie b)) as [[b1 b2] b3],
    (tie_rank (tie c)) as [[c1 c2] c3].
  intros H1 H2.
  assert (E : forall x y z u v w : Z, (x, y, z) = (u, v, w) <-> x = u /\ y = v /\ z = w).
  { intros. split; [intros H; inversion H; auto | intros (-> & -> & ->); reflexivity]. }
  rewrite !E in *. lia.
Qed.

Lemma rk_not_lt_le (a b : rec) : ~ rk_lt a b -> rk_le b a.
Proof.
  unfold rk_lt, rk_le, lex3_lt.
  destruct (tie_rank (tie a)) as [[a1 a2] a3], (tie_rank (tie b)) as [[b1 b2] b3].
  intros H.
  assert (E : forall x y z u v w : Z, (x, y, z) = (u, v, w) <-> x = u /\ y = v /\ z = w).
  { intros. split; [intros H'; inversion H'; auto | intros (-> & -> & ->); reflexivity]. }
  rewrite !E in *. lia.
Qed.

Lemma rk_lt_le (a b : rec) : rk_lt a b -> rk_le a b.
Proof.
  unfold rk_lt, rk_le. intros [H|[K [H|[H1 H2]]]]; [left | right | right]; auto.
  - split; [exact K|]. right. split; [exact H1 | lia].
Qed.

Lemma rk_le_refl (a : rec) : rk_le a a.
Proof. unfold rk_le. right. split; [reflexivity|]. right. split; [reflexivity | lia]. Qed.

(** ** In-memory sort *)

Lemma insert_rec_perm (x : rec) (l : list rec) : Permutation (insert_rec x l) (x :: l).
Proof.
  induction l as [|y l IH]; cbn [insert_rec].
  - reflexivity.
  - destruct (rec_ltb x y).
    + reflexivity.
    + rewrite IH. apply perm_swap.
Qed.

Lemma np_sort_perm (l : list rec) : Permutation (np_sort l) l.
Proof.
  induction l as [|x l IH]; cbn [np_sort].
  - reflexivity.
  - rewrite insert_rec_perm. constructor. exact IH.
Qed.

Lemma insert_rec_sorted (tb : TieBreak) (x : rec) (l : list rec) :
  wf_rec tb x -> sorted_wf tb l -> sorted_wf tb (insert_rec x l).
Proof.
  intros Hx [Hs Hw]. split.
  2: { eapply Permutation_Forall; [symmetry; apply insert_rec_perm|].
       constructor; assumption. }
  induction l as [|y l IH]; cbn [insert_rec].
  - constructor; constructor.
  - inversion Hs as [|? ? Hs' Hy]; subst. inversion Hw as [|? ? Wy Wl]; subst.
    destruct (rec_ltb x y) eqn:E.
    + apply (rec_ltb_rk tb x y Hx Wy) in E. apply rk_lt_le in E.
      constructor; [constructor; assumption|].
      constructor; [exact E|].
      eapply Forall_impl; [|exact Hy]. intros z Hz. eapply rk_le_trans; eassumption.
    + assert (Hyx : rk_le y x).
      { apply rk_not_lt_le. intros H. apply (rec_ltb_rk tb x y Hx Wy) in H. congruence. }
      constructor; [apply IH; assumption|].
      eapply Permutation_Forall; [symmetry; apply insert_rec_perm|].
      constructor; assumption.
Qed.

Lemma np_sort_sorted (tb : TieBreak) (l : list rec) :
  Forall (wf_rec tb) l -> sorted_wf tb (np_sort l).
Proof.
  induction l as [|x l IH]; intros Hw; cbn [np_sort].
  - split; constructor.
  - inversion Hw; subst. apply insert_rec_sorted; auto.
Qed.

(** ** k-way merge *)

Lemma pick_none (ss : list stream) : pick ss = None -> concat (map fst ss) = [].
Proof.
  induction ss as [|[[|x xs] e] ss IH]; cbn [pick map concat fst]; intros H.
  - reflexivity.
  - destruct (pick ss) as [[m rest]|]; [discriminate | auto].
  - destruct (pick ss) as [[m rest]|]; [|discriminate].
    destruct (rec_ltb m x); discriminate.
Qed.

Lemma pick_perm (ss : list stream) (m : rec) (rest : list stream) :
  pick ss = Some (m, rest) ->
  Permutation (concat (map fst ss)) (m :: concat (map fst rest)).
Proof.
  revert m rest.
  induction ss as [|[[|x xs] e] ss IH]; cbn [pick map concat fst]; intros m rest H.
  - discriminate.
  - destruct (pick ss) as [[m' rest']|] eqn:P; [|discriminate].
    inversion H; subst. cbn [map concat fst app]. apply IH. reflexivity.
  - destruct (pick ss) as [[m' rest']|] eqn:P.
    + destruct (rec_ltb m' x); inversion H; subst; cbn [map concat fst].
      * rewrite (IH m rest' eq_refl).
        symmetry. apply (Permutation_middle (x :: xs) (concat (map fst rest')) m).
      * reflexivity.
    + inversion H; subst. reflexivity.
Qed.

Lemma pick_min (tb : TieBreak) (ss : list stream) (m : rec) (rest : list stream) :
  pick ss = Some (m, rest) -> streams_ok tb ss ->
  streams_ok tb rest /\ Forall (rk_le m) (concat (map fst ss)).
Proof.
  revert m rest.
  induction ss as [|[[|x xs] e] ss IH]; cbn [pick map concat fst]; intros m rest H Hok.
  - discriminate.
  - inversion Hok as [|? ? H1 H2]; subst.
    destruct (pick ss) as [[m' rest']|] eqn:P; [|discriminate].
    inversion H; subst. destruct (IH m rest' eq_refl H2) as [R1 R2].
    split; [constructor; assumption | exact R2].
  - inversion Hok as [|? ? H1 H2]; subst. cbn [fst] in H1. destruct H1 as [Hs Hw].
    inversion Hs as [|? ? Hs' Hx]; subst. inversion Hw as [|? ? Wx Wxs]; subst.
    assert (Hxall : Forall (rk_le x) (x :: xs)).
    { constructor; [apply rk_le_refl | exact Hx]. }
    destruct (pick ss) as [[m' rest']|] eqn:P.
    + destruct (IH m' rest' eq_refl H2) as [R1 R2].
      assert (Wm : wf_rec tb m').
      { assert (Hall : Forall (wf_rec tb) (concat (map fst ss))).
        { clear - H2. induction H2 as [|s ss [_ Hw] _ IH']; cbn [map concat].
          - constructor.
          - apply Forall_app. split; assumption. }
        eapply Permutation_Forall in Hall; [|apply pick_perm; exact P].
        inversion Hall; assumption. }
      destruct (rec_ltb m' x) eqn:E; inversion H; subst.
      * apply (rec_ltb_rk tb m x Wm Wx) in E. apply rk_lt_le in E.
        split.
        -- constructor; [split; assumption | exact R1].
        -- apply Forall_app. split; [|exact R2].
           eapply Forall_impl; [|exact Hxall]. intros z Hz.
           eapply rk_le_trans; eassumption.
      * assert (Hxm : rk_le m m').
        { apply rk_not_lt_le. intros Hlt.
          apply (rec_ltb_rk tb m' m Wm Wx) in Hlt. congruence. }
        split.
        -- constructor; [split; assumption | exact H2].
        -- apply Forall_app. split; [exact Hxall|].
           eapply Forall_impl; [|exact R2]. intros z Hz.
           eapply rk_le_trans; eassumption.
    + inversion H; subst. split.
      * constructor; [split; assumption | exact H2].
      * rewrite (pick_none ss P), app_nil_r. exact Hxall.
Qed.

Lemma merge_loop_perm (n : nat) (ss : list stream) (out : list rec) (err : option exn) :
  merge_loop n ss = (out, err) ->
  exists rem, Permutation (concat (map fst ss)) (out ++ rem)
              /\ (err = None -> (length (concat (map fst ss)) <= n)%nat -> rem = []).
Proof.
  revert ss out err. induction n as [|n IH]; intros ss out err H; cbn [merge_loop] in H.
  - inversion H; subst. exists (concat (map fst ss)). split; [reflexivity|].
    intros _ Hl. destruct (concat (map fst ss)); [reflexivity | cbn in Hl; lia].
  - destruct (pick ss) as [[m rest]|] eqn:P.
    + pose proof (pick_perm ss m rest P) as Pm.
      destruct (first_error rest) as [e|] eqn:F.
      * inversion H; subst. exists (concat (map fst rest)). split; [exact Pm|].
        intros Hn; discriminate Hn.
      * destruct (merge_loop n rest) as [out' e'] eqn:M. inversion H; subst.
        destruct (IH rest out' err M) as (rem & Hp & Hr).
        exists rem. split.
        -- rewrite Pm. cbn [app]. constructor. exact Hp.
        -- intros He Hl. apply Hr; [exact He|].
           apply Permutation_length in Pm. cbn [length] in Pm. lia.
    + inversion H; subst. exists []. split; [|auto].
      rewrite (pick_none ss P). reflexivity.
Qed.

Lemma merge_loop_sorted (tb : TieBreak) (n : nat) (ss : list stream)
    (out : list rec) (err : option exn) :
  merge_loop n ss = (out, err) -> streams_ok tb ss ->
  StronglySorted rk_le out.
Proof.
  revert ss out err. induction n as [|n IH]; intros ss out err H Hok; cbn [merge_loop] in H.
  - inversion H; subst. constructor.
  - destruct (pick ss) as [[m rest]|] eqn:P.
    + destruct (pick_min tb ss m rest P Hok) as [Hrest Hmin].
      pose proof (pick_perm ss m rest P) as Pm.
      destruct (first_error rest) as [e|] eqn:F.
      * inversion H; subst. constructor; constructor.
      * destruct (merge_loop n rest) as [out' e'] eqn:M. inversion H; subst.
        constructor; [eapply IH; eassumption|].
        destruct (merge_loop_perm n rest out' err M) as (rem & Hp & _).
        eapply Permutation_Forall in Hmin; [|exact Pm].
        inversion Hmin as [|? ? _ Hm']; subst.
        eapply Permutation_Forall in Hm'; [|exact Hp].
        apply Forall_app in Hm'. tauto.
    + inversion H; subst. constructor.
Qed.

Lemma heapq_merge_sorted (tb : TieBreak) (ss : list stream)
    (out : list rec) (err : option exn) :
  heapq_merge ss = (out, err) -> streams_ok tb ss -> StronglySorted rk_le out.
Proof.
  unfold heapq_merge. destruct (first_error ss).
  - intros H _. inversion H; subst. constructor.
  - apply merge_loop_sorted.
Qed.

Lemma heapq_merge_prefix (ss : list stream) (out : list rec) (err : option exn) :
  heapq_merge ss = (out, err) ->
  exists rem, Permutation (concat (map fst ss)) (out ++ rem)
              /\ (err = None -> rem = []).
Proof.
  unfold heapq_merge. destruct (first_error ss) as [e|].
  - intros H. inversion H; subst. exists (concat (map fst ss)).
    split; [reflexivity | discriminate].
  - intros H. destruct (merge_loop_perm _ _ _ _ H) as (rem & Hp & Hr).
    exists rem. split; [exact Hp|]. intros He. apply Hr; [exact He | lia].
Qed.

(** ** The ties the writer builds are never NaN *)

Lemma iter_pos_inv {A} (P : A -> Prop) (f : A -> A) :
  (forall x, P x -> P (f x)) -> forall p x, P x -> P (iter_pos f p x).
Proof.
  intros Hf. induction p as [p IH|p IH|]; intros x Hx; cbn [iter_pos]; auto.
Qed.

Lemma shr_1_nonneg (mrs : shr_record) : 0 <= shr_m mrs -> 0 <= shr_m (shr_1 mrs).
Proof.
  destruct mrs as [m r s]. cbn [shr_m shr_1].
  destruct m as [|[p|p|]|[p|p|]]; cbn [shr_m]; lia.
Qed.

Lemma shr_fexp_nonneg (m e : Z) (l : location) :
  0 <= m -> 0 <= shr_m (fst (shr_fexp prec emax m e l)).
Proof.
  intros Hm. unfold shr_fexp, shr.
  assert (H0 : 0 <= shr_m (shr_record_of_loc m l)).
  { destruct l as [|[| |]]; cbn [shr_record_of_loc shr_m]; exact Hm. }
  destruct (fexp prec emax (Zdigits2 m + e) - e) as [|p|p]; cbn [fst]; try exact H0.
  apply (iter_pos_inv (fun x => 0 <= shr_m x)); [apply shr_1_nonneg | exact H0].
Qed.

Lemma round_nearest_even_nonneg (m : Z) (l : location) :
  0 <= m -> 0 <= round_nearest_even m l.
Proof.
  intros Hm. unfold round_nearest_even.
  destruct l as [|[| |]]; try destruct (Z.even m); lia.
Qed.

Lemma binary_round_aux_not_nan (sx : bool) (mx ex : Z) (lx : location) :
  0 <= mx -> binary_round_aux prec emax sx mx ex lx <> S754_nan.
Proof.
  intros Hm. unfold binary_round_aux.
  pose proof (shr_fexp_nonneg mx ex lx Hm) as H1.
  destruct (shr_fexp prec emax mx ex lx) as [mrs' e'].
  cbn [fst] in H1.
  pose proof (shr_fexp_nonneg _ e' loc_Exact
                (round_nearest_even_nonneg _ (loc_of_shr_record mrs') H1)) as H2.
  destruct (shr_fexp prec emax _ e' loc_Exact) as [mrs'' e''].
  cbn [fst] in H2.
  destruct (shr_m mrs'') as [|p|p]; try discriminate; try lia.
  destruct (e'' <=? emax - prec); discriminate.
Qed.

Lemma of_u64_not_nan (n : Z) : of_u64 n <> S754_nan.
Proof.
  unfold of_u64, binary_normalize, binary_round.
  destruct n as [|p|p]; try discriminate.
  - destruct (shl_align p 0 _) as [mz ez]. apply binary_round_aux_not_nan. lia.
  - destruct (shl_align p 0 _) as [mz ez]. apply binary_round_aux_not_nan. lia.
Qed.

Lemma rand_elem_not_nan (raw : Z) : fmul (of_u64 (Z.shiftr raw 11)) Rng.two_m53 <> S754_nan.
Proof.
  pose proof (of_u64_not_nan (Z.shiftr raw 11)) as H.
  unfold fmul, SFmul, Rng.two_m53.
  destruct (of_u64 (Z.shiftr raw 11)) as [s|s| |s m e]; try discriminate; try congruence.
  apply binary_round_aux_not_nan. lia.
Qed.

Lemma rand_not_nan (n : nat) (st : Rng.state) :
  Forall (fun f => f <> S754_nan) (fst (Rng.rand n st))
  /\ length (fst (Rng.rand n st)) = n.
Proof.
  revert st. induction n as [|n IH]; intros st; cbn [Rng.rand].
  - split; [constructor | reflexivity].
  - destruct (Rng._next st) as [raw st1]. specialize (IH st1).
    destruct (Rng.rand n st1) as [rest st2]. cbn [fst] in *.
    destruct IH as [IH1 IH2]. split.
    + constructor; [apply rand_elem_not_nan | exact IH1].
    + cbn [length]. rewrite IH2. reflexivity.
Qed.

Lemma index_ties_wf (n : nat) (s : Z) :
  Forall (tie_wf INDEX) (index_ties n s) /\ length (index_ties n s) = n.
Proof.
  revert s. induction n as [|n IH]; intros s; cbn [index_ties].
  - split; [constructor | reflexivity].
  - destruct (IH (s + 1)) as [IH1 IH2]. split.
    + constructor; [apply of_u64_not_nan | exact IH1].
    + cbn [length]. rewrite IH2. reflexivity.
Qed.

(** ** The shuffle permutes *)

Lemma list_set_length {A} (l : list A) (i : nat) (x : A) :
  length (Rng.list_set l i x) = length l.
Proof.
  revert i. induction l as [|y l IH]; intros [|i]; cbn [Rng.list_set length]; auto.
Qed.

Lemma nth_list_set (l : list Z) (i j : nat) (x d : Z) :
  (i < length l)%nat ->
  nth j (Rng.list_set l i x) d = if (i =? j)%nat then x else nth j l d.
Proof.
  revert i j. induction l as [|y l IH]; intros i j Hi; cbn [length] in Hi; [lia|].
  destruct i as [|i], j as [|j]; cbn [Rng.list_set nth Nat.eqb]; try reflexivity.
  apply IH. lia.
Qed.

Lemma count_occ_list_set (l : list Z) (i : nat) (x y : Z) :
  (i < length l)%nat ->
  (count_occ Z.eq_dec (Rng.list_set l i x) y
   + (if Z.eq_dec (nth i l 0%Z) y then 1 else 0)
   = count_occ Z.eq_dec l y + (if Z.eq_dec x y then 1 else 0))%nat.
Proof.
  revert i. induction l as [|z l IH]; intros i Hi; cbn [length] in Hi; [lia|].
  destruct i as [|i]; cbn [Rng.list_set nth count_occ].
  - destruct (Z.eq_dec x y), (Z.eq_dec z y); lia.
  - specialize (IH i ltac:(lia)). destruct (Z.eq_dec z y); lia.
Qed.

Lemma swap_perm (a : list Z) (i j : nat) :
  (i < length a)%nat -> (j < length a)%nat -> Permutation (Rng.swap a i j) a.
Proof.
  intros Hi Hj. unfold Rng.swap.
  apply (Permutation_count_occ Z.eq_dec). intros y.
  pose proof (count_occ_list_set a i (nth j a 0) y Hi) as H1.
  pose proof (count_occ_list_set (Rng.list_set a i (nth j a 0)) j (nth i a 0) y
                ltac:(rewrite list_set_length; exact Hj)) as H2.
  rewrite (nth_list_set a i j (nth j a 0) 0 Hi) in H2.
  assert (E : (if (i =? j)%nat then nth j a 0 else nth j a 0) = nth j a 0)
    by (destruct (i =? j)%nat; reflexivity).
  rewrite E in H2.
  destruct (Z.eq_dec (nth i a 0) y), (Z.eq_dec (nth j a 0) y); lia.
Qed.

Lemma draw_below_range (fuel : nat) (lim : Z) (st : Rng.state) (j : Z) (st' : Rng.state) :
  0 < lim -> Rng.draw_below fuel lim st = Some (j, st') -> 0 <= j < lim.
Proof.
  intros Hl. revert st. induction fuel as [|fuel IH]; intros st H; cbn [Rng.draw_below] in H.
  - discriminate.
  - destruct (Rng._next st) as [r st1].
    destruct (r <? 2 ^ 64 / lim * lim).
    + inversion H; subst. apply Z.mod_pos_bound. exact Hl.
    + eapply IH; eassumption.
Qed.

Lemma shuffle_from_perm (fuel i : nat) (a : list Z) (st : Rng.state)
    (a' : list Z) (st' : Rng.state) :
  (i < length a)%nat ->
  Rng.shuffle_from fuel i a st = Some (a', st') -> Permutation a' a.
Proof.
  revert a st. induction i as [|i IH]; intros a st Hi H; cbn [Rng.shuffle_from] in H.
  - inversion H; subst. reflexivity.
  - destruct (Rng.draw_below fuel (Z.of_nat (S i) + 1) st) as [[j st1]|] eqn:D;
      [|discriminate].
    assert (Hl : 0 < Z.of_nat (S i) + 1) by lia.
    pose proof (draw_below_range _ _ _ _ _ Hl D) as Hj.
    assert (Hj' : (Z.to_nat j < length a)%nat) by lia.
    apply IH in H.
    + rewrite H. apply swap_perm; [exact Hi | exact Hj'].
    + unfold Rng.swap. rewrite !list_set_length. lia.
Qed.

Lemma shuffle_perm (fuel : nat) (a : list Z) (st : Rng.state)
    (a' : list Z) (st' : Rng.state) :
  Rng.shuffle fuel a st = Some (a', st') -> Permutation a' a.
Proof.
  unfold Rng.shuffle. destruct a as [|x a].
  - cbn. intros H. inversion H; subst. reflexivity.
  - apply shuffle_from_perm. cbn [length]. lia.
Qed.

(** ** Lists *)

Lemma partition_perm {A} (f : A -> bool) (l : list A) :
  Permutation (filter (fun x => negb (f x)) l ++ filter f l) l.
Proof.
  induction l as [|x l IH]; cbn [filter].
  - reflexivity.
  - destruct (f x); cbn [negb app].
    + rewrite <- Permutation_middle. constructor. exact IH.
    + constructor. exact IH.
Qed.

Lemma read_chunks_concat (cs : nat) (it buf : list double) :
  concat (read_chunks cs it buf) = buf ++ it.
Proof.
  revert buf. induction it as [|x it IH]; intros buf; cbn [read_chunks].
  - destruct buf; cbn [concat]; rewrite ?app_nil_r; reflexivity.
  - destruct (length (buf ++ [x]) =? cs)%nat; cbn [concat].
    + rewrite IH, app_nil_l, <- app_assoc. reflexivity.
    + rewrite IH, <- app_assoc. reflexivity.
Qed.

Lemma zip_recs_val (vs : list double) (ks : list Z) (ts : list tieval) (s : Z) :
  length ks = length vs -> length ts = length vs ->
  map val (zip_recs vs ks ts s) = vs.
Proof.
  revert ks ts s. induction vs as [|v vs IH]; intros [|k ks] [|t ts] s Hk Ht;
    cbn [length] in *; try discriminate; cbn [zip_recs map val]; try reflexivity.
  rewrite IH by lia. reflexivity.
Qed.

Lemma zip_recs_wf (tb : TieBreak) (vs : list double) (ks : list Z) (ts : list tieval) (s : Z) :
  Forall (tie_wf tb) ts -> Forall (wf_rec tb) (zip_recs vs ks ts s).
Proof.
  intros Hts. revert vs ks s.
  induction Hts as [|t ts Ht _ IH]; intros [|v vs] [|k ks] s; cbn [zip_recs];
    try constructor.
  - exact Ht.
  - apply IH.
Qed.

Lemma metric_length (L : Lib) (m : Mode) (eps : spec_float) (a : list double) :
  length (_metric L m eps a) = length a.
Proof.
  destruct m; cbn [_metric]; [reflexivity|].
  unfold curved. rewrite !length_map.
  destruct (SFleb _ tiny); rewrite !length_map; reflexivity.
Qed.

Lemma chunk_lookup_remove_ne (i j : Z) (l : list (Z * (list rec * (Z * Z)))) :
  i <> j -> chunk_lookup i (chunk_remove j l) = chunk_lookup i l.
Proof.
  intros Hne. induction l as [|[k c] l IH]; cbn [chunk_remove filter chunk_lookup fst].
  - reflexivity.
  - destruct (Z.eqb_spec j k) as [E|E]; cbn [negb].
    + subst k. destruct (Z.eqb_spec i j); [contradiction | exact IH].
    + cbn [chunk_lookup]. destruct (i =? k); [reflexivity | exact IH].
Qed.

(** ** Reasoning about runs *)

Lemma bind_ok {A B} (m : M A) (k : A -> M B) (st st' : St) (b : B) :
  bind m k st = (st', inr b) ->
  exists st1 a, m st = (st1, inr a) /\ k a st1 = (st', inr b).
Proof.
  unfold bind. destruct (m st) as [st1 [e|a]]; intros H.
  - discriminate.
  - exists st1, a. auto.
Qed.

Lemma bind_cases {A B} (m : M A) (k : A -> M B) (st st' : St) (r : abort + B) :
  bind m k st = (st', r) ->
  (exists e, m st = (st', inl e) /\ r = inl e)
  \/ (exists st1 a, m st = (st1, inr a) /\ k a st1 = (st', r)).
Proof.
  unfold bind. destruct (m st) as [st1 [e|a]]; intros H.
  - left. inversion H; subst. exists e. auto.
  - right. exists st1, a. auto.
Qed.

Lemma ret_ok {A} (a x : A) (st st' : St) : ret a st = (st', inr x) -> st' = st /\ x = a.
Proof. unfold ret. intros H. inversion H. auto. Qed.

Lemma get_ok (st st' x : St) : get st = (st', inr x) -> st' = st /\ x = st.
Proof. unfold get. intros H. inversion H. auto. Qed.

Lemma modify_ok (f : St -> St) (st st' : St) (u : unit) :
  modify f st = (st', inr u) -> st' = f st.
Proof. unfold modify. intros H. inversion H. auto. Qed.

Lemma raise_ok {A} (e : exn) (st st' : St) (x : A) : raise e st = (st', inr x) -> False.
Proof. unfold raise. discriminate. Qed.

Lemma with_rng_ok {A} (f : Rng.state -> option (A * Rng.state)) (st st' : St) (a : A) :
  with_rng f st = (st', inr a) ->
  exists r, f (XiSort.rng (self st)) = Some (a, r)
            /\ st' = set_self st (XiSort.set_rng (self st) r).
Proof.
  unfold with_rng. destruct (f (XiSort.rng (self st))) as [[a' r]|]; intros H.
  - inversion H; subst. exists r. auto.
  - discriminate.
Qed.

Lemma budget_ok (d : Z) (st st' : St) (u : unit) :
  _budget d st = (st', inr u) ->
  st' = set_self st (XiSort.set_disk (self st) (Z.max (XiSort.disk (self st) + d) 0))
  /\ Z.max (XiSort.disk (self st) + d) 0 <= XiSort.max (self st).
Proof.
  unfold _budget.
  destruct (Z.gtb_spec (Z.max (XiSort.disk (self st) + d) 0) (XiSort.max (self st)));
    intros E; inversion E; subst.
  split; [reflexivity | lia].
Qed.

Lemma append_tail_tmp_ok (ws : list Z) (st st' : St) (u : unit) :
  append_tail_tmp ws st = (st', inr u) ->
  st' = set_world st (mkWorld true (chunk_files (world st))
                        (Some (tail_words (world st) ++ ws))
                        (tail_fin_file (world st))).
Proof.
  unfold append_tail_tmp, tail_words.
  destruct (wd_exists (world st)); cbn [negb]; intros H; inversion H. reflexivity.
Qed.

Lemma write_chunk_file_ok (i : Z) (recs : list rec) (tag : Z * Z) (st st' : St) (u : unit) :
  write_chunk_file i recs tag st = (st', inr u) ->
  st' = set_world st (mkWorld true ((i, (recs, tag)) :: chunk_remove i (chunk_files (world st)))
                        (tail_tmp_file (world st)) (tail_fin_file (world st))).
Proof.
  unfold write_chunk_file.
  destruct (wd_exists (world st)); cbn [negb]; intros H; inversion H. reflexivity.
Qed.

Lemma rename_tail_ok (st st' : St) (u : unit) :
  rename_tail st = (st', inr u) ->
  exists ws, tail_tmp_file (world st) = Some ws
             /\ st' = set_world st (mkWorld (wd_exists (world st)) (chunk_files (world st))
                                      None (Some ws)).
Proof.
  unfold rename_tail. destruct (tail_tmp_file (world st)) as [ws|]; intros H.
  - inversion H. exists ws. auto.
  - discriminate.
Qed.

(** Projections of explicitly updated states. *)
Ltac st_simpl :=
  cbn [self world chunks tail_tmp tail_fin h_tail out emitted log
       set_self set_world set_chunks set_tail_tmp set_tail_fin set_h_tail
       yield_vals yield_recs
       XiSort.mode XiSort.tie XiSort.rng XiSort.det XiSort.nan XiSort.max
       XiSort.disk XiSort.idx XiSort.gseq XiSort.integrity XiSort.soft
       XiSort._maxseq XiSort.eps XiSort.dtype
       XiSort.set_rng XiSort.set_disk XiSort.set_idx XiSort.set_gseq
       wd_exists chunk_files tail_tmp_file tail_fin_file tail_words fst snd] in *.

(** Successful runs of a computation, split at every bind. *)
Ltac mok :=
  repeat (cbv beta in *;
          match goal with
          | H : bind _ _ _ = (_, inr _) |- _ =>
              let st1 := fresh "st" in
              let a := fresh "a" in
              let H1 := fresh "H" in
              apply bind_ok in H; destruct H as (st1 & a & H1 & H)
          | H : ret _ _ = (_, inr _) |- _ => apply ret_ok in H; destruct H; subst
          | H : get _ = (_, inr _) |- _ => apply get_ok in H; destruct H; subst
          | H : modify _ _ = (_, inr _) |- _ => apply modify_ok in H; subst
          | H : raise _ _ = (_, inr _) |- _ => apply raise_ok in H; contradiction
          | H : _budget _ _ = (_, inr _) |- _ =>
              let Hb := fresh "Hb" in
              apply budget_ok in H; destruct H as [H Hb]; subst
          | H : append_tail_tmp _ _ = (_, inr _) |- _ =>
              apply append_tail_tmp_ok in H; subst
          | H : write_chunk_file _ _ _ _ = (_, inr _) |- _ =>
              apply write_chunk_file_ok in H; subst
          | H : rename_tail _ = (_, inr _) |- _ =>
              let ws := fresh "ws" in
              let Hws := fresh "Hws" in
              apply rename_tail_ok in H; destruct H as (ws & Hws & H); subst
          | H : with_rng _ _ = (_, inr _) |- _ =>
              let r := fresh "r" in
              let Hr := fresh "Hr" in
              apply with_rng_ok in H; destruct H as (r & Hr & H); subst
          end).

Lemma make_ties_ok (tb : TieBreak) (g : Z) (keys : list Z) (st st' : St)
    (ties : list tieval) :
  make_ties tb g keys st = (st', inr ties) ->
  Forall (tie_wf tb) ties /\ length ties = length keys
  /\ world st' = world st /\ chunks st' = chunks st /\ tail_tmp st' = tail_tmp st
  /\ tail_fin st' = tail_fin st /\ out st' = out st /\ emitted st' = emitted st
  /\ XiSort.tie (self st') = XiSort.tie (self st)
  /\ XiSort.idx (self st') = XiSort.idx (self st)
  /\ XiSort.gseq (self st') = XiSort.gseq (self st)
  /\ XiSort.disk (self st') = XiSort.disk (self st)
  /\ XiSort.max (self st') = XiSort.max (self st)
  /\ log st' = log st.
Proof.
  intros H. destruct tb; cbn [make_ties] in H; mok; st_simpl.
  - repeat split; try reflexivity.
    + clear. induction keys; cbn [map]; constructor; [exact I | assumption].
    + apply length_map.
  - destruct (index_ties_wf (length keys) g). repeat split; auto.
  - injection Hr as Hr.
    destruct (rand_not_nan (length keys) (XiSort.rng (self st))) as [N1 N2].
    rewrite Hr in N1, N2. cbn [fst] in N1, N2.
    repeat split; try reflexivity.
    + clear - N1. induction N1; cbn [map]; constructor; auto.
    + rewrite length_map. exact N2.
  - injection Hr as Hr.
    destruct (rand_not_nan (length keys) (XiSort.rng (self st))) as [N1 N2].
    rewrite Hr in N1, N2. cbn [fst] in N1, N2.
    repeat split; try reflexivity.
    + clear - N1. induction N1; cbn [map]; constructor; auto.
    + rewrite length_map. exact N2.
Qed.

Lemma filter_existsb_false {A} (f : A -> bool) (l : list A) :
  existsb f l = false -> filter f l = [].
Proof.
  induction l as [|x l IH]; cbn [existsb filter]; intros H.
  - reflexivity.
  - apply orb_false_iff in H. destruct H as [H1 H2]. rewrite H1. auto.
Qed.

Lemma write_tail_ok (fuel : nat) (nonfin : list double) (st st' : St) (u : unit) :
  write_tail fuel nonfin st = (st', inr u) ->
  exists tail, Permutation tail nonfin
    /\ chunk_files (world st') = chunk_files (world st)
    /\ tail_words (world st') = tail_words (world st) ++ tail
    /\ chunks st' = chunks st
    /\ XiSort.idx (self st') = XiSort.idx (self st)
    /\ XiSort.tie (self st') = XiSort.tie (self st)
    /\ tail_tmp st' <> None
    /\ tail_fin st' = tail_fin st /\ out st' = out st /\ emitted st' = emitted st.
Proof.
  unfold write_tail. intros H. mok.
  destruct (XiSort.nan _) eqn:N; mok; st_simpl.
  - apply shuffle_perm in Hr.
    match goal with Hp : Permutation ?t nonfin |- _ => exists t end.
    repeat split; auto.
    destruct (tail_tmp st); discriminate.
  - exists nonfin. repeat split; auto.
    destruct (tail_tmp st); discriminate.
Qed.

Lemma write_chunk_ok (L : Lib) (finite : list double) (st st' : St) (u : unit) :
  write_chunk L finite st = (st', inr u) ->
  exists recs tag,
    sorted_wf (XiSort.tie (self st)) recs
    /\ Permutation (map val recs) finite
    /\ chunk_files (world st')
       = (XiSort.idx (self st), (recs, tag))
           :: chunk_remove (XiSort.idx (self st)) (chunk_files (world st))
    /\ tail_words (world st') = tail_words (world st)
    /\ chunks st' = chunks st ++ [XiSort.idx (self st)]
    /\ XiSort.idx (self st') = XiSort.idx (self st) + 1
    /\ XiSort.tie (self st') = XiSort.tie (self st)
    /\ tail_tmp st' = tail_tmp st
    /\ tail_fin st' = tail_fin st /\ out st' = out st /\ emitted st' = emitted st.
Proof.
  unfold write_chunk. intros H. mok.
  destruct (_ >? _); mok.
  match goal with
  | Ht : make_ties _ _ _ _ = _ |- _ =>
      apply make_ties_ok in Ht;
      destruct Ht as (T1 & T2 & W & C & TT & TF & O & E & Ti & Ix & G & _)
  end.
  st_simpl. rewrite W, C, TT, TF, O, E, Ti, Ix.
  eexists. eexists.
  split; [apply np_sort_sorted; apply zip_recs_wf; exact T1 |].
  repeat split; try reflexivity.
  - rewrite np_sort_perm. rewrite zip_recs_val; [reflexivity | | ].
    + unfold ieee_key. rewrite length_map. apply metric_length.
    + rewrite T2. unfold ieee_key. rewrite length_map. apply metric_length.
Qed.

Lemma process_chunk_ok (L : Lib) (fuel : nat) (arr : list double) (st st' : St) (u : unit) :
  process_chunk L fuel arr st = (st', inr u) ->
  exists tail,
    Permutation tail (filter nonfinite arr)
    /\ tail_words (world st') = tail_words (world st) ++ tail
    /\ (tail_tmp st' = None -> filter nonfinite arr = [] /\ tail_tmp st = None)
    /\ tail_fin st' = tail_fin st /\ out st' = out st /\ emitted st' = emitted st
    /\ XiSort.tie (self st') = XiSort.tie (self st)
    /\ ((filter (fun x => negb (nonfinite x)) arr = []
         /\ chunk_files (world st') = chunk_files (world st)
         /\ chunks st' = chunks st
         /\ XiSort.idx (self st') = XiSort.idx (self st))
        \/ (exists recs tag,
              sorted_wf (XiSort.tie (self st)) recs
              /\ Permutation (map val recs) (filter (fun x => negb (nonfinite x)) arr)
              /\ chunk_files (world st')
                 = (XiSort.idx (self st), (recs, tag))
                     :: chunk_remove (XiSort.idx (self st)) (chunk_files (world st))
              /\ chunks st' = chunks st ++ [XiSort.idx (self st)]
              /\ XiSort.idx (self st') = XiSort.idx (self st) + 1)).
Proof.
  unfold process_chunk. intros H. apply bind_ok in H.
  destruct H as (st1 & a & H1 & H2). cbv beta in H2.
  assert (T : exists tail,
             Permutation tail (filter nonfinite arr)
             /\ chunk_files (world st1) = chunk_files (world st)
             /\ tail_words (world st1) = tail_words (world st) ++ tail
             /\ chunks st1 = chunks st
             /\ XiSort.idx (self st1) = XiSort.idx (self st)
             /\ XiSort.tie (self st1) = XiSort.tie (self st)
             /\ (tail_tmp st1 = None -> filter nonfinite arr = [] /\ tail_tmp st = None)
             /\ tail_fin st1 = tail_fin st /\ out st1 = out st
             /\ emitted st1 = emitted st).
  { destruct (existsb nonfinite arr) eqn:E.
    - apply write_tail_ok in H1.
      destruct H1 as (tail & P & ? & ? & ? & ? & ? & N & ? & ? & ?).
      exists tail. repeat split; auto; intros; contradiction.
    - apply ret_ok in H1. destruct H1 as [-> _].
      exists []. rewrite app_nil_r, (filter_existsb_false _ _ E).
      repeat split; auto. }
  destruct T as (tail & P & CF & TW & C & Ix & Ti & TT & TF & O & E).
  exists tail.
  destruct (filter (fun x => negb (nonfinite x)) arr) as [|x fin] eqn:F.
  - apply ret_ok in H2. destruct H2 as [-> _].
    repeat (split; [assumption|]). left. repeat split; auto.
  - apply write_chunk_ok in H2.
    destruct H2 as (recs & tag & S1 & S2 & S3 & S4 & S5 & S6 & S7 & S8 & S9 & S10 & S11).
    rewrite S4, S8, S9, S10, S11, S7.
    repeat (split; [assumption|]).
    right. exists recs, tag.
    rewrite <- Ti, <- Ix, <- CF, <- C. repeat (split; [assumption|]). assumption.
Qed.

(** ** The chunk loop keeps its invariants *)

Lemma chunk_recs_same (w w' : World) (i : Z) :
  chunk_files w' = chunk_files w -> chunk_recs w' i = chunk_recs w i.
Proof. unfold chunk_recs. intros ->. reflexivity. Qed.

Lemma chunk_recs_write_ne (w w' : World) (i j : Z) (recs : list rec) (tag : Z * Z) :
  chunk_files w' = (j, (recs, tag)) :: chunk_remove j (chunk_files w) ->
  i <> j -> chunk_recs w' i = chunk_recs w i.
Proof.
  unfold chunk_recs. intros -> Hne. cbn [chunk_lookup].
  destruct (Z.eqb_spec i j); [contradiction|].
  rewrite chunk_lookup_remove_ne by exact Hne. reflexivity.
Qed.

Lemma chunk_recs_write_eq (w w' : World) (j : Z) (recs : list rec) (tag : Z * Z) :
  chunk_files w' = (j, (recs, tag)) :: chunk_remove j (chunk_files w) ->
  chunk_recs w' j = recs.
Proof.
  unfold chunk_recs. intros ->. cbn [chunk_lookup]. rewrite Z.eqb_refl. reflexivity.
Qed.

Lemma chunk_recs_old (w w' : World) (j : Z) (recs : list rec) (tag : Z * Z) (cs : list Z) :
  chunk_files w' = (j, (recs, tag)) :: chunk_remove j (chunk_files w) ->
  Forall (fun i => i < j) cs ->
  map (chunk_recs w') cs = map (chunk_recs w) cs.
Proof.
  intros Hw Hlt. apply map_ext_in. intros i Hi.
  rewrite Forall_forall in Hlt. specialize (Hlt i Hi).
  eapply chunk_recs_write_ne; [exact Hw | lia].
Qed.

Lemma process_chunk_chunks_inv (L : Lib) (fuel : nat) (arr : list double)
    (tb : TieBreak) (st st' : St) (u : unit) :
  process_chunk L fuel arr st = (st', inr u) ->
  chunks_inv tb st -> chunks_inv tb st'.
Proof.
  intros H (Ti & Hlt & Hs). apply process_chunk_ok in H.
  destruct H as (tail & _ & _ & _ & _ & _ & _ & Ti' & [(_ & CF & C & Ix)|
    (recs & tag & S1 & _ & CF & C & Ix)]).
  - unfold chunks_inv. rewrite Ti', C, Ix. repeat split; auto.
    eapply Forall_impl; [|exact Hs]. intros i Hi. cbv beta in *.
    rewrite (chunk_recs_same _ _ i CF). exact Hi.
  - unfold chunks_inv. rewrite Ti', C, Ix. split; [exact Ti|]. split.
    + apply Forall_app. split.
      * eapply Forall_impl; [|exact Hlt]. intros i Hi. cbv beta in *. lia.
      * constructor; [lia | constructor].
    + apply Forall_app. split.
      * rewrite Forall_forall in *. intros i Hi.
        rewrite (chunk_recs_write_ne _ _ i _ _ _ CF); [apply Hs; exact Hi|].
        specialize (Hlt i Hi). cbv beta in Hlt. lia.
      * constructor; [|constructor].
        rewrite (chunk_recs_write_eq _ _ _ _ _ CF). rewrite <- Ti. exact S1.
Qed.

Lemma process_chunk_loop_inv (L : Lib) (fuel : nat) (arr : list double)
    (tb : TieBreak) (processed : list double) (st st' : St) (u : unit) :
  process_chunk L fuel arr st = (st', inr u) ->
  loop_inv tb processed st -> loop_inv tb (processed ++ arr) st'.
Proof.
  intros H (Hc & Hfin & Htail & Hnone & Hf & Ho & He).
  pose proof (process_chunk_chunks_inv L fuel arr tb st st' u H Hc) as Hc'.
  destruct Hc as (Ti & Hlt & Hs).
  apply process_chunk_ok in H.
  destruct H as (tail & P & TW & TT & TF & O & E & Ti' & Hch).
  unfold loop_inv. rewrite !filter_app, TF, O, E, TW.
  split; [exact Hc'|]. split; [|split; [|split]].
  - destruct Hch as [(F & CF & C & Ix)|(recs & tag & S1 & S2 & CF & C & Ix)].
    + rewrite F, app_nil_r, C.
      rewrite (map_ext (chunk_recs (world st')) (chunk_recs (world st)));
        [exact Hfin|].
      intros i. apply chunk_recs_same. exact CF.
    + rewrite C, map_app, concat_app, map_app.
      rewrite (chunk_recs_old _ _ _ _ _ _ CF Hlt).
      cbn [map concat]. rewrite (chunk_recs_write_eq _ _ _ _ _ CF), app_nil_r.
      apply Permutation_app; assumption.
  - apply Permutation_app; assumption.
  - intros Hn. destruct (TT Hn) as [F1 F2]. rewrite F1, (Hnone F2). reflexivity.
  - auto.
Qed.

Lemma forM_chunks_inv (L : Lib) (fuel : nat) (cs : list (list double))
    (tb : TieBreak) (st st' : St) (u : unit) :
  forM_ cs (process_chunk L fuel) st = (st', inr u) ->
  chunks_inv tb st -> chunks_inv tb st'.
Proof.
  revert st. induction cs as [|c cs IH]; intros st H Hi; cbn [forM_] in H.
  - apply ret_ok in H. destruct H as [-> _]. exact Hi.
  - apply bind_ok in H. destruct H as (st1 & a & H1 & H2).
    eapply IH; [exact H2|]. eapply process_chunk_chunks_inv; eassumption.
Qed.

Lemma forM_loop_inv (L : Lib) (fuel : nat) (cs : list (list double))
    (tb : TieBreak) (processed : list double) (st st' : St) (u : unit) :
  forM_ cs (process_chunk L fuel) st = (st', inr u) ->
  loop_inv tb processed st -> loop_inv tb (processed ++ concat cs) st'.
Proof.
  revert st processed. induction cs as [|c cs IH]; intros st processed H Hi;
    cbn [forM_ concat] in *.
  - apply ret_ok in H. destruct H as [-> _]. rewrite app_nil_r. exact Hi.
  - apply bind_ok in H. destruct H as (st1 & a & H1 & H2).
    rewrite app_assoc. eapply IH; [exact H2|].
    eapply process_chunk_loop_inv; eassumption.
Qed.

(** ** Properties kept by every step *)

Lemma preserves_bind {A B} (P : St -> Prop) (m : M A) (k : A -> M B) :
  preserves P m -> (forall a, preserves P (k a)) -> preserves P (bind m k).
Proof.
  intros Hm Hk st st' r H HP. apply bind_cases in H.
  destruct H as [(e & H & _)|(st1 & a & H1 & H2)].
  - eapply Hm; eassumption.
  - eapply Hk; [exact H2|]. eapply Hm; eassumption.
Qed.

Lemma preserves_ret {A} (P : St -> Prop) (a : A) : preserves P (ret a).
Proof. intros st st' r H HP. inversion H; subst. exact HP. Qed.

Lemma preserves_raise {A} (P : St -> Prop) (e : exn) : preserves P (@raise A e).
Proof. intros st st' r H HP. inversion H; subst. exact HP. Qed.

Lemma preserves_get (P : St -> Prop) : preserves P get.
Proof. intros st st' r H HP. inversion H; subst. exact HP. Qed.

Lemma preserves_modify (P : St -> Prop) (f : St -> St) :
  (forall st, P st -> P (f st)) -> preserves P (modify f).
Proof. intros Hf st st' r H HP. inversion H; subst. auto. Qed.

Lemma preserves_with_rng {A} (P : St -> Prop) (f : Rng.state -> option (A * Rng.state)) :
  ignores_self P -> preserves P (with_rng f).
Proof.
  intros Hs st st' r H HP. unfold with_rng in H.
  destruct (f (XiSort.rng (self st))) as [[a r']|]; inversion H; subst; auto.
Qed.

Lemma preserves_budget (P : St -> Prop) (d : Z) : ignores_self P -> preserves P (_budget d).
Proof.
  intros Hs st st' r H HP. unfold _budget in H.
  destruct (_ >? _); inversion H; subst; auto.
Qed.

Lemma preserves_append (P : St -> Prop) (ws : list Z) :
  ignores_world P -> preserves P (append_tail_tmp ws).
Proof.
  intros Hw st st' r H HP. unfold append_tail_tmp in H.
  destruct (negb _); inversion H; subst; auto.
Qed.

Lemma preserves_write_chunk_file (P : St -> Prop) (i : Z) (recs : list rec) (tag : Z * Z) :
  ignores_world P -> preserves P (write_chunk_file i recs tag).
Proof.
  intros Hw st st' r H HP. unfold write_chunk_file in H.
  destruct (negb _); inversion H; subst; auto.
Qed.

Lemma preserves_rename (P : St -> Prop) : ignores_world P -> preserves P rename_tail.
Proof.
  intros Hw st st' r H HP. unfold rename_tail in H.
  destruct (tail_tmp_file _); inversion H; subst; auto.
Qed.

Lemma preserves_forM {A} (P : St -> Prop) (l : list A) (f : A -> M unit) :
  (forall x, preserves P (f x)) -> preserves P (forM_ l f).
Proof.
  intros Hf. induction l as [|x l IH]; cbn [forM_].
  - apply preserves_ret.
  - apply preserves_bind; [apply Hf | intros _; exact IH].
Qed.

Lemma preserves_make_ties (P : St -> Prop) (tb : TieBreak) (g : Z) (keys : list Z) :
  ignores_self P -> preserves P (make_ties tb g keys).
Proof.
  intros Hs. destruct tb; cbn [make_ties]; try apply preserves_ret.
  all: apply preserves_bind; [apply preserves_with_rng; exact Hs|].
  all: intros a; apply preserves_ret.
Qed.

Lemma preserves_write_tail (P : St -> Prop) (fuel : nat) (nonfin : list double) :
  ignores_self P -> ignores_world P -> ignores_locals P ->
  preserves P (write_tail fuel nonfin).
Proof.
  intros Hs Hw Hl. unfold write_tail.
  apply preserves_bind; [apply preserves_modify; intros st HP; apply Hl; exact HP|].
  intros _. apply preserves_bind; [apply preserves_get|]. intros st.
  apply preserves_bind.
  { destruct (XiSort.nan (self st));
      [apply preserves_with_rng; exact Hs | apply preserves_ret]. }
  intros tail.
  apply preserves_bind; [apply preserves_modify; intros st1 HP; apply Hl; exact HP|].
  intros _. apply preserves_bind; [apply preserves_append; exact Hw|].
  intros _. apply preserves_budget; exact Hs.
Qed.

Lemma preserves_write_chunk (P : St -> Prop) (L : Lib) (finite : list double) :
  ignores_self P -> ignores_world P -> ignores_locals P ->
  preserves P (write_chunk L finite).
Proof.
  intros Hs Hw Hl. unfold write_chunk.
  apply preserves_bind; [apply preserves_get|]. intros st.
  destruct (_ >? _); [apply preserves_raise|].
  apply preserves_bind; [apply preserves_make_ties; exact Hs|]. intros ties.
  apply preserves_bind; [apply preserves_modify; intros; apply Hs; assumption|].
  intros _. apply preserves_bind; [apply preserves_write_chunk_file; exact Hw|].
  intros _. apply preserves_bind; [apply preserves_get|]. intros st1.
  apply preserves_bind; [apply preserves_budget; exact Hs|].
  intros _. apply preserves_bind;
    [apply preserves_modify; intros st2 HP; apply Hl; exact HP|].
  intros _. apply preserves_modify. intros; apply Hs; assumption.
Qed.

Lemma preserves_process_chunk (P : St -> Prop) (L : Lib) (fuel : nat) (arr : list double) :
  ignores_self P -> ignores_world P -> ignores_locals P ->
  preserves P (process_chunk L fuel arr).
Proof.
  intros Hs Hw Hl. unfold process_chunk.
  apply preserves_bind.
  - destruct (existsb nonfinite arr);
      [apply preserves_write_tail; assumption | apply preserves_ret].
  - intros _. destruct (filter _ arr);
      [apply preserves_ret | apply preserves_write_chunk; assumption].
Qed.

Lemma preserves_seal_tail (P : St -> Prop) (L : Lib) :
  ignores_self P -> ignores_world P -> ignores_locals P ->
  preserves P (seal_tail L).
Proof.
  intros Hs Hw Hl. unfold seal_tail.
  apply preserves_bind; [apply preserves_get|]. intros st.
  destruct (tail_tmp st); [|apply preserves_ret].
  apply preserves_bind; [apply preserves_append; exact Hw|].
  intros _. apply preserves_bind;
    [apply preserves_modify; intros st2 HP; apply Hl; exact HP|].
  intros _. apply preserves_bind; [apply preserves_rename; exact Hw|].
  intros _. apply preserves_budget; exact Hs.
Qed.

Lemma preserves_remove_path (P : St -> Prop) (p : fname) :
  ignores_self P -> ignores_world P -> preserves P (remove_path p).
Proof.
  intros Hs Hw. unfold remove_path.
  apply preserves_bind; [apply preserves_get|]. intros st.
  destruct (fs_exists _ p); [|apply preserves_ret].
  apply preserves_bind; [apply preserves_modify; intros; apply Hw; assumption|].
  intros _. apply preserves_budget; exact Hs.
Qed.

Lemma preserves_cleanup (P : St -> Prop) (L : Lib) :
  ignores_self P -> ignores_world P -> preserves P (cleanup L).
Proof.
  intros Hs Hw. unfold cleanup.
  apply preserves_bind; [apply preserves_get|]. intros st.
  apply preserves_bind.
  - apply preserves_forM. intros p. apply preserves_remove_path; assumption.
  - intros _. unfold rmdir_if_empty. apply preserves_modify. intros st1 HP.
    destruct (_ && _); [apply Hw; exact HP | exact HP].
Qed.

(** The observations [out] and [emitted] ignore everything but the yields. *)
Lemma emitted_ignores (e : list rec) :
  ignores_self (fun st => emitted st = e)
  /\ ignores_world (fun st => emitted st = e)
  /\ ignores_locals (fun st => emitted st = e).
Proof.
  unfold ignores_self, ignores_world, ignores_locals.
  repeat split; intros; st_simpl; assumption.
Qed.

Lemma out_ignores (o : list double) :
  ignores_self (fun st => out st = o)
  /\ ignores_world (fun st => out st = o)
  /\ ignores_locals (fun st => out st = o).
Proof.
  unfold ignores_self, ignores_world, ignores_locals.
  repeat split; intros; st_simpl; assumption.
Qed.

(** ** The merge phase *)

Lemma reader_fst (L : Lib) (ig sf : bool) (w : World) (i : Z) :
  fst (_reader L ig sf w i) = chunk_recs w i.
Proof.
  unfold _reader, chunk_recs.
  destruct (chunk_lookup i (chunk_files w)) as [[recs tag]|]; reflexivity.
Qed.

Lemma readers_fst (L : Lib) (ig sf : bool) (w : World) (cs : list Z) :
  map fst (map (_reader L ig sf w) cs) = map (chunk_recs w) cs.
Proof. rewrite map_map. apply map_ext. intros i. apply reader_fst. Qed.

Lemma readers_ok (L : Lib) (ig sf : bool) (tb : TieBreak) (st : St) :
  chunks_inv tb st -> streams_ok tb (map (_reader L ig sf (world st)) (chunks st)).
Proof.
  intros (_ & _ & Hs). unfold streams_ok.
  induction Hs as [|i cs Hi _ IH]; cbn [map]; constructor.
  - rewrite reader_fst. exact Hi.
  - exact IH.
Qed.

Lemma streams_ok_concat (tb : TieBreak) (ss : list stream) :
  streams_ok tb ss -> Forall (wf_rec tb) (concat (map fst ss)).
Proof.
  intros H. induction H as [|s ss [_ Hw] _ IH]; cbn [map concat].
  - constructor.
  - apply Forall_app. split; assumption.
Qed.

Lemma sorted_rk_lex (tb : TieBreak) (l : list rec) :
  StronglySorted rk_le l -> Forall (wf_rec tb) l -> StronglySorted rec_lex_le l.
Proof.
  intros Hs Hw. induction Hs as [|x l Hs IH Hx]; [constructor|].
  inversion Hw as [|? ? Wx Wl]; subst.
  constructor; [apply IH; exact Wl|].
  rewrite Forall_forall in *. intros y Hy.
  apply (rec_lex_le_rk tb); [exact Wx | apply Wl; exact Hy | apply Hx; exact Hy].
Qed.

Lemma merge_phase_any (L : Lib) (st st' : St) (r : abort + unit) :
  merge_phase L st = (st', r) ->
  exists recs err,
    heapq_merge (map (_reader L (XiSort.integrity (self st)) (XiSort.soft (self st))
                        (world st)) (chunks st)) = (recs, err)
    /\ st' = yield_recs st recs
    /\ (forall u, r = inr u -> err = None).
Proof.
  unfold merge_phase, bind, get, modify.
  destruct (heapq_merge _) as [recs err] eqn:Hm.
  intros H. exists recs, err. split; [reflexivity|].
  destruct err as [e|]; cbn in H; inversion H; subst.
  - split; [reflexivity|]. intros u Hu. discriminate Hu.
  - split; reflexivity.
Qed.

Lemma seal_tail_ok (L : Lib) (st st' : St) (u : unit) :
  seal_tail L st = (st', inr u) ->
  chunk_files (world st') = chunk_files (world st)
  /\ chunks st' = chunks st
  /\ XiSort.tie (self st') = XiSort.tie (self st)
  /\ XiSort.idx (self st') = XiSort.idx (self st)
  /\ out st' = out st /\ emitted st' = emitted st
  /\ ((tail_tmp st = None /\ tail_fin st' = tail_fin st)
      \/ (tail_tmp st <> None /\ tail_fin st' = Some TailFin
          /\ exists t1 t2,
               tail_fin_file (world st') = Some (tail_words (world st) ++ [t1; t2]))).
Proof.
  unfold seal_tail. intros H. mok.
  destruct (tail_tmp st) as [p|] eqn:T; mok.
  - st_simpl. injection Hws as <-.
    repeat split; try reflexivity.
    right. split; [discriminate|]. split; [reflexivity|].
    eexists. eexists. reflexivity.
  - repeat split; try reflexivity. left. split; reflexivity.
Qed.

Lemma seal_tail_chunks_inv (L : Lib) (tb : TieBreak) (st st' : St) (u : unit) :
  seal_tail L st = (st', inr u) -> chunks_inv tb st -> chunks_inv tb st'.
Proof.
  intros H (Ti & Hlt & Hs). apply seal_tail_ok in H.
  destruct H as (CF & C & Ti' & Ix & _).
  unfold chunks_inv. rewrite Ti', C, Ix. repeat split; auto.
  eapply Forall_impl; [|exact Hs]. intros i Hi. cbv beta in *.
  rewrite (chunk_recs_same _ _ i CF). exact Hi.
Qed.

(** *** What the tail emitter does *)

Lemma small_tail_bytes_val : small_tail_bytes = 536870912.
Proof. reflexivity. Qed.

(** The reservoir never draws: its first [randint] raises. *)
Lemma res_items_rng (items buf : list Z) (processed : Z) (r : Rng.state) :
  fst (res_items items buf processed r) = r.
Proof. destruct items; reflexivity. Qed.

Lemma res_chunks_rng (view : list Z) (cse : Z) (n : nat) (i : Z) (buf : list Z)
    (processed : Z) (r : Rng.state) :
  fst (res_chunks view cse n i buf processed r) = r.
Proof.
  revert i buf processed. induction n as [|n IH]; intros i buf processed;
    cbn [res_chunks].
  - reflexivity.
  - cbv zeta. unfold res_chunk. cbv zeta.
    match goal with
    | |- context [res_items ?a ?b ?c r] =>
        pose proof (res_items_rng a b c r) as E;
        destruct (res_items a b c r) as [r1 [e|[b1 p1]]]
    end; cbn [fst] in E; subst r1; [reflexivity | apply IH].
Qed.

Lemma reservoir_rng (view : list Z) (r : Rng.state) : fst (reservoir view r) = r.
Proof.
  unfold reservoir. cbv zeta. destruct (_ =? 0); [reflexivity|].
  match goal with
  | |- context [res_chunks ?v ?c ?n ?i ?b ?p r] =>
      pose proof (res_chunks_rng v c n i b p r) as E;
      destruct (res_chunks v c n i b p r) as [r1 [e|[b1 p1]]]
  end; cbn [fst] in E; subst r1; reflexivity.
Qed.

Lemma set_rng_same (st : St) :
  set_self st (XiSort.set_rng (self st) (XiSort.rng (self st))) = st.
Proof. destruct st as [[] ? ? ? ? ? ? ? ?]. reflexivity. Qed.

(** The emitter yields nothing and changes nothing: up to 512 MiB of
    payload it returns, above it raises [BufferError]. *)
Lemma tail_emit_result (fuel : nat) (st : St) :
  _tail_emit fuel st
  = (st, if tail_payload_large (world st)
         then inl (Exn BufferError_exports) else inr tt).
Proof.
  unfold _tail_emit, tail_payload_large, bind, get.
  destruct (tail_fin_file (world st)) as [ws|]; [|reflexivity]. cbv zeta.
  unfold words_size_bytes.
  remember (Z.of_nat (length ws)) as n eqn:En.
  assert (Hn : 0 <= n) by lia.
  pose proof small_tail_bytes_val as Hs.
  destruct (Z.leb_spec (8 * n) 16) as [H16|H16].
  { destruct (Z.ltb_spec small_tail_bytes (8 * n - 16)); [lia | reflexivity]. }
  destruct (Z.leb_spec (8 * n - 16) small_tail_bytes) as [Hle|Hgt].
  - destruct (Z.ltb_spec small_tail_bytes (8 * n - 16)) as [C|_]; [lia|].
    replace (8 * n / 8) with n by (rewrite Z.mul_comm, Z.div_mul; lia).
    destruct (Z.ltb_spec 0 n) as [_|C]; [|lia].
    unfold np_frombuffer, words_size_bytes.
    rewrite length_firstn.
    replace ((8 * n - 16) / 8) with (n - 2)
      by (replace (8 * n - 16) with ((n - 2) * 8) by lia; rewrite Z.div_mul; lia).
    match goal with
    | |- context [?a <? n * 8] => destruct (Z.ltb_spec a (n * 8)) as [_|C]; [|lia]
    end.
    reflexivity.
  - destruct (Z.ltb_spec small_tail_bytes (8 * n - 16)) as [_|C]; [|lia].
    unfold np_frombuffer, words_size_bytes.
    rewrite length_firstn.
    replace ((8 * n - 16) / 8) with (n - 2)
      by (replace (8 * n - 16) with ((n - 2) * 8) by lia; rewrite Z.div_mul; lia).
    match goal with
    | |- context [?a <? (n - 2) * 8] =>
        destruct (Z.ltb_spec a ((n - 2) * 8)) as [C|_]; [lia|]
    end.
    unfold run_reservoir.
    match goal with
    | |- context [reservoir ?v ?r] =>
        pose proof (reservoir_rng v r) as E; destruct (reservoir v r) as [r1 res]
    end.
    cbn [fst] in E. subst r1. rewrite set_rng_same. reflexivity.
Qed.

Lemma tail_emit_same (fuel : nat) (st st' : St) (r : abort + unit) :
  _tail_emit fuel st = (st', r) -> st' = st.
Proof. rewrite tail_emit_result. intros H. injection H as <- _. reflexivity. Qed.

Lemma tail_emit_keeps (fuel : nat) (P : St -> Prop) : preserves P (_tail_emit fuel).
Proof. intros st st' r H HP. apply tail_emit_same in H. subst st'. exact HP. Qed.

Lemma tail_emit_keeps_emitted (fuel : nat) (e : list rec) :
  preserves (fun st => emitted st = e) (_tail_emit fuel).
Proof. apply tail_emit_keeps. Qed.

(** After the [try] block, however it ended, the records pulled from the
    merge are in order. *)
Lemma body_emitted_sorted (L : Lib) (fuel : nat) (itr : list double) (cs : Z)
    (st0 st1 : St) (r : abort + unit) :
  stream_sort_body L fuel itr cs st0 = (st1, r) ->
  emitted st0 = [] -> chunks st0 = [] ->
  StronglySorted rec_lex_le (emitted st1).
Proof.
  intros H He Hc.
  set (tb := XiSort.tie (self st0)).
  assert (I0 : chunks_inv tb st0).
  { unfold chunks_inv. rewrite Hc. repeat split; constructor. }
  destruct (emitted_ignores []) as (Es & Ew & El).
  unfold stream_sort_body in H.
  apply bind_cases in H. destruct H as [(e & H & _)|(sta & a & Ha & H)].
  { assert (E : emitted st1 = []).
    { revert H He. destruct (cs <=? 0).
      - apply (preserves_ret (fun st => emitted st = [])).
      - apply (preserves_forM (fun st => emitted st = [])).
        intros x. apply preserves_process_chunk; assumption. }
    rewrite E. constructor. }
  assert (Ea : emitted sta = []).
  { revert Ha He. destruct (cs <=? 0).
    - apply (preserves_ret (fun st => emitted st = [])).
    - apply (preserves_forM (fun st => emitted st = [])).
      intros x. apply preserves_process_chunk; assumption. }
  assert (Ia : chunks_inv tb sta).
  { destruct (cs <=? 0).
    - apply ret_ok in Ha. destruct Ha as [-> _]. exact I0.
    - destruct a. eapply forM_chunks_inv; eassumption. }
  apply bind_cases in H. destruct H as [(e & H & _)|(stb & b & Hb & H)].
  { assert (E : emitted st1 = []).
    { revert H Ea. apply (preserves_seal_tail (fun st => emitted st = [])); assumption. }
    rewrite E. constructor. }
  assert (Eb : emitted stb = []).
  { revert Hb Ea. apply (preserves_seal_tail (fun st => emitted st = [])); assumption. }
  assert (Ib : chunks_inv tb stb).
  { destruct b. eapply seal_tail_chunks_inv; eassumption. }
  assert (Hm : forall stc rc, merge_phase L stb = (stc, rc) ->
                              StronglySorted rec_lex_le (emitted stc)).
  { intros stc rc Hc'. apply merge_phase_any in Hc'.
    destruct Hc' as (recs & err & Hq & -> & _).
    cbn [yield_recs emitted]. rewrite Eb. cbn [app].
    pose proof (readers_ok L (XiSort.integrity (self stb)) (XiSort.soft (self stb))
                  tb stb Ib) as Hok.
    apply (sorted_rk_lex tb).
    - eapply heapq_merge_sorted; eassumption.
    - destruct (heapq_merge_prefix _ _ _ Hq) as (rem & Hp & _).
      pose proof (streams_ok_concat tb _ Hok) as Hall.
      eapply Permutation_Forall in Hall; [|exact Hp].
      apply Forall_app in Hall. tauto. }
  apply bind_cases in H. destruct H as [(e & H & _)|(stc & c & Hc' & H)].
  { eapply Hm; exact H. }
  specialize (Hm stc (inr c) Hc').
  assert (E : emitted st1 = emitted stc).
  { assert (Pt : preserves (fun st => emitted st = emitted stc)
                   (st <- get ;;
                    match tail_fin st with
                    | Some _ => _tail_emit fuel
                    | None => ret tt
                    end)).
    { apply preserves_bind; [apply preserves_get|].
      intros st. destruct (tail_fin st); [|apply preserves_ret].
      apply tail_emit_keeps_emitted. }
    exact (Pt _ _ _ H eq_refl). }
  rewrite E. exact Hm.
Qed.

(** C2: in every run (every input, mode, tie-break, chunk size and
    directory, however the run ends) the records pulled from the merged
    stream come out in lexicographic order of [(key, tie, seq)]: each one
    is [<=] every later one. *)
Theorem merged_records_sorted (L : Lib) (fuel : nat) (s : XiSort.t) (w : World)
    (itr : list double) (chunk_size : Z) :
  StronglySorted rec_lex_le (emitted (fst (stream_sort L fuel s w itr chunk_size))).
Proof.
  unfold stream_sort.
  destruct (stream_sort_body L fuel itr chunk_size _) as [st1 r] eqn:B.
  apply body_emitted_sorted in B; [|reflexivity|reflexivity].
  destruct (emitted_ignores (emitted st1)) as (Es & Ew & _).
  assert (C : emitted (fst (cleanup L st1)) = emitted st1).
  { destruct (cleanup L st1) as [st2 rc] eqn:Hc.
    eapply (preserves_cleanup _ L Es Ew); [exact Hc | reflexivity]. }
  destruct r as [[e|]|u]; [| exact B |];
    destruct (cleanup L st1) as [st2 [[e'|]|u']]; cbn [fst] in *;
    rewrite C; exact B.
Qed.

(** ** Successful runs *)

(** The size test of the emitter on a sealed tail of [n] values. *)
Lemma tail_payload_large_sealed (w : World) (tw : list Z) (t1 t2 : Z) :
  tail_fin_file w = Some (tw ++ [t1; t2]) ->
  tail_payload_large w = (small_tail_bytes <? 8 * Z.of_nat (length tw)).
Proof.
  intros Hf. unfold tail_payload_large, words_size_bytes. rewrite Hf, length_app.
  cbn [length]. f_equal. lia.
Qed.

Lemma body_ok_shape (L : Lib) (fuel : nat) (itr : list double) (cs : Z)
    (s : XiSort.t) (st1 : St) (u : unit) :
  0 < cs ->
  stream_sort_body L fuel itr cs (mkSt s fresh_world [] None None [] [] [] [])
  = (st1, inr u) ->
  out st1 = map val (emitted st1)
  /\ Permutation (map val (emitted st1)) (filter (fun x => negb (nonfinite x)) itr)
  /\ 8 * Z.of_nat (length (filter nonfinite itr)) <= small_tail_bytes.
Proof.
  intros Hcs H. unfold stream_sort_body in H.
  apply bind_ok in H. destruct H as (sta & a & Ha & H). cbv beta in H.
  destruct (Z.leb_spec cs 0) as [Hle|_]; [lia|].
  set (st0 := mkSt s fresh_world [] None None [] [] [] []) in *.
  set (tb := XiSort.tie s).
  assert (I0 : loop_inv tb [] st0).
  { unfold loop_inv, chunks_inv, st0. cbn.
    repeat split; try reflexivity; constructor. }
  pose proof (forM_loop_inv L fuel _ tb [] st0 sta a Ha I0) as Ia.
  rewrite read_chunks_concat in Ia. cbn [app] in Ia.
  destruct Ia as (Ic & Pfin & Ptail & Hnone & Tf & Oa & Ea).
  apply bind_ok in H. destruct H as (stb & b & Hb & H). cbv beta in H.
  apply seal_tail_ok in Hb.
  destruct Hb as (CF & C & _ & _ & Ob & Eb & Hseal).
  apply bind_ok in H. destruct H as (stc & c & Hc & H). cbv beta in H.
  apply merge_phase_any in Hc. destruct Hc as (recs & err & Hq & -> & Herr).
  specialize (Herr c eq_refl). subst err.
  destruct (heapq_merge_prefix _ _ _ Hq) as (rem & Hp & Hrem).
  specialize (Hrem eq_refl). subst rem. rewrite app_nil_r in Hp.
  rewrite readers_fst, C in Hp.
  rewrite (map_ext (chunk_recs (world stb)) (chunk_recs (world sta))) in Hp
    by (intros i; apply chunk_recs_same; exact CF).
  assert (Pr : Permutation (map val recs) (filter (fun x => negb (nonfinite x)) itr)).
  { rewrite <- Pfin. apply Permutation_map. symmetry. exact Hp. }
  apply bind_ok in H. destruct H as (std & d & Hd & H). cbv beta in H.
  apply get_ok in Hd. destruct Hd as [-> ->].
  cbn [yield_recs tail_fin] in H.
  pose proof small_tail_bytes_val as Hsv.
  destruct Hseal as [[Tn Tf']|(Tn & Tf' & t1 & t2 & Hfile)].
  - rewrite Tf', Tf in H. apply ret_ok in H. destruct H as [-> _].
    cbn [yield_recs out emitted]. rewrite Ob, Oa, Eb, Ea. cbn [app].
    rewrite (Hnone Tn). split; [reflexivity|]. split; [exact Pr|].
    cbn [length]. lia.
  - rewrite Tf' in H. rewrite tail_emit_result in H.
    rewrite (tail_payload_large_sealed _ (tail_words (world sta)) t1 t2) in H
      by exact Hfile.
    pose proof (Permutation_length Ptail) as Hlen.
    destruct (Z.ltb_spec small_tail_bytes
                (8 * Z.of_nat (length (tail_words (world sta))))) as [Hl|Hs];
      [discriminate H|].
    injection H as <- _.
    cbn [yield_recs out emitted]. rewrite Ob, Oa, Eb, Ea. cbn [app].
    split; [reflexivity|]. split; [exact Pr|].
    exact (eq_ind _ (fun n => 8 * Z.of_nat n <= small_tail_bytes) Hs _ Hlen).
Qed.

(** A finished run is a successful [try] block and a successful cleanup,
    and the cleanup yields nothing. *)
Lemma stream_sort_finished (L : Lib) (fuel : nat) (s : XiSort.t) (w : World)
    (itr : list double) (cs : Z) (st : St) :
  stream_sort L fuel s w itr cs = (st, Finished) ->
  exists st1 u,
    stream_sort_body L fuel itr cs (mkSt s w [] None None [] [] [] []) = (st1, inr u)
    /\ out st = out st1 /\ emitted st = emitted st1.
Proof.
  unfold stream_sort.
  destruct (stream_sort_body L fuel itr cs _) as [st1 r] eqn:B.
  destruct (out_ignores (out st1)) as (Os & Ow & _).
  destruct (emitted_ignores (emitted st1)) as (Es & Ew & _).
  assert (C : out (fst (cleanup L st1)) = out st1
              /\ emitted (fst (cleanup L st1)) = emitted st1).
  { destruct (cleanup L st1) as [st2 rc] eqn:Hc. split.
    - eapply (preserves_cleanup _ L Os Ow); [exact Hc | reflexivity].
    - eapply (preserves_cleanup _ L Es Ew); [exact Hc | reflexivity]. }
  destruct r as [[e|]|u]; [| discriminate |];
    destruct (cleanup L st1) as [st2 [[e'|]|u']]; cbn [fst] in C;
    intros H; inversion H; subst.
  exists st1, u. tauto.
Qed.

(** A run that finishes has yielded the [val] fields of the merged records
    and nothing else: the finite inputs, each once.  No non-finite input is
    yielded, and there were at most [2^26] of them. *)
Lemma stream_sort_finished_finite (L : Lib) (fuel : nat) (s : XiSort.t)
    (itr : list double) (chunk_size : Z) (st : St) :
  0 < chunk_size ->
  stream_sort L fuel s fresh_world itr chunk_size = (st, Finished) ->
  out st = map val (emitted st)
  /\ Permutation (out st) (filter (fun x => negb (nonfinite x)) itr)
  /\ 8 * Z.of_nat (length (filter nonfinite itr)) <= small_tail_bytes.
Proof.
  intros Hcs H.
  apply stream_sort_finished in H. destruct H as (st1 & u & B & O & E).
  apply body_ok_shape in B; [|exact Hcs].
  destruct B as (Ho & Pf & Ps).
  rewrite O, E. split; [exact Ho|]. split; [rewrite Ho; exact Pf | exact Ps].
Qed.

(** ** Empty input *)



(** ** The scratch budget *)

Lemma chunk_size_bytes_pos (c : list rec * (Z * Z)) : 0 < chunk_size_bytes c.
Proof. unfold chunk_size_bytes. lia. Qed.

Lemma chunk_bytes_nonneg (l : list (Z * (list rec * (Z * Z)))) : 0 <= chunk_bytes l.
Proof.
  induction l as [|[i c] l IH]; cbn [chunk_bytes fold_right snd].
  - lia.
  - pose proof (chunk_size_bytes_pos c). unfold chunk_bytes in IH. lia.
Qed.

Lemma chunk_bytes_remove (i : Z) (l : list (Z * (list rec * (Z * Z)))) :
  chunk_bytes (chunk_remove i l)
  + match chunk_lookup i l with Some c => chunk_size_bytes c | None => 0 end
  <= chunk_bytes l.
Proof.
  induction l as [|[j c] l IH]; cbn [chunk_remove filter chunk_lookup fst].
  - cbn. lia.
  - pose proof (chunk_size_bytes_pos c).
    pose proof (chunk_bytes_nonneg (chunk_remove i l)) as Hn.
    unfold chunk_remove in *.
    destruct (Z.eqb_spec i j) as [E|E]; cbn [negb chunk_bytes fold_right snd].
    + destruct (chunk_lookup i l) as [c0|];
        [pose proof (chunk_size_bytes_pos c0)|]; unfold chunk_bytes in *; lia.
    + unfold chunk_bytes in *. lia.
Qed.

Lemma opt_size_nonneg (o : option (list Z)) : 0 <= opt_size o.
Proof. destruct o; unfold opt_size, words_size_bytes; lia. Qed.

Lemma fs_bytes_nonneg (w : World) : 0 <= fs_bytes w.
Proof.
  unfold fs_bytes. pose proof (chunk_bytes_nonneg (chunk_files w)).
  pose proof (opt_size_nonneg (tail_tmp_file w)).
  pose proof (opt_size_nonneg (tail_fin_file w)). lia.
Qed.

Lemma safe_bind {A B} (mx : Z) (m : M A) (k : A -> M B) :
  quota_safe mx m -> (forall a, quota_safe mx (k a)) -> quota_safe mx (bind m k).
Proof.
  intros Hm Hk st st' r H J. apply bind_cases in H.
  destruct H as [(e & H & ->)|(st1 & a & H1 & H2)].
  - destruct (Hm _ _ _ H J) as [E|J']; [left; congruence | right; exact J'].
  - destruct (Hm _ _ _ H1 J) as [E|J']; [discriminate E|].
    eapply Hk; eassumption.
Qed.

Lemma safe_preserves {A} (mx : Z) (m : M A) :
  preserves (budget_inv mx) m -> quota_safe mx m.
Proof. intros Hp st st' r H J. right. eapply Hp; eassumption. Qed.

Lemma safe_ret {A} (mx : Z) (a : A) : quota_safe mx (ret a).
Proof. apply safe_preserves, preserves_ret. Qed.

Lemma safe_raise {A} (mx : Z) (e : exn) : quota_safe mx (@raise A e).
Proof. apply safe_preserves, preserves_raise. Qed.

Lemma safe_get (mx : Z) : quota_safe mx get.
Proof. apply safe_preserves, preserves_get. Qed.

Lemma safe_modify (mx : Z) (f : St -> St) :
  (forall st, budget_inv mx st -> budget_inv mx (f st)) -> quota_safe mx (modify f).
Proof. intros Hf. apply safe_preserves, preserves_modify. exact Hf. Qed.

Lemma safe_with_rng {A} (mx : Z) (f : Rng.state -> option (A * Rng.state)) :
  quota_safe mx (with_rng f).
Proof.
  intros st st' r H J. right. unfold with_rng in H.
  destruct (f (XiSort.rng (self st))) as [[a r']|]; inversion H; subst.
  - unfold budget_inv in *. st_simpl. exact J.
  - exact J.
Qed.

Lemma safe_forM {A} (mx : Z) (l : list A) (f : A -> M unit) :
  (forall x, quota_safe mx (f x)) -> quota_safe mx (forM_ l f).
Proof.
  intros Hf. induction l as [|x l IH]; cbn [forM_].
  - apply safe_ret.
  - apply safe_bind; [apply Hf | intros _; exact IH].
Qed.

(** Appending to the tail and charging it, as one step. *)
Lemma safe_append_budget (mx : Z) (ws : list Z) :
  quota_safe mx (append_tail_tmp ws ;;; _budget (8 * Z.of_nat (length ws))).
Proof.
  intros st st' r H J.
  remember (8 * Z.of_nat (length ws)) as n eqn:En.
  unfold bind, append_tail_tmp, _budget in H.
  destruct (wd_exists (world st)); cbn [negb] in H.
  2: { inversion H; subst. right. exact J. }
  destruct J as (Hm & Hb & Hl).
  st_simpl.
  destruct (Z.gtb_spec (Z.max (XiSort.disk (self st) + n) 0)
              (XiSort.max (self st))) as [Hgt|Hle];
    injection H as <- <-; [left; reflexivity | right].
  unfold budget_inv. st_simpl.
  assert (Hw : fs_bytes (mkWorld true (chunk_files (world st))
                           (Some (match tail_tmp_file (world st) with
                                  | Some x => x | None => [] end ++ ws))
                           (tail_fin_file (world st)))
               = fs_bytes (world st) + n).
  { unfold fs_bytes, opt_size, words_size_bytes.
    cbn [chunk_files tail_tmp_file tail_fin_file].
    destruct (tail_tmp_file (world st)); rewrite length_app; cbn [length]; lia. }
  rewrite Hw. pose proof (fs_bytes_nonneg (world st)).
  split; [first [reflexivity | exact Hm]|]. split; [lia|]. constructor; [lia | exact Hl].
Qed.

(** Sealing the tail: the tag is appended, the file renamed, and only then
    charged. *)
Lemma safe_seal_tail (mx : Z) (L : Lib) : quota_safe mx (seal_tail L).
Proof.
  intros st st' r H J. unfold seal_tail, bind, get in H.
  destruct (tail_tmp st) as [p|].
  2: { inversion H; subst. right. exact J. }
  unfold append_tail_tmp, modify, rename_tail, _budget in H.
  destruct (wd_exists (world st)); cbn [negb] in H.
  2: { inversion H; subst. right. exact J. }
  destruct J as (Hm & Hb & Hl).
  st_simpl.
  destruct (Z.gtb_spec (Z.max (XiSort.disk (self st) + 16) 0) (XiSort.max (self st)))
    as [Hgt|Hle]; injection H as <- <-; [left; reflexivity | right].
  unfold budget_inv. st_simpl.
  set (old := match tail_tmp_file (world st) with Some x => x | None => [] end).
  set (tag := [fst (blake3_16 L (h_tail st)); snd (blake3_16 L (h_tail st))]).
  assert (H1 : fs_bytes (mkWorld true (chunk_files (world st)) (Some (old ++ tag))
                           (tail_fin_file (world st)))
               = fs_bytes (world st) + 16).
  { unfold fs_bytes, opt_size, words_size_bytes, old, tag. st_simpl.
    destruct (tail_tmp_file (world st)); rewrite length_app; cbn [length]; lia. }
  assert (H2 : fs_bytes (mkWorld true (chunk_files (world st)) None (Some (old ++ tag)))
               <= fs_bytes (world st) + 16).
  { pose proof (opt_size_nonneg (tail_fin_file (world st))).
    unfold fs_bytes, opt_size, words_size_bytes, old, tag in *. st_simpl.
    destruct (tail_tmp_file (world st)); rewrite length_app; cbn [length]; lia. }
  pose proof (fs_bytes_nonneg (world st)).
  split; [first [reflexivity | exact Hm]|]. split; [lia|].
  constructor; [lia|]. constructor; [lia | exact Hl].
Qed.

(** Writing a chunk file and charging its size, as one step. *)
Lemma safe_write_chunk_unit (mx : Z) (i : Z) (recs : list rec) (tag : Z * Z)
    (k : unit -> M unit) :
  (forall a, quota_safe mx (k a)) ->
  quota_safe mx (write_chunk_file i recs tag ;;;
                 st <- get ;;
                 bind (_budget (fs_getsize (world st) (Chunk i))) k).
Proof.
  intros Hk st st' r H J. unfold bind at 1 2, write_chunk_file, get in H.
  destruct (wd_exists (world st)) eqn:W; cbn [negb] in H.
  2: { inversion H; subst. right. exact J. }
  st_simpl.
  assert (Hsz : fs_getsize
                  (mkWorld true ((i, (recs, tag)) :: chunk_remove i (chunk_files (world st)))
                     (tail_tmp_file (world st)) (tail_fin_file (world st))) (Chunk i)
                = chunk_size_bytes (recs, tag)).
  { unfold fs_getsize. st_simpl. cbn [chunk_lookup]. rewrite Z.eqb_refl. reflexivity. }
  rewrite Hsz in H.
  apply bind_cases in H. destruct H as [(e & H & ->)|(st1 & a & H1 & H2)].
  - unfold _budget in H. st_simpl.
    destruct (_ >? _); inversion H; subst. left. reflexivity.
  - eapply Hk; [exact H2|].
    apply budget_ok in H1. destruct H1 as [-> Hb1]. st_simpl.
    destruct J as (Hm & Hb & Hl).
    pose proof (chunk_size_bytes_pos (recs, tag)) as Hp.
    pose proof (chunk_bytes_remove i (chunk_files (world st))) as Hr.
    pose proof (fs_bytes_nonneg (world st)) as Hn.
    assert (H0 : 0 <= match chunk_lookup i (chunk_files (world st)) with
                      | Some c => chunk_size_bytes c | None => 0 end).
    { destruct (chunk_lookup i (chunk_files (world st))) as [c|]; [|lia].
      pose proof (chunk_size_bytes_pos c). lia. }
    unfold budget_inv. st_simpl.
    assert (Hw : fs_bytes
                   (mkWorld true ((i, (recs, tag)) :: chunk_remove i (chunk_files (world st)))
                      (tail_tmp_file (world st)) (tail_fin_file (world st)))
                 <= fs_bytes (world st) + chunk_size_bytes (recs, tag)).
    { unfold fs_bytes. st_simpl. cbn [chunk_bytes fold_right snd].
      unfold chunk_bytes in *. lia. }
    split; [first [reflexivity | exact Hm]|]. split; [lia|]. constructor; [lia | exact Hl].
Qed.

Lemma safe_remove_path (mx : Z) (p : fname) : quota_safe mx (remove_path p).
Proof.
  intros st st' r H J. unfold remove_path, bind, get, modify, _budget in H.
  destruct (fs_exists (world st) p).
  2: { inversion H; subst. right. exact J. }
  st_simpl. destruct J as (Hm & Hb & Hl).
  assert (Hw : fs_bytes (fs_remove (world st) p) + fs_getsize (world st) p
               <= fs_bytes (world st)
               /\ 0 <= fs_getsize (world st) p).
  { pose proof (opt_size_nonneg (tail_tmp_file (world st))).
    pose proof (opt_size_nonneg (tail_fin_file (world st))).
    destruct p as [i| |]; unfold fs_bytes, fs_remove, fs_getsize; st_simpl;
      cbn [opt_size]; try lia.
    pose proof (chunk_bytes_remove i (chunk_files (world st))) as Hr.
    destruct (chunk_lookup i (chunk_files (world st))) as [c|].
    - pose proof (chunk_size_bytes_pos c). lia.
    - lia. }
  destruct Hw as [Hw1 Hw2].
  pose proof (fs_bytes_nonneg (fs_remove (world st) p)) as Hn.
  destruct (Z.gtb_spec (Z.max (XiSort.disk (self st) + - fs_getsize (world st) p) 0)
              (XiSort.max (self st))) as [Hgt|Hle];
    injection H as <- <-; [lia | right].
  unfold budget_inv. st_simpl.
  split; [first [reflexivity | exact Hm]|]. split; [lia|]. constructor; [lia | exact Hl].
Qed.

Ltac budget_same :=
  let st := fresh "st" in
  let J := fresh "J" in
  intros st J; unfold budget_inv in *; st_simpl; exact J.

Lemma safe_make_ties (mx : Z) (tb : TieBreak) (g : Z) (keys : list Z) :
  quota_safe mx (make_ties tb g keys).
Proof.
  destruct tb; cbn [make_ties]; try apply safe_ret;
    (apply safe_bind; [apply safe_with_rng | intros rs; apply safe_ret]).
Qed.

Lemma safe_write_tail (mx : Z) (fuel : nat) (nonfin : list double) :
  quota_safe mx (write_tail fuel nonfin).
Proof.
  unfold write_tail.
  apply safe_bind; [apply safe_modify; budget_same | intros _].
  apply safe_bind; [apply safe_get | intros st].
  apply safe_bind; [destruct (XiSort.nan (self st)); [apply safe_with_rng | apply safe_ret]
                   | intros tail].
  apply safe_bind; [apply safe_modify; budget_same | intros _].
  apply safe_append_budget.
Qed.

Lemma safe_write_chunk (mx : Z) (L : Lib) (finite : list double) :
  quota_safe mx (write_chunk L finite).
Proof.
  unfold write_chunk.
  apply safe_bind; [apply safe_get | intros st]. cbv zeta.
  destruct (_ >? _); [apply safe_raise|].
  apply safe_bind; [apply safe_make_ties | intros ties].
  apply safe_bind; [apply safe_modify; budget_same | intros _].
  apply safe_write_chunk_unit. intros _.
  apply safe_bind; [apply safe_modify; budget_same | intros _].
  apply safe_modify; budget_same.
Qed.

Lemma safe_process_chunk (mx : Z) (L : Lib) (fuel : nat) (arr : list double) :
  quota_safe mx (process_chunk L fuel arr).
Proof.
  unfold process_chunk.
  apply safe_bind.
  - destruct (existsb nonfinite arr); [apply safe_write_tail | apply safe_ret].
  - intros _. destruct (filter _ arr); [apply safe_ret | apply safe_write_chunk].
Qed.

Lemma safe_merge_phase (mx : Z) (L : Lib) : quota_safe mx (merge_phase L).
Proof.
  unfold merge_phase.
  apply safe_bind; [apply safe_get | intros st]. cbv zeta.
  destruct (heapq_merge _) as [recs err].
  apply safe_bind; [apply safe_modify; budget_same | intros _].
  destruct err; [apply safe_raise | apply safe_ret].
Qed.

Lemma safe_tail_emit (mx : Z) (fuel : nat) : quota_safe mx (_tail_emit fuel).
Proof.
  intros st st' r H HP. right. apply tail_emit_same in H. subst st'. exact HP.
Qed.

Lemma safe_body (mx : Z) (L : Lib) (fuel : nat) (itr : list double) (chunk_size : Z) :
  quota_safe mx (stream_sort_body L fuel itr chunk_size).
Proof.
  unfold stream_sort_body.
  apply safe_bind.
  { destruct (chunk_size <=? 0); [apply safe_ret|].
    apply safe_forM. intros arr. apply safe_process_chunk. }
  intros _. apply safe_bind; [apply safe_seal_tail | intros _].
  apply safe_bind; [apply safe_merge_phase | intros _].
  apply safe_bind; [apply safe_get | intros st].
  destruct (tail_fin st); [apply safe_tail_emit | apply safe_ret].
Qed.

Lemma safe_rmdir (mx : Z) : quota_safe mx rmdir_if_empty.
Proof.
  unfold rmdir_if_empty. apply safe_modify. intros st J. cbv zeta.
  destruct (_ && _); [|exact J].
  destruct J as (Hm & Hb & Hl). unfold budget_inv. st_simpl.
  assert (Hw : fs_bytes (mkWorld false (chunk_files (world st)) (tail_tmp_file (world st))
                           (tail_fin_file (world st))) = fs_bytes (world st))
    by reflexivity.
  rewrite Hw. split; [exact Hm|]. split; [exact Hb|]. constructor; [lia | exact Hl].
Qed.

Lemma safe_cleanup (mx : Z) (L : Lib) : quota_safe mx (cleanup L).
Proof.
  unfold cleanup.
  apply safe_bind; [apply safe_get | intros st]. cbv zeta.
  apply safe_bind; [|intros _; apply safe_rmdir].
  apply safe_forM. intros p. apply safe_remove_path.
Qed.

(** The only error of the [finally] block is the quota error of its own
    [_budget] calls. *)
Lemma remove_path_raises (p : fname) (st st' : St) (a : abort) :
  remove_path p st = (st', inl a) -> a = Exn MemoryError_quota.
Proof.
  unfold remove_path, bind, get, modify, _budget, ret.
  destruct (fs_exists (world st) p); [|discriminate].
  destruct (_ >? _); intros H; inversion H; reflexivity.
Qed.

Lemma forM_remove_raises (l : list fname) (st st' : St) (a : abort) :
  forM_ l remove_path st = (st', inl a) -> a = Exn MemoryError_quota.
Proof.
  revert st. induction l as [|p l IH]; intros st H; cbn [forM_] in H.
  - discriminate H.
  - apply bind_cases in H. destruct H as [(e & H & E)|(st1 & u & H1 & H2)].
    + apply remove_path_raises in H. congruence.
    + eapply IH. exact H2.
Qed.

Lemma cleanup_raises (L : Lib) (st st' : St) (a : abort) :
  cleanup L st = (st', inl a) -> a = Exn MemoryError_quota.
Proof.
  unfold cleanup. intros H.
  apply bind_cases in H. destruct H as [(e & H & E)|(st1 & st0 & H1 & H2)].
  - discriminate H.
  - cbv zeta in H2. apply bind_cases in H2.
    destruct H2 as [(e & H & E)|(st2 & u & H3 & H4)].
    + apply forM_remove_raises in H. congruence.
    + discriminate H4.
Qed.

(** C8 (amended).  When the sorter's counter covers what is already in the
    directory and is within the quota (a fresh sorter with a non-negative
    quota in a fresh directory), every run of [stream_sort] either fails with
    the quota [MemoryError], from the [try] block or from the cleanup, or has
    kept the bytes of the scratch directory within [max_bytes] after every
    change of the directory. *)
Theorem stream_sort_within_quota_or_memory_error (L : Lib) (fuel : nat) (s : XiSort.t)
    (w : World) (itr : list double) (chunk_size : Z) :
  fs_bytes w <= XiSort.disk s <= XiSort.max s ->
  let r := stream_sort L fuel s w itr chunk_size in
  snd r = Raised MemoryError_quota
  \/ snd r = RaisedInCleanup MemoryError_quota
  \/ Forall (fun b => b <= XiSort.max s) (log (fst r)).
Proof.
  intros Hb. cbv zeta. unfold stream_sort.
  assert (J0 : budget_inv (XiSort.max s) (mkSt s w [] None None [] [] [] [])).
  { split; [reflexivity|]. split; [exact Hb | constructor]. }
  destruct (stream_sort_body L fuel itr chunk_size (mkSt s w [] None None [] [] [] []))
    as [st1 rb] eqn:Eb.
  destruct (safe_body (XiSort.max s) L fuel itr chunk_size _ _ _ Eb J0) as [E|J1].
  - subst rb.
    destruct (cleanup L st1) as [st2 rc] eqn:Ec.
    destruct rc as [a|u].
    + apply cleanup_raises in Ec. subst a. right. left. reflexivity.
    + left. reflexivity.
  - assert (Hc : forall st2 rc, cleanup L st1 = (st2, rc) ->
                   rc = inl (Exn MemoryError_quota)
                   \/ Forall (fun b => b <= XiSort.max s) (log st2)).
    { intros st2 rc Ec.
      destruct (safe_cleanup (XiSort.max s) L _ _ _ Ec J1) as [E|(_ & _ & Hl)];
        [left; exact E | right; exact Hl]. }
    destruct J1 as (_ & _ & Hl1).
    destruct rb as [[e|]|u].
    + destruct (cleanup L st1) as [st2 rc] eqn:Ec.
      destruct (Hc _ _ eq_refl) as [E|Hl].
      * subst rc. right. left. reflexivity.
      * right. right. destruct rc as [[e'|]|u']; exact Hl.
    + right. right. exact Hl1.
    + destruct (cleanup L st1) as [st2 rc] eqn:Ec.
      destruct (Hc _ _ eq_refl) as [E|Hl].
      * subst rc. right. left. reflexivity.
      * right. right. destruct rc as [[e'|]|u']; exact Hl.
Qed.

Lemma stream_sort_within_quota_witness :
  let r := stream_sort demo_lib 64 (sorter_of 0 default_config) fresh_world
             [two; qnan; one] 2 in
  snd r = Raised MemoryError_quota
  \/ snd r = RaisedInCleanup MemoryError_quota
  \/ Forall (fun b => b <= XiSort.max (sorter_of 0 default_config)) (log (fst r)).
Proof.
  apply (stream_sort_within_quota_or_memory_error demo_lib 64
           (sorter_of 0 default_config) fresh_world [two; qnan; one] 2).
  vm_compute. split; discriminate.
Defined.

(** ** Runs without errors *)

Lemma runs_bind {A B} (P : St -> Prop) (m : M A) (k : A -> M B) (F : Prop)
    (Q : A -> St -> Prop) (R : B -> St -> Prop) :
  runs P m F Q -> (forall a, runs (Q a) (k a) F R) -> runs P (bind m k) F R.
Proof.
  intros Hm Hk st st' r H HP. apply bind_cases in H.
  destruct H as [(e & H & ->)|(st1 & a & H1 & H2)].
  - specialize (Hm _ _ _ H HP). destruct e; exact Hm.
  - specialize (Hm _ _ _ H1 HP). exact (Hk a _ _ _ H2 Hm).
Qed.

Lemma runs_weaken {A} (P P' : St -> Prop) (m : M A) (F F' : Prop)
    (Q Q' : A -> St -> Prop) :
  runs P m F Q -> (forall st, P' st -> P st) -> (F -> F') ->
  (forall a st, Q a st -> Q' a st) -> runs P' m F' Q'.
Proof.
  intros Hm HP HF HQ st st' r H HP'. specialize (Hm _ _ _ H (HP _ HP')).
  destruct r as [[e|]|a]; auto.
Qed.

Lemma runs_ret {A} (P : St -> Prop) (a : A) (F : Prop) :
  runs P (ret a) F (fun x st => x = a /\ P st).
Proof. intros st st' r H HP. inversion H; subst. split; [reflexivity | exact HP]. Qed.

Lemma runs_get (P : St -> Prop) (F : Prop) :
  runs P get F (fun x st => x = st /\ P st).
Proof. intros st st' r H HP. inversion H; subst. split; [reflexivity | exact HP]. Qed.

Lemma runs_modify (P Q : St -> Prop) (f : St -> St) (F : Prop) :
  (forall st, P st -> Q (f st)) -> runs P (modify f) F (fun _ => Q).
Proof. intros Hf st st' r H HP. inversion H; subst. auto. Qed.

Lemma runs_with_rng {A} (P : St -> Prop) (f : Rng.state -> option (A * Rng.state))
    (F : Prop) (Q : A -> St -> Prop) :
  F ->
  (forall st a r, P st -> f (XiSort.rng (self st)) = Some (a, r) ->
                  Q a (set_self st (XiSort.set_rng (self st) r))) ->
  runs P (with_rng f) F Q.
Proof.
  intros HF HQ st st' r H HP. unfold with_rng in H.
  destruct (f (XiSort.rng (self st))) as [[a r']|] eqn:E; inversion H; subst.
  - apply HQ; assumption.
  - exact HF.
Qed.

Lemma runs_forM {A} (F : Prop) (f : A -> M unit) (l : list A)
    (I : list A -> St -> Prop) :
  (forall x l', runs (I (x :: l')) (f x) F (fun _ => I l')) ->
  runs (I l) (forM_ l f) F (fun _ => I []).
Proof.
  intros Hf. induction l as [|x l IH]; cbn [forM_].
  - intros st st' r H HP. inversion H; subst. exact HP.
  - eapply runs_bind; [apply Hf | intros u; exact IH].
Qed.

Lemma room_mono (L : Lib) (b b' q q' : Z) (c c' : bool) (st : St) :
  room L b q c st -> b' <= b -> q' <= q -> (c' = true -> c = true) -> room L b' q' c' st.
Proof.
  intros (W & D0 & D & G & T & C) Hb Hq Hc.
  repeat (split; [first [assumption | lia]|]). intros E. apply C, Hc, E.
Qed.

Ltac room_same :=
  match goal with
  | HP : room _ _ _ _ _ |- _ =>
      unfold room, tags_ok in *; st_simpl;
      destruct HP as (?W & ?D0 & ?D & ?G & ?T & ?C);
      repeat (split; [assumption|]);
      first [assumption | discriminate]
  end.

Lemma runs_append_budget (L : Lib) (ws : list Z) (b q : Z) (F : Prop) :
  0 <= b ->
  runs (room L (8 * Z.of_nat (length ws) + b) q false)
       (append_tail_tmp ws ;;; _budget (8 * Z.of_nat (length ws))) F
       (fun _ => room L b q false).
Proof.
  intros Hb st st' r H (W & D0 & D & G & T & C).
  remember (8 * Z.of_nat (length ws)) as n eqn:En.
  unfold bind, append_tail_tmp, _budget in H. rewrite W in H. cbn [negb] in H.
  st_simpl.
  destruct (Z.gtb_spec (Z.max (XiSort.disk (self st) + n) 0) (XiSort.max (self st)))
    as [Hgt|Hle]; injection H as <- <-; [lia|].
  unfold room, tags_ok. st_simpl.
  repeat (split; [first [assumption | reflexivity | lia]|]). discriminate.
Qed.

Lemma runs_write_tail (L : Lib) (fuel : nat) (nonfin : list double) (b q : Z) (c : bool) :
  0 <= b ->
  runs (room L (8 * Z.of_nat (length nonfin) + b) q c) (write_tail fuel nonfin) True
       (fun _ => room L b q false).
Proof.
  intros Hb. set (P := room L (8 * Z.of_nat (length nonfin) + b) q false).
  unfold write_tail.
  eapply runs_bind.
  { apply (runs_modify _ P). intros st HP. 
    apply (room_mono L _ (8 * Z.of_nat (length nonfin) + b) _ q _ false) in HP;
      [| lia | lia | discriminate].
    unfold P. room_same. }
  intros u. eapply runs_bind; [apply runs_get | intros st0].
  apply (runs_bind _ _ _ _ (fun tail st => length tail = length nonfin /\ P st)).
  { destruct (XiSort.nan (self st0)).
    - apply runs_with_rng; [exact I|]. intros st a r [_ HP] Hs. split.
      + apply shuffle_perm in Hs. apply Permutation_length. exact Hs.
      + unfold P in *. room_same.
    - intros st st' r H [_ HP]. inversion H; subst. split; [reflexivity | exact HP]. }
  intros tail.
  apply (runs_bind _ _ _ _ (fun _ st => length tail = length nonfin /\ P st)).
  { apply runs_modify. intros st [E HP]. split; [exact E|]. unfold P in *. room_same. }
  intros u2.
  eapply runs_weaken; [apply (runs_append_budget L tail b q True Hb) | | auto | auto].
  intros st [E HP]. rewrite E. exact HP.
Qed.

Lemma runs_make_ties (L : Lib) (b q : Z) (c : bool) (tb : TieBreak) (g : Z)
    (keys : list Z) :
  runs (room L b q c) (make_ties tb g keys) False
       (fun ties st => length ties = length keys /\ room L b q c st).
Proof.
  intros st st' r H HP.
  assert (Hlen : forall ties, r = inr ties -> length ties = length keys).
  { intros ties ->. apply make_ties_ok in H. apply H. }
  destruct tb; cbn [make_ties] in H; unfold bind, with_rng, ret in H;
    try destruct (Rng.rand (length keys) (XiSort.rng (self st))) as [rs r'];
    injection H as <- E; subst r;
    (split; [apply Hlen; reflexivity | room_same]).
Qed.

Lemma tag_lookup_write (L : Lib) (i j : Z) (recs : list rec)
    (files : list (Z * (list rec * (Z * Z)))) :
  match chunk_lookup j files with
  | Some (rs, tag) => tag = blake3_16 L (concat (map rec_words rs))
  | None => True
  end ->
  match chunk_lookup j ((i, (recs, blake3_16 L (concat (map rec_words recs))))
                          :: chunk_remove i files) with
  | Some (rs, tag) => tag = blake3_16 L (concat (map rec_words rs))
  | None => True
  end.
Proof.
  intros H. cbn [chunk_lookup].
  destruct (Z.eqb_spec j i) as [E|E]; [reflexivity|].
  rewrite chunk_lookup_remove_ne by exact E. exact H.
Qed.

(** Writing a chunk file, charging it and registering it. *)
Lemma runs_write_chunk_unit (L : Lib) (i : Z) (recs : list rec) (b q : Z) (c : bool)
    (F : Prop) :
  0 <= b ->
  runs (room L (32 * Z.of_nat (length recs) + 16 + b) q c)
       (write_chunk_file i recs (blake3_16 L (concat (map rec_words recs))) ;;;
        st <- get ;;
        _budget (fs_getsize (world st) (Chunk i)) ;;;
        modify (fun st => set_chunks st (chunks st ++ [i])) ;;;
        modify (fun st => set_self st (XiSort.set_idx (self st) (XiSort.idx (self st) + 1))))
       F (fun _ => room L b q c).
Proof.
  intros Hb st st' r H (W & D0 & D & G & T & C).
  set (tag := blake3_16 L (concat (map rec_words recs))) in *.
  assert (Hc : chunk_size_bytes (recs, tag) = 32 * Z.of_nat (length recs) + 16)
    by reflexivity.
  remember (32 * Z.of_nat (length recs) + 16) as n eqn:En.
  unfold bind, write_chunk_file, get, _budget, modify in H.
  rewrite W in H. cbn [negb] in H.
  assert (Hsz : fs_getsize
                  (mkWorld true ((i, (recs, tag)) :: chunk_remove i (chunk_files (world st)))
                     (tail_tmp_file (world st)) (tail_fin_file (world st))) (Chunk i)
                = n).
  { unfold fs_getsize. cbn [chunk_files chunk_lookup]. rewrite Z.eqb_refl. exact Hc. }
  st_simpl. rewrite Hsz in H.
  destruct (Z.gtb_spec (Z.max (XiSort.disk (self st) + n) 0) (XiSort.max (self st)))
    as [Hgt|Hle]; injection H as <- <-; [lia|].
  unfold room, tags_ok. st_simpl.
  repeat (split; [first [assumption | reflexivity | lia]|]).
  split; [|exact C].
  apply Forall_app. split.
  - eapply Forall_impl; [|exact T]. intros j Hj. apply tag_lookup_write. exact Hj.
  - constructor; [|constructor]. cbn [chunk_lookup]. rewrite Z.eqb_refl. reflexivity.
Qed.

Lemma room_set_gseq (L : Lib) (b q f : Z) (c : bool) (st : St) :
  room L b (f + q) c st ->
  room L b q c (set_self st (XiSort.set_gseq (self st) (XiSort.gseq (self st) + f))).
Proof.
  intros (W & D0 & D & G & T & C). unfold room, tags_ok in *. st_simpl.
  repeat (split; [first [assumption | lia]|]). exact C.
Qed.

Lemma zip_recs_length (vs : list double) (ks : list Z) (ts : list tieval) (s : Z) :
  length ks = length vs -> length ts = length vs ->
  length (np_sort (zip_recs vs ks ts s)) = length vs.
Proof.
  intros Hk Ht. rewrite (Permutation_length (np_sort_perm _)).
  rewrite <- (zip_recs_val vs ks ts s Hk Ht) at 2. rewrite length_map. reflexivity.
Qed.

Lemma runs_write_chunk (L : Lib) (finite : list double) (b q : Z) (c : bool) :
  0 <= b -> 0 <= q ->
  runs (room L (32 * Z.of_nat (length finite) + 16 + b) (Z.of_nat (length finite) + q) c)
       (write_chunk L finite) False (fun _ => room L b q c).
Proof.
  intros Hb Hq st st' r H HP.
  unfold write_chunk in H. unfold bind at 1, get at 1 in H. cbv beta iota zeta in H.
  destruct (Z.gtb_spec (XiSort.gseq (self st) + Z.of_nat (length finite))
              (XiSort._maxseq (self st))) as [Hgt|Hle].
  { destruct HP as (_ & _ & _ & G & _). lia. }
  set (keys := ieee_key (_metric L (XiSort.mode (self st)) (XiSort.eps (self st)) finite))
    in H.
  assert (Hk : length keys = length finite).
  { unfold keys, ieee_key. rewrite length_map. apply metric_length. }
  refine ((_ : runs (room L (32 * Z.of_nat (length finite) + 16 + b)
                       (Z.of_nat (length finite) + q) c) _ False
                 (fun _ => room L b q c)) st st' r H HP).
  eapply runs_bind; [apply runs_make_ties | intros ties]. cbv beta.
  apply (runs_bind _ _ _ _
           (fun _ st1 => length ties = length keys
                         /\ room L (32 * Z.of_nat (length finite) + 16 + b) q c st1)).
  { apply runs_modify. intros st1 [E HP1]. split; [exact E|].
    apply room_set_gseq. exact HP1. }
  intros u.
  eapply runs_weaken;
    [apply (runs_write_chunk_unit L _ _ b q c False Hb) | | auto | auto].
  intros st1 [E HP1]. cbv beta.
  rewrite zip_recs_length; [exact HP1 | exact Hk | congruence].
Qed.

Lemma scratch_need_split (arr : list double) :
  Z.of_nat (length (filter nonfinite arr)) + count_finite arr = Z.of_nat (length arr).
Proof. unfold count_finite. rewrite <- (filter_length nonfinite arr). lia. Qed.

Lemma runs_process_chunk (L : Lib) (fuel : nat) (arr : list double) (b q : Z) (c : bool) :
  0 <= b -> 0 <= q ->
  runs (room L (scratch_need arr + b) (count_finite arr + q) c)
       (process_chunk L fuel arr) (existsb nonfinite arr = true)
       (fun _ => room L b q (c && negb (existsb nonfinite arr))).
Proof.
  intros Hb Hq. unfold process_chunk, scratch_need, count_finite.
  set (fin := filter (fun x => negb (nonfinite x)) arr).
  set (nf := filter nonfinite arr).
  set (c' := c && negb (existsb nonfinite arr)).
  apply (runs_bind _ _ _ _
           (fun _ => room L (48 * Z.of_nat (length fin) + b) (Z.of_nat (length fin) + q) c')).
  - destruct (existsb nonfinite arr) eqn:E.
    + eapply runs_weaken;
        [apply (runs_write_tail L fuel nf (48 * Z.of_nat (length fin) + b)
                  (Z.of_nat (length fin) + q) c); lia | | auto | ].
      * intros st HP. eapply room_mono; [exact HP | lia | lia | auto].
      * intros u st HP. eapply room_mono; [exact HP | lia | lia |].
        unfold c'. rewrite andb_false_r. auto.
    + intros st st' r H HP. inversion H; subst.
      eapply room_mono; [exact HP | | lia |].
      * pose proof (filter_existsb_false nonfinite arr E) as Hn. fold nf in Hn.
        rewrite Hn. cbn [length]. lia.
      * unfold c'. rewrite andb_true_r. auto.
  - intros u. destruct fin as [|x fin'] eqn:Ef.
    + intros st st' r H HP. inversion H; subst.
      eapply room_mono; [exact HP | cbn [length]; lia | cbn [length]; lia | auto].
    + rewrite <- Ef. eapply runs_weaken;
        [apply (runs_write_chunk L fin b q c' Hb Hq) | | intros [] | auto].
      intros st HP. eapply room_mono; [exact HP | | lia | auto].
      rewrite Ef. cbn [length]. lia.
Qed.

Lemma count_finite_nonneg (l : list double) : 0 <= count_finite l.
Proof. unfold count_finite. lia. Qed.

Lemma scratch_need_nonneg (l : list double) : 0 <= scratch_need l.
Proof. unfold scratch_need. pose proof (count_finite_nonneg l). lia. Qed.

Lemma count_finite_app (l1 l2 : list double) :
  count_finite (l1 ++ l2) = count_finite l1 + count_finite l2.
Proof. unfold count_finite. rewrite filter_app, length_app. lia. Qed.

Lemma scratch_need_app (l1 l2 : list double) :
  scratch_need (l1 ++ l2) = scratch_need l1 + scratch_need l2.
Proof.
  unfold scratch_need. rewrite count_finite_app, filter_app, length_app. lia.
Qed.

Lemma runs_chunks (L : Lib) (fuel : nat) (cs : list (list double)) (b q : Z) (c : bool) :
  0 <= b -> 0 <= q ->
  runs (room L (scratch_need (concat cs) + b) (count_finite (concat cs) + q) c)
       (forM_ cs (process_chunk L fuel)) (existsb nonfinite (concat cs) = true)
       (fun _ => room L b q (c && negb (existsb nonfinite (concat cs)))).
Proof.
  intros Hb Hq. revert c. induction cs as [|a cs IH]; intros c; cbn [forM_ concat].
  - intros st st' r H HP. inversion H; subst.
    eapply room_mono; [exact HP | cbn; lia | cbn; lia |].
    cbn [existsb negb]. rewrite andb_true_r. auto.
  - pose proof (scratch_need_nonneg (concat cs)) as Hs.
    pose proof (count_finite_nonneg (concat cs)) as Hc.
    apply (runs_bind _ _ _ _
             (fun _ => room L (scratch_need (concat cs) + b) (count_finite (concat cs) + q)
                         (c && negb (existsb nonfinite a)))).
    + eapply runs_weaken;
        [apply (runs_process_chunk L fuel a (scratch_need (concat cs) + b)
                  (count_finite (concat cs) + q) c); lia | | | auto].
      * intros st HP. rewrite scratch_need_app, count_finite_app in HP.
        eapply room_mono; [exact HP | lia | lia | auto].
      * intros E. rewrite existsb_app, E. reflexivity.
    + intros u. eapply runs_weaken; [apply IH | intros st HP; exact HP | | ].
      * intros E. rewrite existsb_app, E. apply orb_true_r.
      * intros u' st HP. eapply room_mono; [exact HP | lia | lia |].
        rewrite existsb_app.
        destruct c, (existsb nonfinite a), (existsb nonfinite (concat cs)); auto.
Qed.

Lemma runs_seal_tail (L : Lib) (b q : Z) (c : bool) :
  0 <= b -> runs (room L (16 + b) q c) (seal_tail L) False (fun _ => room L b q c).
Proof.
  intros Hb st st' r H (W & D0 & D & G & T & C). unfold seal_tail, bind, get in H.
  destruct (tail_tmp st) as [p|] eqn:Et.
  2: { inversion H; subst. unfold room. rewrite Et.
       repeat (split; [first [assumption | lia]|]). exact C. }
  unfold append_tail_tmp, modify, rename_tail, _budget in H.
  rewrite W in H. cbn [negb] in H. st_simpl.
  destruct (Z.gtb_spec (Z.max (XiSort.disk (self st) + 16) 0) (XiSort.max (self st)))
    as [Hgt|Hle]; injection H as <- <-; [lia|].
  unfold room, tags_ok. st_simpl.
  repeat (split; [first [assumption | reflexivity | lia]|]).
  intros E. destruct (C E) as [C1 _]. discriminate C1.
Qed.

(** Readers of intact files raise nothing, and neither does their merge. *)
Lemma tag_eqb_refl (a : Z * Z) : tag_eqb a a = true.
Proof. unfold tag_eqb. rewrite !Z.eqb_refl. reflexivity. Qed.

Lemma reader_quiet (L : Lib) (ig sf : bool) (w : World) (i : Z) :
  match chunk_lookup i (chunk_files w) with
  | Some (rs, tag) => tag = blake3_16 L (concat (map rec_words rs))
  | None => True
  end ->
  snd (_reader L ig sf w i) = None.
Proof.
  unfold _reader. destruct (chunk_lookup i (chunk_files w)) as [[rs tag]|];
    [|reflexivity].
  intros ->. cbn [snd]. rewrite tag_eqb_refl. cbn [negb].
  rewrite andb_false_r. reflexivity.
Qed.

Lemma first_error_quiet (ss : list stream) :
  Forall (fun s => snd s = None) ss -> first_error ss = None.
Proof.
  intros H. induction H as [|[[|x xs] e] ss Hs _ IH]; cbn [first_error snd] in *.
  - reflexivity.
  - subst e. exact IH.
  - exact IH.
Qed.

Lemma pick_quiet (ss : list stream) (m : rec) (rest : list stream) :
  pick ss = Some (m, rest) ->
  Forall (fun s => snd s = None) ss -> Forall (fun s => snd s = None) rest.
Proof.
  revert m rest. induction ss as [|[[|x xs] e] ss IH]; intros m rest H Hq;
    cbn [pick] in H.
  - discriminate H.
  - inversion Hq as [|? ? Hs Hq']; subst.
    destruct (pick ss) as [[m' rest']|]; [|discriminate H].
    inversion H; subst. constructor; [exact Hs | eapply IH; [reflexivity | exact Hq']].
  - inversion Hq as [|? ? Hs Hq']; subst.
    destruct (pick ss) as [[m' rest']|].
    + destruct (rec_ltb m' x); inversion H; subst.
      * constructor; [exact Hs | eapply IH; [reflexivity | exact Hq']].
      * constructor; [exact Hs | exact Hq'].
    + inversion H; subst. constructor; [exact Hs | exact Hq'].
Qed.

Lemma merge_loop_quiet (n : nat) (ss : list stream) :
  Forall (fun s => snd s = None) ss -> snd (merge_loop n ss) = None.
Proof.
  revert ss. induction n as [|n IH]; intros ss Hq; cbn [merge_loop].
  - reflexivity.
  - destruct (pick ss) as [[m rest]|] eqn:P; [|reflexivity].
    pose proof (pick_quiet _ _ _ P Hq) as Hr.
    rewrite (first_error_quiet _ Hr).
    specialize (IH rest Hr). destruct (merge_loop n rest) as [o e]. exact IH.
Qed.

Lemma heapq_merge_quiet (ss : list stream) :
  Forall (fun s => snd s = None) ss -> snd (heapq_merge ss) = None.
Proof.
  intros Hq. unfold heapq_merge. rewrite (first_error_quiet _ Hq).
  apply merge_loop_quiet. exact Hq.
Qed.

Lemma runs_merge_phase (L : Lib) (b q : Z) (c : bool) :
  runs (room L b q c) (merge_phase L) False (fun _ => room L b q c).
Proof.
  intros st st' r H HP. unfold merge_phase, bind, get, modify in H.
  assert (Hq : snd (heapq_merge
                      (map (_reader L (XiSort.integrity (self st)) (XiSort.soft (self st))
                              (world st)) (chunks st))) = None).
  { apply heapq_merge_quiet. apply Forall_map.
    destruct HP as (_ & _ & _ & _ & T & _). unfold tags_ok in T.
    eapply Forall_impl; [|exact T]. intros i Hi. apply reader_quiet. exact Hi. }
  destruct (heapq_merge _) as [recs err]. cbn [snd] in Hq. subst err.
  unfold ret in H. injection H as <- <-. room_same.
Qed.

(** The [try] block of a run with room for its scratch files: it stops in
    a rejection loop of the shuffle, or it reaches the tail emitter, whose
    answer depends on the number of non-finite inputs only. *)
Lemma body_result (L : Lib) (fuel : nat) (itr : list double) (cs : Z) (s : XiSort.t)
    (st1 : St) (r : abort + unit) :
  0 < cs ->
  room L (scratch_need itr + 16) (count_finite itr) true
       (mkSt s fresh_world [] None None [] [] [] []) ->
  stream_sort_body L fuel itr cs (mkSt s fresh_world [] None None [] [] [] []) = (st1, r) ->
  (r = inl OutOfFuel /\ existsb nonfinite itr = true)
  \/ (0 <= XiSort.disk (self st1) <= XiSort.max (self st1)
      /\ r = if small_tail_bytes <? 8 * Z.of_nat (length (filter nonfinite itr))
             then inl (Exn BufferError_exports) else inr tt).
Proof.
  intros Hcs R0 H. unfold stream_sort_body in H.
  destruct (Z.leb_spec cs 0) as [Hle|_]; [lia|].
  set (st0 := mkSt s fresh_world [] None None [] [] [] []) in *.
  set (tb := XiSort.tie s).
  assert (Hcat : concat (read_chunks (Z.to_nat cs) itr []) = itr)
    by (rewrite read_chunks_concat; reflexivity).
  assert (I0 : loop_inv tb [] st0).
  { unfold loop_inv, chunks_inv, st0. cbn.
    repeat split; try reflexivity; constructor. }
  pose proof (runs_chunks L fuel (read_chunks (Z.to_nat cs) itr []) 16 0 true
                ltac:(lia) ltac:(lia)) as Rc.
  rewrite Hcat in Rc.
  assert (R0' : room L (scratch_need itr + 16) (count_finite itr + 0) true st0)
    by (rewrite Z.add_0_r; exact R0).
  apply bind_cases in H. destruct H as [(e & H & ->)|(sta & a & Ha & H)].
  { specialize (Rc _ _ _ H R0'). destruct e as [e|]; [destruct Rc|].
    left. split; [reflexivity | exact Rc]. }
  pose proof (Rc _ _ _ Ha R0') as Ra. cbv beta in Ra.
  pose proof (forM_loop_inv L fuel _ tb [] st0 sta a Ha I0) as Ia.
  rewrite Hcat in Ia. cbn [app] in Ia.
  destruct Ia as (Ic & Pfin & Ptail & Hnone & Tf & Oa & Ea).
  apply bind_cases in H. destruct H as [(e & H & ->)|(stb & b & Hb & H)].
  { pose proof (runs_seal_tail L 0 0 _ ltac:(lia) _ _ _ H Ra) as X.
    destruct e; contradiction. }
  pose proof (runs_seal_tail L 0 0 _ ltac:(lia) _ _ _ Hb Ra) as Rb. cbv beta in Rb.
  apply seal_tail_ok in Hb.
  destruct Hb as (CF & C & _ & _ & Ob & Eb & Hseal).
  apply bind_cases in H. destruct H as [(e & H & ->)|(stc & c & Hc & H)].
  { pose proof (runs_merge_phase L 0 0 _ _ _ _ H Rb) as X.
    destruct e; contradiction. }
  pose proof (runs_merge_phase L 0 0 _ _ _ _ Hc Rb) as Rm. cbv beta in Rm.
  assert (Hd : 0 <= XiSort.disk (self stc) <= XiSort.max (self stc)).
  { destruct Rm as (_ & D0 & D & _). lia. }
  apply merge_phase_any in Hc. destruct Hc as (recs & err & Hq & -> & _).
  unfold bind, get in H. cbn [yield_recs tail_fin] in H.
  pose proof small_tail_bytes_val as Hsv.
  right.
  destruct Hseal as [[Tn Tf']|(Tn & Tf' & t1 & t2 & Hfile)].
  - rewrite Tf', Tf in H. injection H as <- <-. split; [exact Hd|].
    rewrite (Hnone Tn). cbn [length].
    destruct (Z.ltb_spec small_tail_bytes (8 * Z.of_nat 0)); [lia | reflexivity].
  - rewrite Tf' in H. rewrite tail_emit_result in H. injection H as <- <-.
    split; [exact Hd|].
    rewrite (tail_payload_large_sealed _ (tail_words (world sta)) t1 t2)
      by exact Hfile.
    pose proof (Permutation_length Ptail) as Hlen.
    exact (eq_ind _ (fun n => (if small_tail_bytes <? 8 * Z.of_nat (length (tail_words (world sta)))
                               then inl (Exn BufferError_exports) else inr tt)
                              = (if small_tail_bytes <? 8 * Z.of_nat n
                                 then inl (Exn BufferError_exports) else inr tt :> abort + unit))
                  eq_refl _ Hlen).
Qed.

Lemma fs_getsize_nonneg (w : World) (p : fname) : 0 <= fs_getsize w p.
Proof.
  destruct p as [i| |]; unfold fs_getsize.
  - destruct (chunk_lookup i (chunk_files w)) as [c|]; [|lia].
    pose proof (chunk_size_bytes_pos c). lia.
  - apply opt_size_nonneg.
  - apply opt_size_nonneg.
Qed.

Lemma runs_remove_path (p : fname) :
  runs (fun st => 0 <= XiSort.disk (self st) <= XiSort.max (self st)) (remove_path p) False
       (fun _ st => 0 <= XiSort.disk (self st) <= XiSort.max (self st)).
Proof.
  intros st st' r H HP. unfold remove_path, bind, get, modify, _budget, ret in H.
  destruct (fs_exists (world st) p).
  2: { injection H as <- <-. exact HP. }
  pose proof (fs_getsize_nonneg (world st) p) as Hn.
  remember (fs_getsize (world st) p) as n eqn:En. st_simpl.
  destruct (Z.gtb_spec (Z.max (XiSort.disk (self st) + - n) 0) (XiSort.max (self st)))
    as [Hgt|Hle]; injection H as <- <-; [lia|].
  st_simpl. lia.
Qed.

Lemma runs_cleanup (L : Lib) :
  runs (fun st => 0 <= XiSort.disk (self st) <= XiSort.max (self st)) (cleanup L) False
       (fun _ st => 0 <= XiSort.disk (self st) <= XiSort.max (self st)).
Proof.
  unfold cleanup.
  apply (runs_bind _ _ _ _
           (fun _ st => 0 <= XiSort.disk (self st) <= XiSort.max (self st))).
  { intros st st' r H HP. inversion H; subst. exact HP. }
  intros st0. cbv zeta.
  apply (runs_bind _ _ _ _
           (fun _ st => 0 <= XiSort.disk (self st) <= XiSort.max (self st))).
  - apply (runs_forM False remove_path _
             (fun _ st => 0 <= XiSort.disk (self st) <= XiSort.max (self st))).
    intros x l'. apply runs_remove_path.
  - intros u. unfold rmdir_if_empty. apply runs_modify. intros st HP. cbv zeta.
    destruct (_ && _); [st_simpl|]; exact HP.
Qed.

(** *** Without [nan_shuffle] no rejection loop is entered *)

Lemma steady_bind {A B} (m : M A) (k : A -> M B) :
  steady m -> (forall a, steady (k a)) -> steady (bind m k).
Proof.
  intros Hm Hk st st' r H Hn. apply bind_cases in H.
  destruct H as [(e & H & ->)|(st1 & a & H1 & H2)].
  - destruct (Hm _ _ _ H Hn) as [Hr Hn']. split; [|exact Hn'].
    intros C. apply Hr. congruence.
  - destruct (Hm _ _ _ H1 Hn) as [_ Hn1]. exact (Hk a _ _ _ H2 Hn1).
Qed.

Lemma steady_ret {A} (a : A) : steady (ret a).
Proof. intros st st' r H Hn. inversion H; subst. split; [discriminate | exact Hn]. Qed.

Lemma steady_raise {A} (e : exn) : steady (@raise A e).
Proof. intros st st' r H Hn. inversion H; subst. split; [discriminate | exact Hn]. Qed.

Lemma steady_get : steady get.
Proof. intros st st' r H Hn. inversion H; subst. split; [discriminate | exact Hn]. Qed.

Lemma steady_modify (f : St -> St) :
  (forall st, XiSort.nan (self (f st)) = XiSort.nan (self st)) -> steady (modify f).
Proof.
  intros Hf st st' r H Hn. inversion H; subst.
  split; [discriminate | rewrite Hf; exact Hn].
Qed.

Lemma steady_budget (d : Z) : steady (_budget d).
Proof.
  intros st st' r H Hn. unfold _budget in H.
  destruct (_ >? _); inversion H; subst; (split; [discriminate | exact Hn]).
Qed.

Lemma steady_append (ws : list Z) : steady (append_tail_tmp ws).
Proof.
  intros st st' r H Hn. unfold append_tail_tmp in H.
  destruct (negb _); inversion H; subst; (split; [discriminate | exact Hn]).
Qed.

Lemma steady_rename : steady rename_tail.
Proof.
  intros st st' r H Hn. unfold rename_tail in H.
  destruct (tail_tmp_file _); inversion H; subst; (split; [discriminate | exact Hn]).
Qed.

Lemma steady_write_chunk_file (i : Z) (recs : list rec) (tag : Z * Z) :
  steady (write_chunk_file i recs tag).
Proof.
  intros st st' r H Hn. unfold write_chunk_file in H.
  destruct (negb _); inversion H; subst; (split; [discriminate | exact Hn]).
Qed.

Lemma steady_forM {A} (l : list A) (f : A -> M unit) :
  (forall x, steady (f x)) -> steady (forM_ l f).
Proof.
  intros Hf. induction l as [|x l IH]; cbn [forM_].
  - apply steady_ret.
  - apply steady_bind; [apply Hf | intros u; exact IH].
Qed.

Lemma steady_make_ties (tb : TieBreak) (g : Z) (keys : list Z) :
  steady (make_ties tb g keys).
Proof.
  destruct tb; cbn [make_ties]; try apply steady_ret;
    (apply steady_bind; [|intros rs; apply steady_ret];
     intros st st' r H Hn; unfold with_rng in H;
     destruct (Rng.rand _ _) as [a r']; inversion H; subst;
     split; [discriminate | exact Hn]).
Qed.

Lemma steady_write_tail (fuel : nat) (nonfin : list double) :
  steady (write_tail fuel nonfin).
Proof.
  unfold write_tail.
  apply steady_bind; [apply steady_modify; reflexivity | intros _].
  intros st st' r H Hn. unfold bind at 1, get at 1 in H. rewrite Hn in H.
  refine ((_ : steady _) st st' r H Hn).
  apply steady_bind; [apply steady_ret | intros tail].
  apply steady_bind; [apply steady_modify; reflexivity | intros _].
  apply steady_bind; [apply steady_append | intros _]. apply steady_budget.
Qed.

Lemma steady_write_chunk (L : Lib) (finite : list double) :
  steady (write_chunk L finite).
Proof.
  intros st st' r H Hn.
  unfold write_chunk in H. unfold bind at 1, get at 1 in H. cbv beta iota zeta in H.
  destruct (_ >? _); [inversion H; subst; split; [discriminate | exact Hn]|].
  refine ((_ : steady _) st st' r H Hn).
  apply steady_bind; [apply steady_make_ties | intros ties].
  apply steady_bind; [apply steady_modify; reflexivity | intros _].
  apply steady_bind; [apply steady_write_chunk_file | intros _].
  apply steady_bind; [apply steady_get | intros st1].
  apply steady_bind; [apply steady_budget | intros _].
  apply steady_bind; [apply steady_modify; reflexivity | intros _].
  apply steady_modify; reflexivity.
Qed.

Lemma steady_process_chunk (L : Lib) (fuel : nat) (arr : list double) :
  steady (process_chunk L fuel arr).
Proof.
  unfold process_chunk. apply steady_bind.
  - destruct (existsb nonfinite arr); [apply steady_write_tail | apply steady_ret].
  - intros _. destruct (filter _ arr); [apply steady_ret | apply steady_write_chunk].
Qed.

Lemma steady_seal_tail (L : Lib) : steady (seal_tail L).
Proof.
  unfold seal_tail.
  apply steady_bind; [apply steady_get | intros st].
  destruct (tail_tmp st); [|apply steady_ret]. cbv zeta.
  apply steady_bind; [apply steady_append | intros _].
  apply steady_bind; [apply steady_modify; reflexivity | intros _].
  apply steady_bind; [apply steady_rename | intros _]. apply steady_budget.
Qed.

Lemma steady_merge_phase (L : Lib) : steady (merge_phase L).
Proof.
  unfold merge_phase.
  apply steady_bind; [apply steady_get | intros st]. cbv zeta.
  destruct (heapq_merge _) as [recs err].
  apply steady_bind; [apply steady_modify; reflexivity | intros _].
  destruct err; [apply steady_raise | apply steady_ret].
Qed.

Lemma steady_tail_emit (fuel : nat) : steady (_tail_emit fuel).
Proof.
  intros st st' r H Hn. rewrite tail_emit_result in H. injection H as <- <-.
  split; [|exact Hn]. destruct (tail_payload_large _); discriminate.
Qed.

Lemma steady_body (L : Lib) (fuel : nat) (itr : list double) (chunk_size : Z) :
  steady (stream_sort_body L fuel itr chunk_size).
Proof.
  unfold stream_sort_body. apply steady_bind.
  { destruct (chunk_size <=? 0); [apply steady_ret|].
    apply steady_forM. intros arr. apply steady_process_chunk. }
  intros _. apply steady_bind; [apply steady_seal_tail | intros _].
  apply steady_bind; [apply steady_merge_phase | intros _].
  apply steady_bind; [apply steady_get | intros st].
  destruct (tail_fin st); [apply steady_tail_emit | apply steady_ret].
Qed.

(** With room for the scratch files and for the sequence numbers, the way
    a run from a fresh directory ends depends on the non-finite inputs only:
    it finishes when there are at most [2^26] of them, and raises the
    [BufferError] of the tail emitter when there are more; or, with
    [nan_shuffle] set, it stops in a rejection loop of the shuffle, which
    only the non-finite values use. *)
Lemma stream_sort_no_error (L : Lib) (fuel : nat) (s : XiSort.t)
    (itr : list double) (chunk_size : Z) :
  0 < chunk_size -> 0 <= XiSort.disk s ->
  XiSort.disk s + scratch_need itr + 16 <= XiSort.max s ->
  XiSort.gseq s + count_finite itr <= XiSort._maxseq s ->
  (snd (stream_sort L fuel s fresh_world itr chunk_size) = Diverged
   /\ XiSort.nan s = true /\ existsb nonfinite itr = true)
  \/ snd (stream_sort L fuel s fresh_world itr chunk_size)
     = (if small_tail_bytes <? 8 * Z.of_nat (length (filter nonfinite itr))
        then Raised BufferError_exports else Finished).
Proof.
  intros Hcs D0 D G. unfold stream_sort.
  assert (R0 : room L (scratch_need itr + 16) (count_finite itr) true
                 (mkSt s fresh_world [] None None [] [] [] [])).
  { unfold room, tags_ok. st_simpl.
    repeat (split; [first [reflexivity | assumption | lia | constructor]|]). auto. }
  destruct (stream_sort_body L fuel itr chunk_size
              (mkSt s fresh_world [] None None [] [] [] [])) as [st1 rb] eqn:Eb.
  destruct (body_result L fuel itr chunk_size s st1 rb Hcs R0 Eb) as [[-> Hn]|[Hd ->]].
  { left. split; [reflexivity|]. split; [|exact Hn].
    destruct (XiSort.nan s) eqn:En; [reflexivity|].
    destruct (steady_body L fuel itr chunk_size _ _ _ Eb En) as [C _].
    contradiction C. reflexivity. }
  right.
  destruct (cleanup L st1) as [st2 rc] eqn:Ec.
  pose proof (runs_cleanup L _ _ _ Ec Hd) as Hc.
  destruct rc as [[e|]|u']; [destruct Hc | destruct Hc |].
  destruct (small_tail_bytes <? _); reflexivity.
Qed.

(** ** The non-finite values are dropped *)

(** C4 fails on the code: the tail is never emitted.  With the default
    sorter the input [[2.0, nan, 1.0, -inf, -1.0]] comes out as
    [[-1.0, 1.0, 2.0]].  In general, for a chunk size of at least 1 and a
    fresh working directory, a run that finishes has yielded the [val]
    fields of the merged records and nothing else, that is the finite
    inputs, each once: the input is what was yielded together with its
    non-finite values.  And when the quota has room for the scratch files and
    the sequence counter for the finite values, a run finishes if the input
    holds at most [2^26] non-finite values (512 MiB of tail payload) and
    raises [BufferError] if it holds more, unless a rejection loop of the
    shuffle outlives the fuel, which takes [nan_shuffle] and a non-finite
    value in the input. *)
Theorem stream_sort_drops_nonfinite :
  (let r := stream_sort demo_lib 0 (sorter_of 0 default_config) fresh_world
              [two; qnan; one; neg_inf; neg_one] default_chunk_size in
   snd r = Finished /\ out (fst r) = [neg_one; one; two])
  /\ (forall (L : Lib) (fuel : nat) (s : XiSort.t) (itr : list double) (chunk_size : Z),
        0 < chunk_size ->
        let r := stream_sort L fuel s fresh_world itr chunk_size in
        (snd r = Finished ->
         out (fst r) = map val (emitted (fst r))
         /\ Permutation (out (fst r)) (filter (fun x => negb (nonfinite x)) itr)
         /\ Permutation (out (fst r) ++ filter nonfinite itr) itr)
        /\ (0 <= XiSort.disk s ->
            XiSort.disk s + scratch_need itr + 16 <= XiSort.max s ->
            XiSort.gseq s + count_finite itr <= XiSort._maxseq s ->
            (snd r = Diverged /\ XiSort.nan s = true /\ existsb nonfinite itr = true)
            \/ snd r = (if small_tail_bytes <? 8 * Z.of_nat (length (filter nonfinite itr))
                        then Raised BufferError_exports else Finished))).
Proof.
  split.
  - vm_compute. split; reflexivity.
  - intros L fuel s itr chunk_size Hcs. cbv zeta. split.
    + intros F.
      destruct (stream_sort L fuel s fresh_world itr chunk_size) as [st o] eqn:E.
      cbn [snd fst] in *. subst o.
      destruct (stream_sort_finished_finite L fuel s itr chunk_size st Hcs E)
        as (Ho & P & _).
      split; [exact Ho|]. split; [exact P|].
      rewrite P. apply partition_perm.
    + intros D0 D G. apply stream_sort_no_error; assumption.
Qed.

(* ================================================================== *)
(** * Part III: further properties of the code *)
(* ================================================================== *)

(** ** The generator [_R] *)

(** X1: [_R.shuffle] rearranges: when the Fisher-Yates loop returns, the
    array holds the values it held before, each as often as before; an array
    of at most one element is returned as it is, with the generator
    untouched. *)
Theorem shuffle_permutes (fuel : nat) (a : list Z) (st : Rng.state)
    (a' : list Z) (st' : Rng.state) :
  Rng.shuffle fuel a st = Some (a', st') ->
  Permutation a' a /\ length a' = length a
  /\ ((length a <= 1)%nat -> a' = a /\ st' = st).
Proof.
  intros H. pose proof (shuffle_perm _ _ _ _ _ H) as P.
  split; [exact P|]. split; [apply Permutation_length; exact P|].
  intros Hl. unfold Rng.shuffle in H.
  assert (E : (length a - 1 = 0)%nat) by lia. rewrite E in H.
  cbn [Rng.shuffle_from] in H. inversion H; subst. split; reflexivity.
Qed.

Lemma shuffle_permutes_witness :
  exists a' st',
    Rng.shuffle 8 [10; 20; 30; 40] (Rng.init 1) = Some (a', st')
    /\ Permutation a' [10; 20; 30; 40].
Proof.
  eexists. eexists. split.
  - vm_compute. reflexivity.
  - eapply (shuffle_permutes 8 [10; 20; 30; 40] (Rng.init 1)).
    vm_compute. reflexivity.
Defined.

Lemma u64_land_M64 (x : Z) : u64 (Z.land x Rng.M64).
Proof.
  unfold u64. change Rng.M64 with (Z.ones 64). rewrite Z.land_ones by lia.
  apply Z.mod_pos_bound. lia.
Qed.

Lemma u64_bits (x : Z) : 0 <= x -> (forall n, 64 <= n -> Z.testbit x n = false) -> u64 x.
Proof.
  intros H0 Hb. split; [exact H0|].
  destruct (Z.eq_dec x 0) as [->|Hx]; [lia|].
  apply Z.log2_lt_pow2; [lia|].
  destruct (Z.lt_ge_cases (Z.log2 x) 64) as [Hlt|Hge]; [exact Hlt|].
  specialize (Hb (Z.log2 x) Hge). rewrite Z.bit_log2 in Hb by lia. discriminate.
Qed.

Lemma u64_testbit (x : Z) (n : Z) : u64 x -> 64 <= n -> Z.testbit x n = false.
Proof.
  intros [H0 H1] Hn. destruct (Z.eq_dec x 0) as [->|Hx]; [apply Z.bits_0|].
  apply Z.bits_above_log2; [exact H0|].
  assert (Z.log2 x < 64) by (apply Z.log2_lt_pow2; lia). lia.
Qed.

Lemma u64_lxor (x y : Z) : u64 x -> u64 y -> u64 (Z.lxor x y).
Proof.
  intros Hx Hy. apply u64_bits.
  - apply Z.lxor_nonneg. unfold u64 in *. split; intros; lia.
  - intros n Hn. rewrite Z.lxor_spec, (u64_testbit x n Hx Hn), (u64_testbit y n Hy Hn).
    reflexivity.
Qed.

Lemma u64_lor (x y : Z) : u64 x -> u64 y -> u64 (Z.lor x y).
Proof.
  intros Hx Hy. apply u64_bits.
  - apply Z.lor_nonneg. unfold u64 in *. split; lia.
  - intros n Hn. rewrite Z.lor_spec, (u64_testbit x n Hx Hn), (u64_testbit y n Hy Hn).
    reflexivity.
Qed.

Lemma u64_shiftr (x k : Z) : u64 x -> 0 <= k -> u64 (Z.shiftr x k).
Proof.
  intros [H0 H1] Hk. rewrite Z.shiftr_div_pow2 by exact Hk. split.
  - apply Z.div_pos; [exact H0 | apply Z.pow_pos_nonneg; lia].
  - apply Z.le_lt_trans with x; [|exact H1].
    apply Z.div_le_upper_bound; [apply Z.pow_pos_nonneg; lia|].
    pose proof (Z.pow_pos_nonneg 2 k ltac:(lia) Hk). nia.
Qed.

Lemma u64_rotl (x k : Z) : 0 <= x < 2 ^ 67 -> 0 <= k <= 61 -> u64 (Rng._rotl x k).
Proof.
  intros [H0 H1] Hk. unfold Rng._rotl. apply u64_lor; [apply u64_land_M64|].
  rewrite Z.shiftr_div_pow2 by lia. split.
  - apply Z.div_pos; [exact H0 | apply Z.pow_pos_nonneg; lia].
  - apply Z.div_lt_upper_bound; [apply Z.pow_pos_nonneg; lia|].
    apply Z.lt_le_trans with (2 ^ 67); [exact H1|].
    rewrite <- Z.pow_add_r by lia. apply Z.pow_le_mono_r; lia.
Qed.

Lemma u64_sm64 (x : Z) : u64 (Rng.sm64 x).
Proof.
  unfold Rng.sm64. cbv zeta.
  apply u64_lxor; [apply u64_land_M64 | apply u64_shiftr; [apply u64_land_M64 | lia]].
Qed.

(** X2: the state of [_R] is always four 64-bit words and every draw of
    [_next] is a 64-bit word, although the arithmetic is done on unbounded
    Python integers: the constructor makes such a state from any seed, and
    [_next] keeps it. *)
Theorem next_keeps_64_bit_words :
  (forall seed, rng_wf (Rng.init seed))
  /\ (forall st, rng_wf st ->
        u64 (fst (Rng._next st)) /\ rng_wf (snd (Rng._next st))).
Proof.
  split.
  - intros seed. unfold rng_wf, Rng.init. cbn [Rng.s0 Rng.s1 Rng.s2 Rng.s3].
    repeat split; apply u64_sm64.
  - intros [a b c d] (Ha & Hb & Hc & Hd). cbn [Rng.s0 Rng.s1 Rng.s2 Rng.s3] in *.
    unfold Rng._next. cbv zeta. cbn [fst snd]. split; [apply u64_land_M64|].
    unfold rng_wf. cbn [Rng.s0 Rng.s1 Rng.s2 Rng.s3].
    assert (Hca : u64 (Z.lxor c a)) by (apply u64_lxor; assumption).
    assert (Hdb : u64 (Z.lxor d b)) by (apply u64_lxor; assumption).
    assert (Hb' : u64 (Z.lxor b (Z.lxor c a))) by (apply u64_lxor; assumption).
    split; [apply u64_lxor; assumption|].
    split; [exact Hb'|].
    split; [apply u64_lxor; [exact Hca | apply u64_land_M64]|].
    apply u64_rotl; [|lia]. destruct Hdb as [H0 H1]. split; [exact H0|].
    apply Z.lt_trans with (2 ^ 64); [exact H1 | reflexivity].
Qed.

(** *** [rand] stays in [0, 1) *)

Lemma digits2_pos_bounds (p : positive) :
  2 ^ (Zpos (digits2_pos p) - 1) <= Zpos p < 2 ^ Zpos (digits2_pos p).
Proof.
  induction p as [p IH|p IH|]; cbn [digits2_pos].
  - rewrite Pos2Z.inj_succ. change (Zpos p~1) with (2 * Zpos p + 1).
    replace (Z.succ (Zpos (digits2_pos p)) - 1) with (Z.succ (Zpos (digits2_pos p) - 1))
      by lia.
    rewrite !Z.pow_succ_r by lia. lia.
  - rewrite Pos2Z.inj_succ. change (Zpos p~0) with (2 * Zpos p).
    replace (Z.succ (Zpos (digits2_pos p)) - 1) with (Z.succ (Zpos (digits2_pos p) - 1))
      by lia.
    rewrite !Z.pow_succ_r by lia. lia.
  - cbn. lia.
Qed.

Lemma digits2_pos_le (p : positive) (n : Z) :
  0 <= n -> Zpos p < 2 ^ n -> Zpos (digits2_pos p) <= n.
Proof.
  intros Hn Hp. pose proof (digits2_pos_bounds p) as [Hlo _].
  assert (H : 2 ^ (Zpos (digits2_pos p) - 1) < 2 ^ n) by lia.
  apply Z.pow_lt_mono_r_iff in H; lia.
Qed.

Lemma digits2_pos_iter_xO (p n : positive) :
  Zpos (digits2_pos (Pos.iter xO p n)) = Zpos (digits2_pos p) + Zpos n.
Proof.
  induction n as [|n IH] using Pos.peano_ind.
  - cbn [Pos.iter digits2_pos]. rewrite Pos2Z.inj_succ. lia.
  - rewrite Pos.iter_succ. cbn [digits2_pos]. rewrite Pos2Z.inj_succ, IH. lia.
Qed.

(** Rounding a mantissa that fits leaves it as it is. *)
Lemma binary_round_aux_exact (sx : bool) (m : positive) (ex : Z) :
  fexp prec emax (Zpos (digits2_pos m) + ex) <= ex -> ex <= emax - prec ->
  binary_round_aux prec emax sx (Zpos m) ex loc_Exact = S754_finite sx m ex.
Proof.
  intros Hf He. unfold binary_round_aux.
  assert (S1 : shr_fexp prec emax (Zpos m) ex loc_Exact
               = (Build_shr_record (Zpos m) false false, ex)).
  { unfold shr_fexp, shr, Zdigits2, shr_record_of_loc.
    destruct (fexp prec emax (Zpos (digits2_pos m) + ex) - ex) as [|q|q] eqn:E;
      try reflexivity. lia. }
  rewrite S1. cbn [shr_m loc_of_shr_record round_nearest_even]. rewrite S1.
  cbn [shr_m]. destruct (Z.leb_spec ex (emax - prec)); [reflexivity | lia].
Qed.

Lemma of_u64_small (k : Z) :
  0 < k < 2 ^ 53 ->
  exists m e, of_u64 k = S754_finite false m e
              /\ Zpos (digits2_pos m) = 53 /\ -52 <= e <= 0.
Proof.
  intros [H0 H1]. destruct k as [|p|p]; try lia.
  pose proof (digits2_pos_le p 53 ltac:(lia) H1) as Hd.
  assert (Hd1 : 1 <= Zpos (digits2_pos p)) by lia.
  unfold of_u64, binary_normalize, binary_round, shl_align.
  assert (Hf : fexp prec emax (Zpos (digits2_pos p) + 0) = Zpos (digits2_pos p) - 53).
  { unfold fexp, emin, prec, emax. lia. }
  rewrite Hf.
  destruct (Zpos (digits2_pos p) - 53 - 0) as [|q|q] eqn:E; try lia.
  - exists p, 0. split; [|split; lia].
    apply binary_round_aux_exact; [rewrite Hf; lia | unfold emax, prec; lia].
  - exists (Pos.iter xO p q), (Zpos (digits2_pos p) - 53).
    assert (Hq : Zpos (digits2_pos (Pos.iter xO p q)) = 53).
    { rewrite digits2_pos_iter_xO. lia. }
    split; [|split; [exact Hq | lia]].
    apply binary_round_aux_exact; [|unfold emax, prec; lia].
    rewrite Hq. unfold fexp, emin, prec, emax. lia.
Qed.

Lemma fmul_two_m53 (m : positive) (e : Z) :
  Zpos (digits2_pos m) = 53 -> -52 <= e <= 0 ->
  fmul (S754_finite false m e) Rng.two_m53 = S754_finite false m (e - 53).
Proof.
  intros Hd He. unfold fmul, SFmul, Rng.two_m53. cbn [xorb].
  rewrite Pos.mul_comm.
  let c := eval vm_compute in (2 ^ 52)%positive in change (2 ^ 52)%positive with c.
  cbn [Pos.mul]. unfold binary_round_aux.
  match goal with
  | |- context [shr_fexp prec emax (Zpos ?M) (e + -105) loc_Exact] =>
      assert (S1 : shr_fexp prec emax (Zpos M) (e + -105) loc_Exact
                   = (Build_shr_record (Zpos m) false false, e - 53))
  end.
  { unfold shr_fexp, Zdigits2. cbn [digits2_pos]. rewrite !Pos2Z.inj_succ, Hd.
    match goal with
    | |- shr _ _ ?n = _ =>
        replace n with 52 by (unfold fexp, emin, prec, emax; lia)
    end.
    unfold shr. cbn [iter_pos shr_1 shr_record_of_loc orb]. f_equal. lia. }
  rewrite S1. cbn [shr_m loc_of_shr_record round_nearest_even].
  assert (S2 : shr_fexp prec emax (Zpos m) (e - 53) loc_Exact
               = (Build_shr_record (Zpos m) false false, e - 53)).
  { unfold shr_fexp, shr, Zdigits2, shr_record_of_loc. rewrite Hd.
    destruct (fexp prec emax (53 + (e - 53)) - (e - 53)) as [|q|q] eqn:E;
      try reflexivity.
    unfold fexp, emin, prec, emax in E. lia. }
  rewrite S2. cbn [shr_m].
  destruct (Z.leb_spec (e - 53) (emax - prec)) as [_|H]; [reflexivity|].
  unfold emax, prec in H. lia.
Qed.

Lemma rand_elem_unit_interval (raw : Z) :
  u64 raw ->
  SFleb sf_zero (fmul (of_u64 (Z.shiftr raw 11)) Rng.two_m53) = true
  /\ SFltb (fmul (of_u64 (Z.shiftr raw 11)) Rng.two_m53) sf_one = true.
Proof.
  intros [H0 H1].
  assert (Hk : 0 <= Z.shiftr raw 11 < 2 ^ 53).
  { rewrite Z.shiftr_div_pow2 by lia. split.
    - apply Z.div_pos; lia.
    - apply Z.div_lt_upper_bound; lia. }
  destruct (Z.eq_dec (Z.shiftr raw 11) 0) as [E|E].
  - rewrite E. split; reflexivity.
  - destruct (of_u64_small (Z.shiftr raw 11) ltac:(lia)) as (m & e & Ho & Hd & He).
    rewrite Ho, (fmul_two_m53 m e Hd He). unfold SFleb, SFltb, sf_zero, sf_one.
    cbn [SFcompare]. split; [reflexivity|].
    destruct (Z.compare_spec (e - 53) (-52)) as [C|C|C]; [lia | reflexivity | lia].
Qed.

(** X3: [_R.rand(n)] returns [n] doubles, each in the half-open interval
    [0, 1): each is [(r >> 11) * 2**-53] for a 64-bit draw [r], computed
    without rounding. *)
Theorem rand_unit_interval (n : nat) (st : Rng.state) :
  length (fst (Rng.rand n st)) = n
  /\ Forall (fun x => SFleb sf_zero x = true /\ SFltb x sf_one = true)
            (fst (Rng.rand n st)).
Proof.
  revert st. induction n as [|n IH]; intros st; cbn [Rng.rand].
  - split; [reflexivity | constructor].
  - pose proof (u64_land_M64 (Rng._rotl (Rng.s1 st * 5) 7 * 9)) as Hr.
    assert (Er : fst (Rng._next st) = Z.land (Rng._rotl (Rng.s1 st * 5) 7 * 9) Rng.M64)
      by (destruct st; reflexivity).
    destruct (Rng._next st) as [raw st1]. cbn [fst] in Er. subst raw.
    specialize (IH st1). destruct (Rng.rand n st1) as [rest st2]. cbn [fst] in *.
    destruct IH as [IH1 IH2]. split.
    + cbn [length]. rewrite IH1. reflexivity.
    + constructor; [apply rand_elem_unit_interval; exact Hr | exact IH2].
Qed.

(** ** The chunk loop *)

Lemma Forall_removelast_cons {A} (P : A -> Prop) (a : A) (l : list A) :
  P a -> Forall P (removelast l) -> Forall P (removelast (a :: l)).
Proof.
  intros Ha Hl. destruct l as [|b l]; [constructor|].
  change (removelast (a :: b :: l)) with (a :: removelast (b :: l)).
  constructor; assumption.
Qed.

Lemma read_chunks_shape (cs : nat) (it buf : list double) :
  (length buf < cs)%nat ->
  Forall (fun c => (0 < length c <= cs)%nat) (read_chunks cs it buf)
  /\ Forall (fun c => length c = cs) (removelast (read_chunks cs it buf)).
Proof.
  revert buf. induction it as [|x it IH]; intros buf Hb; cbn [read_chunks].
  - destruct buf as [|b buf]; [split; constructor|].
    split; [|constructor]. constructor; [cbn [length] in *; lia | constructor].
  - assert (Hl : length (buf ++ [x]) = S (length buf))
      by (rewrite length_app; cbn [length]; lia).
    destruct (Nat.eqb_spec (length (buf ++ [x])) cs) as [E|E].
    + destruct (IH [] ltac:(cbn [length]; lia)) as [I1 I2]. split.
      * constructor; [lia | exact I1].
      * apply Forall_removelast_cons; [exact E | exact I2].
    + apply IH. lia.
Qed.

(** X4: the chunk loop of [stream_sort], for a chunk size of at least 1,
    cuts the input into consecutive chunks: put together they are the input;
    none is empty or longer than [chunk_size]; and every chunk but the last
    holds exactly [chunk_size] values. *)
Theorem read_chunks_blocks (cs : nat) (it : list double) :
  (0 < cs)%nat ->
  concat (read_chunks cs it []) = it
  /\ Forall (fun c => (0 < length c <= cs)%nat) (read_chunks cs it [])
  /\ Forall (fun c => length c = cs) (removelast (read_chunks cs it [])).
Proof.
  intros Hcs. split; [rewrite read_chunks_concat; reflexivity|].
  apply read_chunks_shape. cbn [length]. exact Hcs.
Qed.

Lemma read_chunks_blocks_witness :
  concat (read_chunks 2 [one; two; neg_one; qnan; pos_zero] [])
  = [one; two; neg_one; qnan; pos_zero]
  /\ Forall (fun c => (0 < length c <= 2)%nat)
            (read_chunks 2 [one; two; neg_one; qnan; pos_zero] [])
  /\ Forall (fun c => length c = 2%nat)
            (removelast (read_chunks 2 [one; two; neg_one; qnan; pos_zero] [])).
Proof. apply (read_chunks_blocks 2 [one; two; neg_one; qnan; pos_zero]). lia. Defined.

(** X5: with a chunk size of 0 or less the chunk loop reads nothing: the
    run finishes and yields nothing, whatever the input holds; no scratch
    file is written and the working directory is removed. *)
Theorem stream_sort_nonpositive_chunk_size (L : Lib) (fuel : nat) (s : XiSort.t)
    (itr : list double) (chunk_size : Z) :
  chunk_size <= 0 -> Lib_ok L ->
  let r := stream_sort L fuel s fresh_world itr chunk_size in
  snd r = Finished /\ out (fst r) = []
  /\ log (fst r) = [0]
  /\ world (fst r) = mkWorld false [] None None.
Proof.
  intros Hcs HL r. subst r.
  assert (E : set_order L [] = []).
  { apply Permutation_nil. symmetry. apply (HL []). }
  assert (B : stream_sort_body L fuel itr chunk_size
                (mkSt s fresh_world [] None None [] [] [] [])
              = (mkSt s fresh_world [] None None [] [] [] [], inr tt)).
  { unfold stream_sort_body. destruct (Z.leb_spec chunk_size 0); [reflexivity | lia]. }
  unfold stream_sort. rewrite B.
  unfold cleanup, bind, get. cbn [chunks tail_fin tail_tmp map app].
  rewrite E. cbn. repeat split; reflexivity.
Qed.

Lemma stream_sort_nonpositive_chunk_size_witness :
  let r := stream_sort demo_lib 0 (sorter_of 0 default_config) fresh_world
             [two; one; qnan] 0 in
  snd r = Finished /\ out (fst r) = []
  /\ log (fst r) = [0]
  /\ world (fst r) = mkWorld false [] None None.
Proof.
  apply (stream_sort_nonpositive_chunk_size demo_lib 0 (sorter_of 0 default_config)
           [two; one; qnan] 0).
  - lia.
  - intros l. reflexivity.
Defined.

(** ** Chunk writer and chunk reader *)

(** What a successful [write_chunk] leaves: the file of index [idx], with
    the digest of its own records. *)
Lemma write_chunk_written (L : Lib) (finite : list double) (st st' : St) (u : unit) :
  write_chunk L finite st = (st', inr u) ->
  exists recs,
    sorted_wf (XiSort.tie (self st)) recs
    /\ Permutation (map val recs) finite
    /\ chunk_files (world st')
       = (XiSort.idx (self st), (recs, blake3_16 L (concat (map rec_words recs))))
           :: chunk_remove (XiSort.idx (self st)) (chunk_files (world st))
    /\ chunks st' = chunks st ++ [XiSort.idx (self st)]
    /\ XiSort.gseq (self st') = XiSort.gseq (self st) + Z.of_nat (length finite)
    /\ XiSort.idx (self st') = XiSort.idx (self st) + 1.
Proof.
  unfold write_chunk. intros H. mok.
  destruct (_ >? _); mok.
  match goal with
  | Ht : make_ties _ _ _ _ = _ |- _ =>
      apply make_ties_ok in Ht;
      destruct Ht as (T1 & T2 & W & C & TT & TF & O & E & Ti & Ix & G & _)
  end.
  st_simpl. rewrite W, C, Ix, G.
  eexists.
  split; [apply np_sort_sorted; apply zip_recs_wf; exact T1 |].
  repeat split; try reflexivity.
  rewrite np_sort_perm. rewrite zip_recs_val; [reflexivity | | ].
  - unfold ieee_key. rewrite length_map. apply metric_length.
  - rewrite T2. unfold ieee_key. rewrite length_map. apply metric_length.
Qed.

(** X6: what [stream_sort] writes as a chunk, [_reader] reads back: after the
    chunk writer has stored the finite values of a buffer as chunk [idx],
    the reader of that file yields records whose [val] fields are those
    values, each once, in non-decreasing order of (key, tie, seq), and its
    integrity check passes, whether [integrity] and [soft] are set or not. *)
Theorem write_chunk_read_back (L : Lib) (finite : list double) (st st' : St) (u : unit)
    (integrity soft : bool) :
  write_chunk L finite st = (st', inr u) ->
  exists recs,
    _reader L integrity soft (world st') (XiSort.idx (self st)) = (recs, None)
    /\ Permutation (map val recs) finite
    /\ StronglySorted rec_lex_le recs
    /\ chunks st' = chunks st ++ [XiSort.idx (self st)].
Proof.
  intros H. apply write_chunk_written in H.
  destruct H as (recs & [Hs Hw] & Hp & Hf & Hc & _).
  exists recs. split; [|split; [exact Hp | split; [|exact Hc]]].
  - unfold _reader. rewrite Hf. cbn [chunk_lookup]. rewrite Z.eqb_refl.
    cbv zeta. rewrite tag_eqb_refl. cbn [negb]. rewrite andb_false_r. reflexivity.
  - eapply sorted_rk_lex; eassumption.
Qed.

Lemma write_chunk_read_back_witness :
  exists st' recs,
    write_chunk demo_lib [two; one; neg_one]
      (mkSt (sorter_of 0 default_config) fresh_world [] None None [] [] [] [])
    = (st', inr tt)
    /\ _reader demo_lib true false (world st') 0 = (recs, None)
    /\ Permutation (map val recs) [two; one; neg_one].
Proof.
  eexists.
  assert (E : write_chunk demo_lib [two; one; neg_one]
                (mkSt (sorter_of 0 default_config) fresh_world [] None None [] [] [] [])
              = (_, inr tt)) by (vm_compute; reflexivity).
  destruct (write_chunk_read_back demo_lib [two; one; neg_one] _ _ tt true false E)
    as (recs & R & P & _).
  exists recs. split; [exact E|]. split; [exact R | exact P].
Defined.

(** ** The key codec on every pattern *)

(** The key of a pattern, by the class of its value. *)
Lemma ieee_key1_cases (a : double) :
  u64 a ->
  (finite_nonzero a
   /\ ieee_key1 a = (if signbit a then 2 ^ 64 - 1 - a else a + 2 ^ 63))
  \/ (decode a = S754_nan /\ ieee_key1 a = K_NAN)
  \/ (exists s, decode a = S754_infinity s
                /\ ieee_key1 a = (if s then K_NEGINF else K_POSINF))
  \/ (decode a = S754_zero (signbit a)
      /\ ieee_key1 a = (if signbit a then K_NEG0 else K_POS0)).
Proof.
  intros Ha.
  destruct (decode_cases a Ha) as [(_ & [(_ & D)|(_ & D)])|[(_ & _ & D)|(E & Hm & m & D & Hz)]].
  - right. right. left. exists (signbit a). split; [exact D|].
    unfold ieee_key1, isneginf, isposinf, isnan, feq. rewrite D.
    change (decode pos_zero) with (S754_zero false).
    cbn [SFeqb SFcompare andb]. destruct (signbit a); reflexivity.
  - right. left. split; [exact D|].
    unfold ieee_key1, isnan. rewrite D. reflexivity.
  - right. right. right. split; [exact D|].
    unfold ieee_key1, isneginf, isposinf, isnan, feq. rewrite D.
    change (decode pos_zero) with (S754_zero false).
    cbn [SFeqb SFcompare andb]. destruct (signbit a); reflexivity.
  - left.
    assert (F : finite_nonzero a).
    { unfold finite_nonzero, isfinite, isnan, isinf, feq. rewrite D.
      change (decode pos_zero) with (S754_zero false).
      cbn [SFeqb SFcompare orb negb]. destruct (signbit a); split; reflexivity. }
    split; [exact F | apply ieee_key1_finite_nonzero; assumption].
Qed.

Lemma finite_key_range (a : double) :
  u64 a -> finite_nonzero a -> 0 <= ieee_key1 a < SENT.
Proof.
  intros Ha Fa.
  destruct (finite_nonzero_fields a Ha Fa) as (Ea & _ & _).
  pose proof (finite_mag_bound a Ha Ea) as Hm.
  destruct (pattern_sign_mag a Ha) as [Pa Ma].
  rewrite (ieee_key1_finite_nonzero a Ha Fa). unfold SENT.
  destruct (signbit a); lia.
Qed.

(** X7: [ieee_key] uses its five sentinel keys exactly for the zeros, the
    infinities and NaN, and it is injective on all other doubles: two
    distinct finite non-zero values never get the same key. *)
Theorem ieee_key_sentinels_and_injective :
  (forall a, u64 a -> (In (ieee_key1 a) sentinels <-> ~ finite_nonzero a))
  /\ (forall a b, u64 a -> u64 b -> finite_nonzero a -> finite_nonzero b ->
        ieee_key1 a = ieee_key1 b -> a = b).
Proof.
  split.
  - intros a Ha. split.
    + intros Hin Fa. pose proof (finite_key_range a Ha Fa) as R.
      unfold sentinels, K_NEGINF, K_POSINF, K_NEG0, K_POS0, K_NAN in Hin.
      cbn [In] in Hin. lia.
    + intros Hn.
      destruct (ieee_key1_cases a Ha) as [[F _]|[[_ K]|[(s & _ & K)|[_ K]]]].
      * contradiction.
      * rewrite K. unfold sentinels. cbn [In]. tauto.
      * rewrite K. unfold sentinels. cbn [In]. destruct s; tauto.
      * rewrite K. unfold sentinels. cbn [In]. destruct (signbit a); tauto.
  - intros a b Ha Hb Fa Fb E.
    rewrite (ieee_key1_finite_nonzero a Ha Fa), (ieee_key1_finite_nonzero b Hb Fb) in E.
    destruct (pattern_sign_mag a Ha) as [Pa Ma], (pattern_sign_mag b Hb) as [Pb Mb].
    destruct (signbit a), (signbit b); lia.
Qed.

(** ** The order of the merged values in STRICT mode *)

Lemma frames_bind {A B} (m : M A) (k : A -> M B) :
  frames m -> (forall a, frames (k a)) -> frames (bind m k).
Proof.
  intros Hm Hk st st' r H. apply bind_cases in H.
  destruct H as [(e & H & _)|(st1 & a & H1 & H2)].
  - eapply Hm; exact H.
  - destruct (Hm _ _ _ H1) as (M1 & C1 & E1), (Hk a _ _ _ H2) as (M2 & C2 & E2).
    repeat split; congruence.
Qed.

Lemma frames_ret {A} (a : A) : frames (ret a).
Proof. intros st st' r H. inversion H; subst. repeat split. Qed.

Lemma frames_raise {A} (e : exn) : frames (@raise A e).
Proof. intros st st' r H. inversion H; subst. repeat split. Qed.

Lemma frames_get : frames get.
Proof. intros st st' r H. inversion H; subst. repeat split. Qed.

Lemma frames_modify (f : St -> St) :
  (forall st, XiSort.mode (self (f st)) = XiSort.mode (self st)
              /\ chunk_files (world (f st)) = chunk_files (world st)
              /\ emitted (f st) = emitted st) ->
  frames (modify f).
Proof. intros Hf st st' r H. inversion H; subst. apply Hf. Qed.

Lemma frames_with_rng {A} (f : Rng.state -> option (A * Rng.state)) : frames (with_rng f).
Proof.
  intros st st' r H. unfold with_rng in H.
  destruct (f (XiSort.rng (self st))) as [[a r']|]; inversion H; subst; repeat split.
Qed.

Lemma frames_budget (d : Z) : frames (_budget d).
Proof.
  intros st st' r H. unfold _budget in H.
  destruct (_ >? _); inversion H; subst; repeat split.
Qed.

Lemma frames_append (ws : list Z) : frames (append_tail_tmp ws).
Proof.
  intros st st' r H. unfold append_tail_tmp in H.
  destruct (negb _); inversion H; subst; repeat split.
Qed.

Lemma frames_rename : frames rename_tail.
Proof.
  intros st st' r H. unfold rename_tail in H.
  destruct (tail_tmp_file _); inversion H; subst; repeat split.
Qed.

Ltac frames_set := intros; st_simpl; repeat split.

Lemma frames_make_ties (tb : TieBreak) (g : Z) (keys : list Z) :
  frames (make_ties tb g keys).
Proof.
  destruct tb; cbn [make_ties]; try apply frames_ret;
    (apply frames_bind; [apply frames_with_rng | intros rs; apply frames_ret]).
Qed.

Lemma frames_write_tail (fuel : nat) (nonfin : list double) :
  frames (write_tail fuel nonfin).
Proof.
  unfold write_tail.
  apply frames_bind; [apply frames_modify; frames_set | intros _].
  apply frames_bind; [apply frames_get | intros st].
  apply frames_bind;
    [destruct (XiSort.nan (self st)); [apply frames_with_rng | apply frames_ret]
    | intros tail].
  apply frames_bind; [apply frames_modify; frames_set | intros _].
  apply frames_bind; [apply frames_append | intros _]. apply frames_budget.
Qed.

Lemma frames_seal_tail (L : Lib) : frames (seal_tail L).
Proof.
  unfold seal_tail.
  apply frames_bind; [apply frames_get | intros st].
  destruct (tail_tmp st); [|apply frames_ret]. cbv zeta.
  apply frames_bind; [apply frames_append | intros _].
  apply frames_bind; [apply frames_modify; frames_set | intros _].
  apply frames_bind; [apply frames_rename | intros _]. apply frames_budget.
Qed.

Lemma frames_tail_emit (fuel : nat) : frames (_tail_emit fuel).
Proof.
  intros st st' r H. apply tail_emit_same in H. subst st'. repeat split.
Qed.

Lemma strict_frames {A} (m : M A) : frames m -> preserves strict_inv m.
Proof.
  intros Hm st st' r H (M1 & F1 & E1). destruct (Hm _ _ _ H) as (M2 & C2 & E2).
  unfold strict_inv. rewrite M2, C2, E2. repeat split; assumption.
Qed.

Lemma zip_recs_ok (vs : list double) (ts : list tieval) (s : Z) :
  Forall (fun v => u64 v /\ nonfinite v = false) vs ->
  Forall rec_ok (zip_recs vs (ieee_key vs) ts s).
Proof.
  intros Hv. revert ts s. induction Hv as [|v vs [Hu Hn] _ IH]; intros ts s;
    cbn [ieee_key map zip_recs].
  - constructor.
  - destruct ts as [|t ts]; [constructor|].
    constructor; [|apply IH]. unfold rec_ok. cbn [key val]. auto.
Qed.

Lemma strict_write_chunk_file (i : Z) (recs : list rec) (tag : Z * Z) :
  Forall rec_ok recs -> preserves strict_inv (write_chunk_file i recs tag).
Proof.
  intros Hr st st' r H (M1 & F1 & E1). unfold write_chunk_file in H.
  destruct (negb _); inversion H; subst; [repeat split; assumption|].
  unfold strict_inv. st_simpl. split; [exact M1|]. split; [|exact E1].
  constructor; [exact Hr|]. unfold chunk_remove.
  rewrite Forall_forall in *. intros f Hf. apply filter_In in Hf. apply F1, Hf.
Qed.

Lemma strict_write_chunk (L : Lib) (finite : list double) :
  Forall (fun v => u64 v /\ nonfinite v = false) finite ->
  preserves strict_inv (write_chunk L finite).
Proof.
  intros Hv st st' r H HP.
  unfold write_chunk in H. unfold bind at 1, get at 1 in H. cbv beta iota zeta in H.
  destruct (_ >? _); [inversion H; subst; exact HP|].
  pose proof HP as (M1 & _ & _). rewrite M1 in H. cbn [_metric] in H.
  refine ((_ : preserves strict_inv _) st st' r H HP).
  apply preserves_bind; [apply strict_frames, frames_make_ties | intros ties].
  apply preserves_bind; [apply strict_frames, frames_modify; frames_set | intros _].
  apply preserves_bind.
  { apply strict_write_chunk_file.
    eapply Permutation_Forall; [symmetry; apply np_sort_perm|].
    apply zip_recs_ok. exact Hv. }
  intros _. apply strict_frames.
  apply frames_bind; [apply frames_get | intros st0].
  apply frames_bind; [apply frames_budget | intros _].
  apply frames_bind; [apply frames_modify; frames_set | intros _].
  apply frames_modify; frames_set.
Qed.

Lemma strict_process_chunk (L : Lib) (fuel : nat) (arr : list double) :
  Forall u64 arr -> preserves strict_inv (process_chunk L fuel arr).
Proof.
  intros Hu. unfold process_chunk.
  apply preserves_bind.
  - destruct (existsb nonfinite arr);
      [apply strict_frames, frames_write_tail | apply preserves_ret].
  - intros _.
    assert (Hf : Forall (fun v => u64 v /\ nonfinite v = false)
                   (filter (fun x => negb (nonfinite x)) arr)).
    { rewrite Forall_forall in *. intros v Hv. apply filter_In in Hv.
      destruct Hv as [Hin Hn]. split; [apply Hu; exact Hin|].
      destruct (nonfinite v); [discriminate Hn | reflexivity]. }
    destruct (filter _ arr) eqn:E; [apply preserves_ret|].
    rewrite <- E in *. apply strict_write_chunk. exact Hf.
Qed.

Lemma strict_chunks (L : Lib) (fuel : nat) (cs : list (list double)) :
  Forall (Forall u64) cs -> preserves strict_inv (forM_ cs (process_chunk L fuel)).
Proof.
  intros Hc. induction Hc as [|c cs Hc _ IH]; cbn [forM_].
  - apply preserves_ret.
  - apply preserves_bind; [apply strict_process_chunk; exact Hc | intros _; exact IH].
Qed.

Lemma chunk_recs_ok (w : World) (i : Z) :
  Forall (fun f => Forall rec_ok (fst (snd f))) (chunk_files w) ->
  Forall rec_ok (chunk_recs w i).
Proof.
  unfold chunk_recs. intros H.
  induction H as [|[j [recs tag]] files Hf _ IH]; cbn [chunk_lookup].
  - constructor.
  - destruct (i =? j); [exact Hf | exact IH].
Qed.

Lemma strict_merge_phase (L : Lib) : preserves strict_inv (merge_phase L).
Proof.
  intros st st' r H (M1 & F1 & E1). apply merge_phase_any in H.
  destruct H as (recs & err & Hq & -> & _).
  unfold strict_inv. cbn [yield_recs self world emitted].
  split; [exact M1|]. split; [exact F1|].
  apply Forall_app. split; [exact E1|].
  destruct (heapq_merge_prefix _ _ _ Hq) as (rem & Hp & _).
  rewrite readers_fst in Hp.
  assert (Hall : Forall rec_ok (concat (map (chunk_recs (world st)) (chunks st)))).
  { apply Forall_concat. apply Forall_map. apply Forall_forall. intros i _.
    apply chunk_recs_ok. exact F1. }
  eapply Permutation_Forall in Hall; [|exact Hp].
  apply Forall_app in Hall. tauto.
Qed.

Lemma strict_remove_path (p : fname) : preserves strict_inv (remove_path p).
Proof.
  unfold remove_path.
  apply preserves_bind; [apply preserves_get | intros st0].
  destruct (fs_exists (world st0) p); [|apply preserves_ret].
  apply preserves_bind; [|intros _; apply strict_frames, frames_budget].
  apply preserves_modify. intros st (M1 & F1 & E1).
  unfold strict_inv. st_simpl. split; [exact M1|]. split; [|exact E1].
  destruct p as [i| |]; cbn [fs_remove chunk_files]; try exact F1.
  unfold chunk_remove. rewrite Forall_forall in *. intros f Hf.
  apply filter_In in Hf. apply F1, Hf.
Qed.

Lemma strict_cleanup (L : Lib) : preserves strict_inv (cleanup L).
Proof.
  unfold cleanup.
  apply preserves_bind; [apply preserves_get | intros st0]. cbv zeta.
  apply preserves_bind; [apply preserves_forM; intros p; apply strict_remove_path|].
  intros _. unfold rmdir_if_empty. apply strict_frames, frames_modify.
  intros st. cbv zeta. destruct (_ && _); st_simpl; repeat split.
Qed.

Lemma strict_body (L : Lib) (fuel : nat) (itr : list double) (chunk_size : Z) :
  Forall u64 itr -> preserves strict_inv (stream_sort_body L fuel itr chunk_size).
Proof.
  intros Hu. unfold stream_sort_body.
  apply preserves_bind.
  { destruct (chunk_size <=? 0); [apply preserves_ret|].
    apply strict_chunks. apply Forall_concat.
    rewrite read_chunks_concat. exact Hu. }
  intros _. apply preserves_bind; [apply strict_frames, frames_seal_tail | intros _].
  apply preserves_bind; [apply strict_merge_phase | intros _].
  apply preserves_bind; [apply preserves_get | intros st].
  destruct (tail_fin st); [apply strict_frames, frames_tail_emit | apply preserves_ret].
Qed.

Lemma key_le_fle (a b : double) :
  u64 a -> u64 b -> finite_nonzero a -> finite_nonzero b ->
  ieee_key1 a <= ieee_key1 b -> fle a b = true.
Proof.
  intros Ha Hb Fa Fb. unfold fle, SFleb.
  rewrite (SFcompare_finite_nonzero a b Ha Hb Fa Fb).
  rewrite (ieee_key1_finite_nonzero a Ha Fa), (ieee_key1_finite_nonzero b Hb Fb).
  destruct (pattern_sign_mag a Ha) as [Pa Ma], (pattern_sign_mag b Hb) as [Pb Mb].
  destruct (signbit a), (signbit b);
    try destruct (Z.compare_spec (mag a) (mag b)); cbn [CompOpp];
    intros Hle; try reflexivity; lia.
Qed.

Lemma key_order_value (a b : double) :
  u64 a -> u64 b -> nonfinite a = false -> nonfinite b = false ->
  ieee_key1 a <= ieee_key1 b -> value_order a b.
Proof.
  intros Ha Hb Na Nb Hk. unfold value_order.
  assert (Z0 : forall s, SFeqb (S754_zero s) (decode pos_zero) = true)
    by (intros []; reflexivity).
  destruct (ieee_key1_cases a Ha) as [[Fa _]|[[Da _]|[(s & Da & _)|[Da Ka]]]].
  - destruct Fa as [Fa1 Fa2]. rewrite Fa2.
    destruct (ieee_key1_cases b Hb) as [[Fb _]|[[Db _]|[(s & Db & _)|[Db Kb]]]].
    + right. apply key_le_fle; try assumption. split; assumption.
    + unfold nonfinite, isnan in Nb. rewrite Db in Nb. discriminate Nb.
    + unfold nonfinite, isnan, isinf in Nb. rewrite Db in Nb. discriminate Nb.
    + left. unfold feq. rewrite Db. apply Z0.
  - unfold nonfinite, isnan in Na. rewrite Da in Na. discriminate Na.
  - unfold nonfinite, isnan, isinf in Na. rewrite Da in Na. discriminate Na.
  - assert (Ea : feq a pos_zero = true) by (unfold feq; rewrite Da; apply Z0).
    rewrite Ea.
    destruct (ieee_key1_cases b Hb) as [[Fb _]|[[Db _]|[(s & Db & _)|[Db Kb]]]].
    + pose proof (finite_key_range b Hb Fb) as R. exfalso.
      rewrite Ka in Hk. unfold K_NEG0, K_POS0 in Hk. destruct (signbit a); lia.
    + unfold nonfinite, isnan in Nb. rewrite Db in Nb. discriminate Nb.
    + unfold nonfinite, isnan, isinf in Nb. rewrite Db in Nb. discriminate Nb.
    + split; [unfold feq; rewrite Db; apply Z0|].
      intros Sa. rewrite Ka, Kb, Sa in Hk. unfold K_NEG0, K_POS0 in Hk.
      destruct (signbit b); [lia | reflexivity].
Qed.

Lemma sorted_values (l : list rec) :
  StronglySorted rec_lex_le l -> Forall rec_ok l ->
  StronglySorted value_order (map val l).
Proof.
  intros Hs Ho. induction Hs as [|x l Hs IH Hx]; cbn [map]; [constructor|].
  inversion Ho as [|? ? Ox Ol]; subst.
  constructor; [apply IH; exact Ol|].
  apply Forall_map. rewrite Forall_forall in *. intros y Hy.
  destruct Ox as (Kx & Ux & Nx), (Ol y Hy) as (Ky & Uy & Ny).
  apply key_order_value; try assumption.
  rewrite <- Kx, <- Ky. specialize (Hx y Hy). unfold rec_lex_le in Hx. lia.
Qed.

(** X8: in STRICT mode the values of the merged records come out in this
    order, in every run and however it ends: the finite non-zero values
    first, in non-decreasing numeric order; then every [-0.0]; then every
    [+0.0].  A zero is never yielded before a non-zero value, whatever their
    numeric order.  All of them are finite. *)
Theorem strict_merged_values_order (L : Lib) (fuel : nat) (s : XiSort.t)
    (itr : list double) (chunk_size : Z) :
  XiSort.mode s = STRICT -> Forall u64 itr ->
  let vs := map val (emitted (fst (stream_sort L fuel s fresh_world itr chunk_size))) in
  StronglySorted value_order vs /\ Forall (fun v => isfinite v = true) vs.
Proof.
  intros Hm Hu. cbv zeta.
  assert (I0 : strict_inv (mkSt s fresh_world [] None None [] [] [] [])).
  { unfold strict_inv. st_simpl. repeat split; [exact Hm | constructor | constructor]. }
  assert (H : StronglySorted rec_lex_le
                (emitted (fst (stream_sort L fuel s fresh_world itr chunk_size)))
              /\ strict_inv (fst (stream_sort L fuel s fresh_world itr chunk_size))).
  { unfold stream_sort.
    destruct (stream_sort_body L fuel itr chunk_size _) as [st1 r] eqn:B.
    pose proof (strict_body L fuel itr chunk_size Hu _ _ _ B I0) as I1.
    apply body_emitted_sorted in B; [|reflexivity|reflexivity].
    destruct (emitted_ignores (emitted st1)) as (Es & Ew & _).
    assert (C : emitted (fst (cleanup L st1)) = emitted st1
                /\ strict_inv (fst (cleanup L st1))).
    { destruct (cleanup L st1) as [st2 rc] eqn:Hc. cbn [fst]. split.
      - eapply (preserves_cleanup _ L Es Ew); [exact Hc | reflexivity].
      - eapply strict_cleanup; eassumption. }
    destruct C as [C1 C2].
    destruct r as [[e|]|u]; [| split; assumption |];
      destruct (cleanup L st1) as [st2 [[e'|]|u']]; cbn [fst] in *;
      rewrite C1; split; assumption. }
  destruct H as [Hs (_ & _ & Ho)]. split.
  - apply sorted_values; assumption.
  - apply Forall_map. eapply Forall_impl; [|exact Ho].
    intros r (_ & _ & Hn). unfold isfinite. unfold nonfinite in Hn. rewrite Hn. reflexivity.
Qed.

Lemma strict_merged_values_order_witness :
  let vs := map val (emitted (fst (stream_sort demo_lib 0 (sorter_of 0 default_config)
                                     fresh_world
                                     [pos_zero; one; neg_zero; neg_one; two] 2))) in
  StronglySorted value_order vs /\ Forall (fun v => isfinite v = true) vs.
Proof.
  apply (strict_merged_values_order demo_lib 0 (sorter_of 0 default_config)
           [pos_zero; one; neg_zero; neg_one; two] 2).
  - reflexivity.
  - repeat constructor; vm_compute; congruence.
Defined.

(** ** Nothing is left behind *)



Lemma ends_raise {A} (P Q E : St -> Prop) (e : exn) :
  (forall st, P st -> E st) -> ends P (@raise A e) Q E.
Proof. intros He st st' r H HP. inversion H; subst. right. auto. Qed.





Lemma ends_weaken {A} (P P' Q Q' E E' : St -> Prop) (m : M A) :
  ends P m Q E -> (forall st, P' st -> P st) -> (forall st, Q st -> Q' st) ->
  (forall st, E st -> E' st) -> ends P' m Q' E'.
Proof.
  intros Hm HP HQ HE st st' r H HP'. specialize (Hm _ _ _ H (HP _ HP')).
  destruct r as [a|b]; [destruct Hm; auto | auto].
Qed.























(** ** The errors of a run *)




















(** ** Chunk file names *)

Section DetNameFacts.
Import Ascii String Decimal.
Local Open Scope string_scope.

Lemma of_uint_pad_zeros (k : nat) (d : uint) : N.of_uint (pad_zeros k d) = N.of_uint d.
Proof. induction k as [|k IH]; cbn [pad_zeros]; [reflexivity | exact IH]. Qed.

Lemma string_of_uint_inj (d d' : uint) :
  DecimalString.NilEmpty.string_of_uint d = DecimalString.NilEmpty.string_of_uint d' ->
  d = d'.
Proof.
  intros H.
  pose proof (DecimalString.NilEmpty.usu d) as H1.
  pose proof (DecimalString.NilEmpty.usu d') as H2.
  rewrite H in H1. congruence.
Qed.

Lemma string_of_uint_no_sign (d : uint) (s : string) :
  DecimalString.NilEmpty.string_of_uint d <> String "-" s.
Proof. destruct d; cbn [DecimalString.NilEmpty.string_of_uint]; discriminate. Qed.

(** X11: [_det_name] gives distinct chunk indices distinct file names, also
    past the twelve digits of the padding and for negative indices: a chunk
    file is never overwritten by the chunk of another index. *)
Theorem det_name_injective (i j : Z) : _det_name i = _det_name j <-> i = j.
Proof.
  split; [|intros ->; reflexivity].
  unfold _det_name. cbv zeta.
  set (di := N.to_uint (Z.abs_N i)). set (dj := N.to_uint (Z.abs_N j)).
  assert (Hn : forall k k', pad_zeros k di = pad_zeros k' dj -> Z.abs_N i = Z.abs_N j).
  { intros k k' E. apply (f_equal N.of_uint) in E.
    rewrite !of_uint_pad_zeros in E. unfold di, dj in E.
    rewrite !DecimalN.Unsigned.of_to in E. exact E. }
  destruct (Z.ltb_spec i 0) as [Hi|Hi], (Z.ltb_spec j 0) as [Hj|Hj];
    cbn [append]; intros H; injection H as H.
  - apply string_of_uint_inj, Hn in H. lia.
  - symmetry in H. apply string_of_uint_no_sign in H. destruct H.
  - apply string_of_uint_no_sign in H. destruct H.
  - apply string_of_uint_inj, Hn in H. lia.
Qed.

End DetNameFacts.

(** ** The tail tag *)

(** X12: [_tail_emit] never looks at the 16-byte tag that ends [tail.fin]:
    with any other two words in its place the emitter ends the same way,
    and in either case it yields nothing and leaves the generator in the
    state it had.  The digest of the tail is written by [stream_sort] but
    checked by nothing. *)
Theorem tail_tag_not_checked (fuel : nat) (st : St) (tw : list Z) (t1 t2 u1 u2 : Z) :
  let ra := _tail_emit fuel (with_tail_fin st (tw ++ [t1; t2])) in
  let rb := _tail_emit fuel (with_tail_fin st (tw ++ [u1; u2])) in
  snd ra = snd rb
  /\ out (fst ra) = out st /\ out (fst rb) = out st
  /\ XiSort.rng (self (fst ra)) = XiSort.rng (self st)
  /\ XiSort.rng (self (fst rb)) = XiSort.rng (self st).
Proof.
  cbv zeta. rewrite !tail_emit_result. cbn [fst snd].
  rewrite (tail_payload_large_sealed _ tw t1 t2) by reflexivity.
  rewrite (tail_payload_large_sealed _ tw u1 u2) by reflexivity.
  repeat split.
Qed.

(** ** What the constructor sets up *)

Lemma binary_round_aux_sign (sx : bool) (mx ex : Z) (lx : location) :
  0 <= mx ->
  binary_round_aux prec emax sx mx ex lx = S754_zero sx
  \/ binary_round_aux prec emax sx mx ex lx = S754_infinity sx
  \/ exists m e, binary_round_aux prec emax sx mx ex lx = S754_finite sx m e.
Proof.
  intros Hm. pose proof (binary_round_aux_not_nan sx mx ex lx Hm) as Hn.
  unfold binary_round_aux in *.
  destruct (shr_fexp prec emax mx ex lx) as [mrs' e'].
  destruct (shr_fexp prec emax _ e' loc_Exact) as [mrs'' e''].
  destruct (shr_m mrs'') as [|p|p].
  - left. reflexivity.
  - destruct (e'' <=? emax - prec); [right; right; eauto | right; left; reflexivity].
  - contradiction Hn. reflexivity.
Qed.

Lemma py_int_magnitude_nonneg (m : positive) (e : Z) :
  0 <= (if 0 <=? e then Zpos m * 2 ^ e else Zpos m / 2 ^ (- e)).
Proof.
  destruct (Z.leb_spec 0 e) as [He|He].
  - apply Z.mul_nonneg_nonneg; [lia | apply Z.pow_nonneg; lia].
  - apply Z.div_pos; [lia | apply Z.pow_pos_nonneg; lia].
Qed.

Lemma py_int_nonneg (f : spec_float) (z : Z) :
  SFleb sf_zero f = true -> py_int f = inr z -> 0 <= z.
Proof.
  destruct f as [s|s| |s m e]; intros Hle H; try discriminate H.
  - injection H as <-. lia.
  - pose proof (py_int_magnitude_nonneg m e) as Hm.
    destruct s; [discriminate Hle|]. injection H as <-. exact Hm.
Qed.

Lemma fmul_gib_nonneg (f : spec_float) :
  SFleb sf_zero f = true -> fmul f gib = S754_infinity false
  \/ SFleb sf_zero (fmul f gib) = true.
Proof.
  unfold fmul, SFmul, gib. destruct f as [s|s| |s m e]; intros Hle.
  - right. destruct s; reflexivity.
  - destruct s; [discriminate Hle | left; reflexivity].
  - discriminate Hle.
  - destruct s; [discriminate Hle|]. cbn [xorb].
    destruct (binary_round_aux_sign false (Zpos (m * 2 ^ 52)) (e + -22) loc_Exact
                ltac:(lia)) as [E|[E|(m' & e' & E)]]; rewrite E.
    + right. reflexivity.
    + left. reflexivity.
    + right. reflexivity.
Qed.

(** X13: for a [max_gb] that is not negative, a sorter the constructor
    returns starts within its quota: its counter of scratch bytes is 0 and
    its quota [int(max_gb * 1024**3)] is not negative; its chunk index and
    its sequence counter are 0, the sequence limit is [2^64 - 1], it has
    the mode and the tie-break of the configuration, and the working
    directory has been made. *)
Theorem init_within_quota (auto : Z) (c : Config.t) (ev : list fs_event) (s : XiSort.t) :
  XiSort_init auto c = (ev, inr s) -> SFleb sf_zero (Config.max_gb c) = true ->
  ev = [Mkdtemp]
  /\ XiSort.disk s = 0 /\ 0 <= XiSort.max s
  /\ XiSort.idx s = 0 /\ XiSort.gseq s = 0 /\ XiSort._maxseq s = 2 ^ 64 - 1
  /\ XiSort.mode s = Config.mode c /\ XiSort.tie s = Config.tie_break c.
Proof.
  unfold XiSort_init. intros H Hle.
  destruct (SFleb sf_one _); [discriminate H|].
  destruct (_ && _); [discriminate H|].
  destruct (py_int (fmul (Config.max_gb c) gib)) as [e|mx] eqn:Ep; [discriminate H|].
  injection H as <- <-. cbn [XiSort.disk XiSort.max XiSort.idx XiSort.gseq
                             XiSort._maxseq XiSort.mode XiSort.tie].
  repeat split.
  destruct (fmul_gib_nonneg _ Hle) as [E|E].
  - rewrite E in Ep. discriminate Ep.
  - eapply py_int_nonneg; eassumption.
Qed.

Lemma init_within_quota_witness :
  XiSort.disk (sorter_of 0 default_config) = 0
  /\ 0 <= XiSort.max (sorter_of 0 default_config).
Proof.
  destruct (init_within_quota 0 default_config [Mkdtemp] (sorter_of 0 default_config))
    as (_ & D & M & _).
  - vm_compute. reflexivity.
  - vm_compute. reflexivity.
  - split; [exact D | exact M].
Defined.
